(** * The stravigor kernel: container, provider lifecycle and event bus

    A shallow embedding of [src/core/application.ts] (the [Application]
    orchestrator and the [Container] it extends), of
    [src/core/service_provider.ts], of [src/core/inject.ts] and of
    [src/events/emitter.ts], followed by the properties of the lifecycle
    that the specification states and by further properties of the same
    code.

    JavaScript values are modelled as follows.
    - A [Map] is an insertion-ordered finite map ([JsMap.t]): a [gmap]
      for the bindings and the list of keys in insertion order, which is
      what [for (... of map)] walks.
    - A [Set] of functions is a duplicate-free list in insertion order; a
      [WeakSet] is a [gset].
    - Objects that the code compares by reference (providers, listeners)
      are records compared structurally: a record value stands for one
      object.
    - The bodies of [register], [boot], [shutdown], of listeners, of
      factories and of callbacks are not part of the kernel; each is
      represented by what the kernel can observe of a call, namely whether
      it returns or throws.
    - Effects are recorded in a trace of [Event]s, threaded together with
      the state by the monad [App.M].
    - The container is modelled twice: [Container] takes every factory by
      its outcome; [Injection] adds the factories that the container builds
      itself from a class, which call back into the container, and the
      heap of the objects they build. *)

From stdpp Require Import base strings list gmap relations sets.
From Stdlib Require Import ZArith Lia.

Set Warnings "-clear-no-such-hyp".

Open Scope string_scope.
Open Scope list_scope.
Open Scope Z_scope.

(** ** JavaScript [Map]: bindings plus insertion order *)

Module JsMap.

Record t (K : Type) `{Countable K} (V : Type) := make {
  order : list K;
  store : gmap K V
}.
Arguments make {K _ _ V} _ _.
Arguments order {K _ _ V} _.
Arguments store {K _ _ V} _.

Section operations.
Context {K : Type} `{Countable K} {V : Type}.

Definition empty : t K V := make [] ∅.

Definition get (m : t K V) (k : K) : option V := store m !! k.

Definition has (m : t K V) (k : K) : bool :=
  match store m !! k with Some _ => true | None => false end.

(** [map.set(k, v)]: a new key goes to the end of the iteration order,
    an existing key keeps its place. *)
Definition set (m : t K V) (k : K) (v : V) : t K V :=
  make (if has m k then order m else order m ++ [k]) (<[k := v]> (store m)).

(** [map.delete(k)]. *)
Definition remove (m : t K V) (k : K) : t K V :=
  make (filter (λ k', k' ≠ k) (order m)) (delete k (store m)).

(** [[...map]]: the entries in insertion order. *)
Definition entries (m : t K V) : list (K * V) :=
  omap (λ k, (λ v, (k, v)) <$> store m !! k) (order m).

End operations.

End JsMap.

(** ** JavaScript [Set]: a duplicate-free list in insertion order *)

Module JsSet.

Section operations.
Context {A : Type} `{EqDecision A}.

(** [set.add(x)]: a new element goes to the end, a present one stays put. *)
Definition add (x : A) (s : list A) : list A :=
  if decide (x ∈ s) then s else s ++ [x].

(** [set.delete(x)]. *)
Definition delete (x : A) (s : list A) : list A :=
  filter (λ y, y ≠ x) s.

End operations.

End JsSet.

(** ** Container keys: a string name or a class constructor *)

Inductive Key :=
  | Named (s : string)
  | Class (ctor : nat).

#[global] Instance Key_eq_dec : EqDecision Key.
Proof. solve_decision. Defined.

#[global] Instance Key_countable : Countable Key.
Proof.
  refine (inj_countable'
    (λ k, match k with Named s => inl s | Class c => inr c end)
    (λ x, match x with inl s => Named s | inr c => Class c end) _).
  by intros [].
Defined.

(** ** Thrown values and completions *)

(** What a [throw] carries. [Raised] is a value thrown by code outside the
    kernel (a provider, a listener, a factory, a callback); the other
    constructors are the [Error]s the kernel itself builds, with the data
    their messages interpolate ([ServiceNotRegistered] carries the key
    from which the label of the message is built).

    [Unreachable] is not a JavaScript value: it marks the control-flow
    points that the source rules out, namely a lookup in a [Map] that
    finds nothing where the source asserts ([!]) or has just checked that
    it finds something, and the exhaustion of the bound given to the
    [while] loop of the sort. [topologicalSort_defined], [resolve_defined]
    and [start_defined] prove that no input reaches it. *)
Inductive Thrown :=
  | Raised (reason : string)
  | DuplicateProviderName (provider : string)
  | UnknownDependency (provider dep : string)
  | CircularDependency (remaining : list string)
  | ProviderAfterStart (provider : string)
  | ServiceNotRegistered (key : Key)
  | Unreachable.

#[global] Instance Thrown_eq_dec : EqDecision Thrown.
Proof. solve_decision. Defined.

(** How a call into code outside the kernel ends. *)
Inductive Completion :=
  | Returns
  | Throws (reason : string).

#[global] Instance Completion_eq_dec : EqDecision Completion.
Proof. solve_decision. Defined.

(** The error monad of synchronous kernel code. *)
#[global] Instance result_ret : MRet (sum Thrown) := λ A a, inr a.
#[global] Instance result_bind : MBind (sum Thrown) :=
  λ A B f m, match m with inl e => inl e | inr a => f a end.

(** A lookup guarded by [!] in the source. *)
Definition defined {A} (o : option A) : Thrown + A :=
  match o with Some a => inr a | None => inl Unreachable end.

(** ** Service providers ([src/core/service_provider.ts]) *)

(** A provider object: its two fields, and how a call of each of its
    three methods ends. *)
Record ServiceProvider := {
  name : string;
  dependencies : list string;
  register : Completion;
  boot : Completion;
  shutdown : Completion
}.

#[global] Instance ServiceProvider_eq_dec : EqDecision ServiceProvider.
Proof. solve_decision. Defined.

(** ** [Application.topologicalSort] *)

Module Sort.

Abbreviation ByName := (JsMap.t string ServiceProvider).
Abbreviation InDegree := (JsMap.t string Z).
Abbreviation Dependents := (JsMap.t string (list string)).

(** First loop: [byName], refusing a second provider of the same name. *)
Fixpoint indexByName (providers : list ServiceProvider) (byName : ByName)
  : Thrown + ByName :=
  match providers with
  | [] => inr byName
  | p :: rest =>
      if JsMap.has byName (name p)
      then inl (DuplicateProviderName (name p))
      else indexByName rest (JsMap.set byName (name p) p)
  end.

(** Second loop: every provider starts with in-degree 0 and no dependents. *)
Definition initTables (providers : list ServiceProvider)
  : InDegree * Dependents :=
  foldl (λ '(inDegree, dependents) p,
           (JsMap.set inDegree (name p) 0, JsMap.set dependents (name p) []))
        (JsMap.empty, JsMap.empty) providers.

(** Third loop, inner part: the dependencies of one provider. *)
Fixpoint linkDependencies (byName : ByName) (pname : string)
    (deps : list string) (tables : InDegree * Dependents)
  : Thrown + (InDegree * Dependents) :=
  match deps with
  | [] => inr tables
  | dep :: rest =>
      let '(inDegree, dependents) := tables in
      if JsMap.has byName dep then
        let inDegree' :=
          JsMap.set inDegree pname (default 0 (JsMap.get inDegree pname) + 1) in
        arr ← defined (JsMap.get dependents dep);
        linkDependencies byName pname rest
          (inDegree', JsMap.set dependents dep (arr ++ [pname]))
      else inl (UnknownDependency pname dep)
  end.

(** Third loop, outer part. *)
Fixpoint linkProviders (byName : ByName) (providers : list ServiceProvider)
    (tables : InDegree * Dependents) : Thrown + (InDegree * Dependents) :=
  match providers with
  | [] => inr tables
  | p :: rest =>
      tables' ← linkDependencies byName (name p) (dependencies p) tables;
      linkProviders byName rest tables'
  end.

(** The initial queue: the names of in-degree 0, in the iteration order
    of [inDegree]. *)
Definition initialQueue (inDegree : InDegree) : list string :=
  (filter (λ e, e.2 = 0) (JsMap.entries inDegree)).*1.

(** The body of [for (const dependent of dependents.get(name)!)]. *)
Fixpoint relax (ds : list string) (queue : list string) (inDegree : InDegree)
  : Thrown + (list string * InDegree) :=
  match ds with
  | [] => inr (queue, inDegree)
  | dependent :: rest =>
      degree ← defined (JsMap.get inDegree dependent);
      let newDegree := degree - 1 in
      let inDegree' := JsMap.set inDegree dependent newDegree in
      relax rest
        (if decide (newDegree = 0) then queue ++ [dependent] else queue)
        inDegree'
  end.

(** [while (queue.length > 0)]: one unit of [fuel] per iteration. *)
Fixpoint drain (fuel : nat) (byName : ByName) (dependents : Dependents)
    (queue : list string) (sorted : list ServiceProvider)
    (inDegree : InDegree) : Thrown + list ServiceProvider :=
  match queue with
  | [] => inr sorted
  | current :: queue' =>
      match fuel with
      | O => inl Unreachable
      | S fuel' =>
          p ← defined (JsMap.get byName current);
          ds ← defined (JsMap.get dependents current);
          '(queue'', inDegree') ← relax ds queue' inDegree;
          drain fuel' byName dependents queue'' (sorted ++ [p]) inDegree'
      end
  end.

(** Everything up to the end of the [while] loop: the [sorted] array. *)
Definition sweep (providers : list ServiceProvider)
  : Thrown + list ServiceProvider :=
  byName ← indexByName providers JsMap.empty;
  tables ← linkProviders byName providers (initTables providers);
  drain (length providers) byName tables.2 (initialQueue tables.1) [] tables.1.

(** [sorted.includes(p)] compares by reference. It is reached only when
    the first loop has found the names pairwise distinct, and then two
    entries of [providers] are the same object exactly when they are equal
    as records. *)
Definition includes (sorted : list ServiceProvider) (p : ServiceProvider)
  : bool := bool_decide (p ∈ sorted).

Definition topologicalSort (providers : list ServiceProvider)
  : Thrown + list ServiceProvider :=
  sorted ← sweep providers;
  if decide (length sorted ≠ length providers) then
    let remaining :=
      name <$> filter (λ p, includes sorted p = false) providers in
    inl (CircularDependency remaining)
  else inr sorted.

End Sort.

(** ** The event bus ([src/events/emitter.ts]) *)

(** What calling a listener does: it returns (a value or a promise that
    fulfils), throws before returning, or returns a promise that rejects. *)
Inductive Conduct :=
  | Settles
  | ThrowsNow (reason : string)
  | RejectsLater (reason : string).

#[global] Instance Conduct_eq_dec : EqDecision Conduct.
Proof. solve_decision. Defined.

#[global] Instance Conduct_countable : Countable Conduct.
Proof.
  refine (inj_countable'
    (λ c, match c with
          | Settles => inl ()
          | ThrowsNow r => inr (inl r)
          | RejectsLater r => inr (inr r)
          end)
    (λ x, match x with
          | inl _ => Settles
          | inr (inl r) => ThrowsNow r
          | inr (inr r) => RejectsLater r
          end) _).
  by intros [].
Defined.

(** A listener function. [lid] tells apart functions of the same conduct. *)
Record Listener := {
  lid : nat;
  conduct : Conduct
}.

#[global] Instance Listener_eq_dec : EqDecision Listener.
Proof. solve_decision. Defined.

#[global] Instance Listener_countable : Countable Listener.
Proof.
  refine (inj_countable'
    (λ l, (lid l, conduct l))
    (λ x, {| lid := x.1; conduct := x.2 |}) _).
  by intros [].
Defined.

(** An element of the array [Promise.allSettled] resolves to. *)
Inductive SettledResult :=
  | Fulfilled
  | Rejected (reason : string).

Module Emitter.

(** The two static fields of the class. *)
Record State := {
  _listeners : JsMap.t string (list Listener);
  _once : gset Listener
}.

Definition initial : State :=
  {| _listeners := JsMap.empty; _once := ∅ |}.

Definition on (event : string) (listener : Listener) (st : State) : State :=
  let set := default [] (JsMap.get (_listeners st) event) in
  {| _listeners := JsMap.set (_listeners st) event (JsSet.add listener set);
     _once := _once st |}.

Definition once (event : string) (listener : Listener) (st : State) : State :=
  on event listener
    {| _listeners := _listeners st; _once := _once st ∪ {[listener]} |}.

Definition off (event : string) (listener : Listener) (st : State) : State :=
  match JsMap.get (_listeners st) event with
  | None => st
  | Some set =>
      let set' := JsSet.delete listener set in
      {| _listeners :=
           if decide (length set' = 0%nat)
           then JsMap.remove (_listeners st) event
           else JsMap.set (_listeners st) event set';
         _once := _once st |}
  end.

(** [if (event)] is false for a missing argument and for the empty string. *)
Definition removeAllListeners (event : option string) (st : State) : State :=
  match event with
  | Some (String a e) =>
      {| _listeners := JsMap.remove (_listeners st) (String a e);
         _once := _once st |}
  | _ => {| _listeners := JsMap.empty; _once := _once st |}
  end.

(** The loop that takes the single-fire listeners of the snapshot out of
    the marker set and out of the live set, before anything is called. *)
Definition dropOnce (listeners : list Listener)
    (once : gset Listener) (set : list Listener)
  : gset Listener * list Listener :=
  foldl (λ '(once, set) fn,
           if decide (fn ∈ once)
           then (once ∖ {[fn]}, JsSet.delete fn set)
           else (once, set))
        (once, set) listeners.

(** The callback of [listeners.map]: a synchronous throw is turned into a
    rejected promise, and [Promise.allSettled] records how each ends. *)
Definition settle (fn : Listener) : SettledResult :=
  match conduct fn with
  | Settles => Fulfilled
  | ThrowsNow err => Rejected err
  | RejectsLater err => Rejected err
  end.

Definition rejected (r : SettledResult) : bool :=
  match r with Rejected _ => true | Fulfilled => false end.

(** [emit] returns the new state, the listeners it called, in the order
    of the calls, and how the promise it returns settles. *)
Definition emit (event : string) (st : State)
  : State * list Listener * (Thrown + ()) :=
  match JsMap.get (_listeners st) event with
  | None => (st, [], inr ())
  | Some set =>
      if decide (length set = 0%nat) then (st, [], inr ())
      else
        let listeners := set in
        let '(once', set') := dropOnce listeners (_once st) set in
        let st' :=
          {| _listeners :=
               if decide (length set' = 0%nat)
               then JsMap.remove (_listeners st) event
               else JsMap.set (_listeners st) event set';
             _once := once' |} in
        let results := settle <$> listeners in
        (st', listeners,
         match find (λ r, rejected r) results with
         | Some (Rejected reason) => inl (Raised reason)
         | _ => inr ()
         end)
  end.

Definition listenerCount (event : string) (st : State) : nat :=
  match JsMap.get (_listeners st) event with
  | Some set => length set
  | None => 0%nat
  end.

Definition reset (st : State) : State := initial.

End Emitter.

(** ** The application ([src/core/application.ts]) *)

(** A callback given to [onBooted]. *)
Record Callback := {
  cbid : nat;
  answer : Conduct
}.

#[global] Instance Callback_eq_dec : EqDecision Callback.
Proof. solve_decision. Defined.

(** What the application does to the world outside its own fields: the
    calls it makes into user code (listeners, provider methods, callbacks),
    the timers and process handlers it sets, and what it writes with
    [console.error].  [BootCalled] is the call of [provider.boot()];
    [BootCompleted] is the return of the awaited call, after which the
    provider is pushed on [_bootedProviders]. *)
Inductive Event :=
  | ListenerCalled (event : string) (fn : Listener)
  | RegisterCalled (p : ServiceProvider)
  | BootCalled (p : ServiceProvider)
  | BootCompleted (p : ServiceProvider)
  | ShutdownCalled (p : ServiceProvider)
  | ConsoleError (provider : string) (error : Thrown)
  | CallbackCalled (cb : Callback)
  | TimerSet (ms : Z)
  | TimerCleared
  | ProcessOn (signal : string)
  | ProcessOff (signal : string).

#[global] Instance Event_eq_dec : EqDecision Event.
Proof. solve_decision. Defined.

(** The private fields of [Application], and the state of the static
    [Emitter] it publishes its lifecycle on. [_signalHandlers] holds
    closures that all do the same; the model keeps their number. *)
Record Application := {
  _providers : list ServiceProvider;
  _bootedProviders : list ServiceProvider;
  _bootedCallbacks : list Callback;
  _booted : bool;
  _shuttingDown : bool;
  _signalHandlers : nat;
  bus : Emitter.State
}.

Definition SHUTDOWN_TIMEOUT : Z := 30000.

Module App.

Definition created : Application :=
  {| _providers := []; _bootedProviders := []; _bootedCallbacks := [];
     _booted := false; _shuttingDown := false; _signalHandlers := 0%nat;
     bus := Emitter.initial |}.

Definition set_providers (v : list ServiceProvider) (s : Application) :=
  {| _providers := v; _bootedProviders := _bootedProviders s;
     _bootedCallbacks := _bootedCallbacks s; _booted := _booted s;
     _shuttingDown := _shuttingDown s; _signalHandlers := _signalHandlers s;
     bus := bus s |}.

Definition set_bootedProviders (v : list ServiceProvider) (s : Application) :=
  {| _providers := _providers s; _bootedProviders := v;
     _bootedCallbacks := _bootedCallbacks s; _booted := _booted s;
     _shuttingDown := _shuttingDown s; _signalHandlers := _signalHandlers s;
     bus := bus s |}.

Definition set_bootedCallbacks (v : list Callback) (s : Application) :=
  {| _providers := _providers s; _bootedProviders := _bootedProviders s;
     _bootedCallbacks := v; _booted := _booted s;
     _shuttingDown := _shuttingDown s; _signalHandlers := _signalHandlers s;
     bus := bus s |}.

Definition set_booted (v : bool) (s : Application) :=
  {| _providers := _providers s; _bootedProviders := _bootedProviders s;
     _bootedCallbacks := _bootedCallbacks s; _booted := v;
     _shuttingDown := _shuttingDown s; _signalHandlers := _signalHandlers s;
     bus := bus s |}.

Definition set_shuttingDown (v : bool) (s : Application) :=
  {| _providers := _providers s; _bootedProviders := _bootedProviders s;
     _bootedCallbacks := _bootedCallbacks s; _booted := _booted s;
     _shuttingDown := v; _signalHandlers := _signalHandlers s;
     bus := bus s |}.

Definition set_signalHandlers (v : nat) (s : Application) :=
  {| _providers := _providers s; _bootedProviders := _bootedProviders s;
     _bootedCallbacks := _bootedCallbacks s; _booted := _booted s;
     _shuttingDown := _shuttingDown s; _signalHandlers := v;
     bus := bus s |}.

Definition set_bus (v : Emitter.State) (s : Application) :=
  {| _providers := _providers s; _bootedProviders := _bootedProviders s;
     _bootedCallbacks := _bootedCallbacks s; _booted := _booted s;
     _shuttingDown := _shuttingDown s; _signalHandlers := _signalHandlers s;
     bus := v |}.

(** *** The monad of the methods: state, trace and exceptions *)

Definition M (A : Type) : Type :=
  Application → Application * list Event * (Thrown + A).

#[global] Instance M_ret : MRet M := λ A a s, (s, [], inr a).

#[global] Instance M_bind : MBind M := λ A B f m s,
  match m s with
  | (s1, t1, inl e) => (s1, t1, inl e)
  | (s1, t1, inr a) =>
      match f a s1 with
      | (s2, t2, r) => (s2, t1 ++ t2, r)
      end
  end.

Definition gets {A} (f : Application → A) : M A := λ s, (s, [], inr (f s)).

Definition modify (f : Application → Application) : M () :=
  λ s, (f s, [], inr ()).

Definition tell (ev : Event) : M () := λ s, (s, [ev], inr ()).

Definition throw {A} (e : Thrown) : M A := λ s, (s, [], inl e).

Definition lift {A} (r : Thrown + A) : M A := λ s, (s, [], r).

(** [try { m } catch (error) { handler error }]. *)
Definition tryCatch {A} (m : M A) (handler : Thrown → M A) : M A := λ s,
  match m s with
  | (s1, t1, inr a) => (s1, t1, inr a)
  | (s1, t1, inl e) =>
      match handler e s1 with
      | (s2, t2, r) => (s2, t1 ++ t2, r)
      end
  end.

(** [try { m } finally { cleanup }]: the cleanup always runs; what [m] threw
    is thrown again unless the cleanup throws. *)
Definition tryFinally {A} (m : M A) (cleanup : M ()) : M A := λ s,
  match m s with
  | (s1, t1, r) =>
      match cleanup s1 with
      | (s2, t2, inl e) => (s2, t1 ++ t2, inl e)
      | (s2, t2, inr _) => (s2, t1 ++ t2, r)
      end
  end.

(** [await Emitter.emit(event)]. *)
Definition emit (event : string) : M () := λ s,
  match Emitter.emit event (bus s) with
  | (b, called, r) => (set_bus b s, ListenerCalled event <$> called, r)
  end.

(** Calls into a provider. *)
Definition callRegister (provider : ServiceProvider) : M () :=
  tell (RegisterCalled provider);;
  match register provider with
  | Returns => mret ()
  | Throws reason => throw (Raised reason)
  end.

Definition callBoot (provider : ServiceProvider) : M () :=
  tell (BootCalled provider);;
  match boot provider with
  | Returns => tell (BootCompleted provider)
  | Throws reason => throw (Raised reason)
  end.

Definition callShutdown (provider : ServiceProvider) : M () :=
  tell (ShutdownCalled provider);;
  match shutdown provider with
  | Returns => mret ()
  | Throws reason => throw (Raised reason)
  end.

(** *** The methods *)

Definition use (provider : ServiceProvider) : M () :=
  booted ← gets _booted;
  if booted : bool then throw (ProviderAfterStart (name provider))
  else
    providers ← gets _providers;
    modify (set_providers (providers ++ [provider])).

Fixpoint loadProviders (providers : list ServiceProvider) : M () :=
  match providers with
  | [] => mret ()
  | provider :: rest => use provider;; loadProviders rest
  end.

(** When the application has booted the callback is called and not
    awaited: only a synchronous throw leaves [onBooted]. *)
Definition onBooted (callback : Callback) : M () :=
  booted ← gets _booted;
  if booted : bool then
    tell (CallbackCalled callback);;
    match answer callback with
    | ThrowsNow reason => throw (Raised reason)
    | _ => mret ()
    end
  else
    callbacks ← gets _bootedCallbacks;
    modify (set_bootedCallbacks (callbacks ++ [callback])).

(** The loop of [shutdownProviders]. *)
Fixpoint shutdownEach (reversed : list ServiceProvider) : M () :=
  match reversed with
  | [] => mret ()
  | provider :: rest =>
      tryCatch (callShutdown provider)
               (λ error, tell (ConsoleError (name provider) error));;
      shutdownEach rest
  end.

Definition shutdownProviders : M () :=
  booted ← gets _bootedProviders;
  shutdownEach (reverse booted);;
  modify (set_bootedProviders []).

Definition installSignalHandlers : M () :=
  handlers ← gets _signalHandlers;
  modify (set_signalHandlers (S handlers));;
  tell (ProcessOn "SIGINT");;
  tell (ProcessOn "SIGTERM").

Fixpoint removeEach (handlers : nat) : M () :=
  match handlers with
  | O => mret ()
  | S rest =>
      tell (ProcessOff "SIGINT");;
      tell (ProcessOff "SIGTERM");;
      removeEach rest
  end.

Definition removeSignalHandlers : M () :=
  handlers ← gets _signalHandlers;
  removeEach handlers;;
  modify (set_signalHandlers 0%nat).

(** Phase 1 of [start]. *)
Fixpoint registerEach (sorted : list ServiceProvider) : M () :=
  match sorted with
  | [] => mret ()
  | provider :: rest => callRegister provider;; registerEach rest
  end.

(** Phase 2 of [start]. *)
Fixpoint bootEach (sorted : list ServiceProvider) : M () :=
  match sorted with
  | [] => mret ()
  | provider :: rest =>
      tryCatch
        (callBoot provider;;
         booted ← gets _bootedProviders;
         modify (set_bootedProviders (booted ++ [provider])))
        (λ error, shutdownProviders;; throw error);;
      bootEach rest
  end.

(** The loop over [_bootedCallbacks]; each call is awaited. *)
Fixpoint runCallbacks (callbacks : list Callback) : M () :=
  match callbacks with
  | [] => mret ()
  | callback :: rest =>
      tell (CallbackCalled callback);;
      match answer callback with
      | Settles => mret ()
      | ThrowsNow reason => throw (Raised reason)
      | RejectsLater reason => throw (Raised reason)
      end;;
      runCallbacks rest
  end.

Definition start : M () :=
  booted ← gets _booted;
  if booted : bool then mret ()
  else
    emit "app:starting";;
    providers ← gets _providers;
    sorted ← lift (Sort.topologicalSort providers);
    registerEach sorted;;
    bootEach sorted;;
    modify (set_booted true);;
    callbacks ← gets _bootedCallbacks;
    runCallbacks callbacks;;
    installSignalHandlers;;
    emit "app:booted".

(** The timer's own callback (report and [process.exit(1)]) runs only when
    30 seconds of wall-clock time pass before [clearTimeout]; time is not
    part of this model, which records that the timer is set and cleared. *)
Definition shutdown : M () :=
  shuttingDown ← gets _shuttingDown;
  if shuttingDown : bool then mret ()
  else
    modify (set_shuttingDown true);;
    emit "app:shutdown";;
    tell (TimerSet SHUTDOWN_TIMEOUT);;
    tryFinally shutdownProviders
      (tell TimerCleared;;
       removeSignalHandlers;;
       modify (set_booted false);;
       modify (set_shuttingDown false));;
    emit "app:terminated".

Definition isBooted (s : Application) : bool := _booted s.

Definition isShuttingDown (s : Application) : bool := _shuttingDown s.

End App.

(** ** Callers

    What the code around an application may do to it between two moments:
    call one of its public methods, or change the subscriptions of the
    static event bus. *)
Inductive Call :=
  | CallUse (p : ServiceProvider)
  | CallOnBooted (cb : Callback)
  | CallStart
  | CallShutdown
  | Subscription (change : Emitter.State → Emitter.State).

Definition perform (c : Call) : App.M () :=
  match c with
  | CallUse p => App.use p
  | CallOnBooted cb => App.onBooted cb
  | CallStart => App.start
  | CallShutdown => App.shutdown
  | Subscription change => App.modify (λ s, App.set_bus (change (bus s)) s)
  end.

(** A sequence of calls, each made whether or not the one before threw;
    the result is the final state and the whole trace. *)
Fixpoint perform_all (calls : list Call) (s : Application)
  : Application * list Event :=
  match calls with
  | [] => (s, [])
  | c :: rest =>
      let r := perform_all rest (perform c s).1.1 in
      (r.1, (perform c s).1.2 ++ r.2)
  end.

(** ** The container ([src/core/container.ts]) *)

Module Container.

(** A resolved service: an object, known by its address. *)
Definition Value := nat.

(** What one execution of a factory produces. *)
Inductive Produced :=
  | Made (instance : Value)
  | Failed (reason : string).

(** A factory, as [toFactory] or [classToFactory] hands it to the map.
    [run k] is what its execution number [k] produces (counting from 0):
    a factory may build a new object each time, and may throw. *)
Record Factory := {
  fid : nat;
  run : nat → Produced
}.

(** The binding [{ factory, singleton }]; the field [singleton] is
    [isSingleton] here, the name [singleton] being the method's. *)
Record Entry := {
  factory : Factory;
  isSingleton : bool
}.

(** The two private maps, and the log of the factory executions so far
    (the [fid] of each, oldest first), which the code does not keep and the
    properties speak about. *)
Record State := {
  factories : JsMap.t Key Entry;
  instances : JsMap.t Key Value;
  executed : list nat
}.

Definition initial : State :=
  {| factories := JsMap.empty; instances := JsMap.empty; executed := [] |}.

Definition register (key : Key) (f : Factory) (st : State) : State :=
  {| factories :=
       JsMap.set (factories st) key {| factory := f; isSingleton := false |};
     instances := instances st;
     executed := executed st |}.

Definition singleton (key : Key) (f : Factory) (st : State) : State :=
  {| factories :=
       JsMap.set (factories st) key {| factory := f; isSingleton := true |};
     instances := instances st;
     executed := executed st |}.

(** How often the factory [f] has been executed. *)
Definition executions (f : Factory) (st : State) : nat :=
  length (filter (λ i, i = fid f) (executed st)).

(** [entry.factory(this)]. *)
Definition execute (f : Factory) (st : State) : State * (Thrown + Value) :=
  ({| factories := factories st;
      instances := instances st;
      executed := executed st ++ [fid f] |},
   match run f (executions f st) with
   | Made v => inr v
   | Failed reason => inl (Raised reason)
   end).

Definition resolve (key : Key) (st : State) : State * (Thrown + Value) :=
  match JsMap.get (factories st) key with
  | None => (st, inl (ServiceNotRegistered key))
  | Some entry =>
      if isSingleton entry then
        if negb (JsMap.has (instances st) key) then
          match execute (factory entry) st with
          | (st1, inl e) => (st1, inl e)
          | (st1, inr v) =>
              let st2 :=
                {| factories := factories st1;
                   instances := JsMap.set (instances st1) key v;
                   executed := executed st1 |} in
              (st2, defined (JsMap.get (instances st2) key))
          end
        else (st, defined (JsMap.get (instances st) key))
      else execute (factory entry) st
  end.

Definition has (key : Key) (st : State) : bool :=
  JsMap.has (factories st) key.

(** What a caller may do to a container, and a sequence of such calls. *)
Inductive Op :=
  | DoRegister (key : Key) (f : Factory)
  | DoSingleton (key : Key) (f : Factory)
  | DoResolve (key : Key).

Definition step (op : Op) (st : State) : State :=
  match op with
  | DoRegister key f => register key f st
  | DoSingleton key f => singleton key f st
  | DoResolve key => (resolve key st).1
  end.


End Container.

(** ** The container with injection ([classToFactory], [toFactory], [make])

    The container once more, this time with the factories that
    [classToFactory] builds: they call back into the container, to resolve
    the constructor parameters of a class. The recursion of [resolve] and
    [make] through these factories is not bounded by the code (a class that
    needs itself recurses for ever), so both take the depth of recursion
    they are allowed: [None] says that this depth does not suffice. *)

Module Injection.

(** A value handed out by the container: an object built by [new], known
    by its place in the heap, or what a plain call of a function returned. *)
Inductive Ref :=
  | Obj (address : nat)
  | Ext (v : Container.Value).

#[global] Instance Ref_eq_dec : EqDecision Ref.
Proof. solve_decision. Defined.

(** A function object, class or factory function: whether it bears the
    [INJECTABLE] marker that [inject] defines ([INJECTABLE in fn]), its
    [design:paramtypes] metadata (function objects themselves, absent when
    none was emitted), how its constructor ends under [new] with given
    arguments, and what its plain call number [k] produces (for a class, a
    [TypeError]). Function objects are known by a number, the one that
    [Class] keys carry.

    The bodies of constructors and of factory functions are not part of
    the kernel: as in [Container], a call of one is taken by its outcome,
    and is taken not to call the container it is given. *)
Record FunctionObject := {
  injectable : bool;
  paramtypes : option (list nat);
  construct : list Ref → Completion;
  call : nat → Container.Produced
}.

(** [src/core/inject.ts]: both forms of the decorator, [@inject] and
    [@inject()], end in [mark(cls)], which defines the marker on the class
    it is given. (The classes of a program are taken not to extend one
    another; the marker of a class would be found on its subclasses.) *)
Definition mark (cls : FunctionObject) : FunctionObject :=
  {| injectable := true; paramtypes := paramtypes cls;
     construct := construct cls; call := call cls |}.

Definition inject (target : nat) (program : nat → FunctionObject)
  : nat → FunctionObject :=
  λ fn, if decide (fn = target) then mark (program fn) else program fn.

(** What the map of factories holds: a function kept as it was given, to
    be called plainly, or the closure that [classToFactory] returns, with
    the class and the parameter types it has captured. *)
Inductive Recipe :=
  | Plain (fn : nat)
  | Injected (Cls : nat) (paramTypes : list nat).

Record Entry := {
  factory : Recipe;
  isSingleton : bool
}.

(** The two maps of the container, with, for the properties, the log of
    the plain calls made so far and the heap of the objects built so far
    (the class and the arguments of each). *)
Record State := {
  factories : JsMap.t Key Entry;
  instances : JsMap.t Key Ref;
  called : list nat;
  heap : list (nat * list Ref)
}.

Definition initial : State :=
  {| factories := JsMap.empty; instances := JsMap.empty;
     called := []; heap := [] |}.

(** The arguments of [register] and [singleton], by their overloads. *)
Inductive Binding :=
  | ByConstructor (ctor : nat) (factory : option nat)
  | ByName (name : string) (factory : nat).

(** Code that reads and writes the container, may throw, and may recurse
    deeper than it is allowed. *)
Definition R (A : Type) : Type := State → option (State * (Thrown + A)).

#[global] Instance R_ret : MRet R := λ A a st, Some (st, inr a).

#[global] Instance R_bind : MBind R := λ A B f m st,
  match m st with
  | None => None
  | Some (st1, inl e) => Some (st1, inl e)
  | Some (st1, inr a) => f a st1
  end.

(** [array.map(f)]: the elements in order; a throw ends it. *)
Fixpoint mapM {A B} (f : A → R B) (l : list A) : R (list B) :=
  match l with
  | [] => mret []
  | x :: rest => y ← f x; ys ← mapM f rest; mret (y :: ys)
  end.

Section program.

(** The function objects of the program. *)
Variable program : nat → FunctionObject.

Definition classToFactory (Cls : nat) : Recipe :=
  Injected Cls (default [] (paramtypes (program Cls))).

Definition toFactory (factoryOrClass : nat) : Recipe :=
  if injectable (program factoryOrClass) then classToFactory factoryOrClass
  else Plain factoryOrClass.

(** The common body of [register] and [singleton]. *)
Definition bind (single : bool) (b : Binding) (st : State) : State :=
  let '(key, resolved) :=
    match b with
    | ByConstructor ctor (Some factory) => (Class ctor, toFactory factory)
    | ByConstructor ctor None => (Class ctor, classToFactory ctor)
    | ByName name factory => (Named name, toFactory factory)
    end in
  {| factories :=
       JsMap.set (factories st) key
         {| factory := resolved; isSingleton := single |};
     instances := instances st; called := called st; heap := heap st |}.

Definition register (b : Binding) (st : State) : State := bind false b st.

Definition singleton (b : Binding) (st : State) : State := bind true b st.

Definition has (key : Key) (st : State) : bool :=
  JsMap.has (factories st) key.

(** How often the function [fn] has been called plainly. *)
Definition calls (fn : nat) (st : State) : nat :=
  length (filter (λ i, i = fn) (called st)).

(** [fn(container)], for a function kept as it was given. *)
Definition execute (fn : nat) : R Ref := λ st,
  Some ({| factories := factories st; instances := instances st;
           called := called st ++ [fn]; heap := heap st |},
        match call (program fn) (calls fn st) with
        | Container.Made v => inr (Ext v)
        | Container.Failed reason => inl (Raised reason)
        end).

(** [new Cls(...args)]. *)
Definition new (Cls : nat) (args : list Ref) : R Ref := λ st,
  match construct (program Cls) args with
  | Returns =>
      Some ({| factories := factories st; instances := instances st;
               called := called st; heap := heap st ++ [(Cls, args)] |},
            inr (Obj (length (heap st))))
  | Throws reason => Some (st, inl (Raised reason))
  end.

(** [entry.factory(this)], given what [c.resolve] does. *)
Definition produce (resolve : Key → R Ref) (recipe : Recipe) : R Ref :=
  match recipe with
  | Plain fn => execute fn
  | Injected Cls paramTypes =>
      args ← mapM (λ dep, resolve (Class dep)) paramTypes;
      new Cls args
  end.

(** The body of [resolve], given what the calls of [resolve] inside the
    factories do. *)
Definition resolveWith (resolve : Key → R Ref) (key : Key) : R Ref := λ st,
  match JsMap.get (factories st) key with
  | None => Some (st, inl (ServiceNotRegistered key))
  | Some entry =>
      if isSingleton entry then
        if negb (JsMap.has (instances st) key) then
          match produce resolve (factory entry) st with
          | None => None
          | Some (st1, inl e) => Some (st1, inl e)
          | Some (st1, inr instance) =>
              let st2 :=
                {| factories := factories st1;
                   instances := JsMap.set (instances st1) key instance;
                   called := called st1; heap := heap st1 |} in
              Some (st2, defined (JsMap.get (instances st2) key))
          end
        else Some (st, defined (JsMap.get (instances st) key))
      else produce resolve (factory entry) st
  end.

Fixpoint resolve (depth : nat) (key : Key) : R Ref :=
  match depth with
  | O => λ _, None
  | S depth' => resolveWith (resolve depth') key
  end.

(** The body of [make], given what the calls of [resolve] and of [make]
    inside it do. *)
Definition makeWith (resolve : Key → R Ref) (make : nat → R Ref)
    (ctor : nat) : R Ref :=
  let paramTypes := default [] (paramtypes (program ctor)) in
  deps ← mapM (λ dep st,
                 if has (Class dep) st then resolve (Class dep) st
                 else make dep st) paramTypes;
  new ctor deps.

Fixpoint make (depth : nat) (ctor : nat) : R Ref :=
  match depth with
  | O => λ _, None
  | S depth' => makeWith (resolve depth') (make depth') ctor
  end.

End program.

End Injection.

(** ** Vocabulary of the properties *)

Definition names (ps : list ServiceProvider) : list string := name <$> ps.

(** [depends_on ps n d]: a provider of [ps] called [n] declares [d]. *)
Definition depends_on (ps : list ServiceProvider) (n d : string) : Prop :=
  ∃ p, p ∈ ps ∧ name p = n ∧ d ∈ dependencies p.

Definition unique_names (ps : list ServiceProvider) : Prop := NoDup (names ps).

Definition dependencies_known (ps : list ServiceProvider) : Prop :=
  ∀ n d, depends_on ps n d → d ∈ names ps.

(** No provider reaches itself along declared dependencies. *)
Definition acyclic (ps : list ServiceProvider) : Prop :=
  ∀ n, ¬ tc (depends_on ps) n n.

Definition cyclic (ps : list ServiceProvider) : Prop :=
  ∃ n, tc (depends_on ps) n n.

(** Every provider of [order] stands strictly after its dependencies. *)
Definition after_dependencies (order : list ServiceProvider) : Prop :=
  ∀ front p back, order = front ++ p :: back →
    ∀ d, d ∈ dependencies p → d ∈ names front.

Definition boots (p : ServiceProvider) : Prop := boot p = Returns.
Definition registers (p : ServiceProvider) : Prop := register p = Returns.

#[global] Instance boots_dec p : Decision (boots p).
Proof. unfold boots. apply _. Defined.

#[global] Instance registers_dec p : Decision (registers p).
Proof. unfold registers. apply _. Defined.

Definition register_calls (tr : list Event) : list ServiceProvider :=
  omap (λ ev, match ev with RegisterCalled p => Some p | _ => None end) tr.

Definition boot_calls (tr : list Event) : list ServiceProvider :=
  omap (λ ev, match ev with BootCalled p => Some p | _ => None end) tr.

Definition boot_completions (tr : list Event) : list ServiceProvider :=
  omap (λ ev, match ev with BootCompleted p => Some p | _ => None end) tr.

Definition shutdown_calls (tr : list Event) : list ServiceProvider :=
  omap (λ ev, match ev with ShutdownCalled p => Some p | _ => None end) tr.

Definition console_errors (tr : list Event) : list (string * Thrown) :=
  omap (λ ev, match ev with ConsoleError n e => Some (n, e) | _ => None end) tr.

(** The boot events of a trace, calls and completions, in order. *)
Definition boot_events (tr : list Event) : list Event :=
  omap (λ ev, match ev with
              | BootCalled _ | BootCompleted _ => Some ev
              | _ => None
              end) tr.

(** The reports a list of providers causes when each is shut down. *)
Definition shutdown_errors (l : list ServiceProvider) : list (string * Thrown) :=
  omap (λ p, match shutdown p with
             | Returns => None
             | Throws reason => Some (name p, Raised reason)
             end) l.

(** What the loop of [shutdownProviders] does for one provider and for a
    list of them: the call, and the report when it throws. *)
Definition shutdown_trace (l : list ServiceProvider) : list Event :=
  p ← l;
  ShutdownCalled p ::
    match shutdown p with
    | Returns => []
    | Throws reason => [ConsoleError (name p) (Raised reason)]
    end.

(** What the boot loop does for providers whose [boot] returns. *)
Definition boot_trace (l : list ServiceProvider) : list Event :=
  p ← l; [BootCalled p; BootCompleted p].

(** While the application is not booted its list of booted providers is
    empty: this holds when the application is created and after every
    call. (The list fills up during the boot loop of [start], which ends
    either by emptying it again or by marking the application booted.) *)
Definition booted_list_consistent (s : Application) : Prop :=
  _booted s = false → _bootedProviders s = [].

(** The live subscribers of an event, in the order of their [Set]. *)
Definition subscribers (st : Emitter.State) (event : string) : list Listener :=
  default [] (JsMap.get (Emitter._listeners st) event).

Definition settles (fn : Listener) : Prop := conduct fn = Settles.

(** [fn] fails with [reason], before or after it returns. *)
Definition fails (fn : Listener) (reason : string) : Prop :=
  conduct fn = ThrowsNow reason ∨ conduct fn = RejectsLater reason.

(** The states after [n] further emits of an event. *)
Definition emits (n : nat) (event : string) (st : Emitter.State)
  : Emitter.State :=
  Nat.iter n (λ st', (Emitter.emit event st').1.1) st.

(** The state in which the shutdown event has been published. *)
Definition stopping (s : Application) : Application :=
  App.set_bus (Emitter.emit "app:shutdown" (bus s)).1.1
    (App.set_shuttingDown true s).

Definition stopping_calls (s : Application) : list Event :=
  ListenerCalled "app:shutdown" <$> (Emitter.emit "app:shutdown" (bus s)).1.2.

(** The state in which the providers are down and the flags are reset. *)
Definition stopped (s : Application) : Application :=
  App.set_shuttingDown false
    (App.set_booted false
       (App.set_signalHandlers 0%nat
          (App.set_bootedProviders [] (stopping s)))).

(** ** Vocabulary of the proofs *)

(** The dependency edges in the order the third loop of the sort visits
    them: (provider, dependency). *)
Definition edges (ps : list ServiceProvider) : list (string * string) :=
  p ← ps; (λ d, (name p, d)) <$> dependencies p.

(** The third loop is one loop over [edges]. *)
Fixpoint linkEdges (byName : Sort.ByName) (es : list (string * string))
    (tables : Sort.InDegree * Sort.Dependents)
  : Thrown + (Sort.InDegree * Sort.Dependents) :=
  match es with
  | [] => inr tables
  | (pname, dep) :: rest =>
      let '(inDegree, dependents) := tables in
      if JsMap.has byName dep then
        let inDegree' :=
          JsMap.set inDegree pname (default 0 (JsMap.get inDegree pname) + 1) in
        arr ← defined (JsMap.get dependents dep);
        linkEdges byName rest
          (inDegree', JsMap.set dependents dep (arr ++ [pname]))
      else inl (UnknownDependency pname dep)
  end.

(** Number of dependencies [n] declares, and the providers that declare
    [d], both read off a list of edges. *)
Definition indegree (es : list (string * string)) (n : string) : nat :=
  length (filter (λ e, e.1 = n) es).

Definition dependents_of (es : list (string * string)) (d : string)
  : list string :=
  (filter (λ e, e.2 = d) es).*1.

(** The tables describe the edges [es] over the provider names [ns]. *)
Definition tables_of (ns : list string) (es : list (string * string))
    (tables : Sort.InDegree * Sort.Dependents) : Prop :=
  JsMap.order tables.1 = ns ∧
  (∀ n, n ∈ ns → JsMap.get tables.1 n = Some (Z.of_nat (indegree es n))) ∧
  (∀ n, n ∈ ns → JsMap.get tables.2 n = Some (dependents_of es n)).

(** Occurrences of [n] in a list of names. *)
Definition occ (n : string) (l : list string) : nat :=
  length (filter (λ x, x = n) l).

(** Dependencies of [n], counted with repetition, that are not in [done]. *)
Definition pending (es : list (string * string)) (done : list string)
    (n : string) : nat :=
  length (filter (λ e, e.1 = n ∧ e.2 ∉ done) es).

(** What holds each time the loop tests its condition: [sorted] and the
    queue share no name; an in-degree counts the dependencies not sorted
    yet; the names of in-degree 0 are the sorted and the queued ones; and
    each sorted provider stands after its dependencies. *)
Record loop_invariant (ps sorted : list ServiceProvider)
    (queue : list string) (inDegree : Sort.InDegree) : Prop := {
  inv_nodup : NoDup (names sorted ++ queue);
  inv_names : ∀ n, n ∈ names sorted ++ queue → n ∈ names ps;
  inv_degree : ∀ n, n ∈ names ps →
    JsMap.get inDegree n = Some (Z.of_nat (pending (edges ps) (names sorted) n));
  inv_ready : ∀ n, n ∈ names ps →
    pending (edges ps) (names sorted) n = 0%nat ↔ n ∈ names sorted ++ queue;
  inv_topo : ∀ front n back, names sorted = front ++ n :: back →
    ∀ d, (n, d) ∈ edges ps → d ∈ front;
  inv_members : ∀ p, p ∈ sorted → p ∈ ps
}.

(** The part of [start] that follows the boot loop. *)
Definition afterBoot : App.M () :=
  App.modify (App.set_booted true);;
  callbacks ← App.gets _bootedCallbacks;
  App.runCallbacks callbacks;;
  App.installSignalHandlers;;
  App.emit "app:booted".

(** The part of [start] that follows the sort. *)
Definition phases (sorted : list ServiceProvider) : App.M () :=
  App.registerEach sorted;; App.bootEach sorted;; afterBoot.

(** Events that are no call into a provider. *)
Definition quiet (ev : Event) : Prop :=
  match ev with
  | RegisterCalled _ | BootCalled _ | BootCompleted _ | ShutdownCalled _
  | ConsoleError _ _ => False
  | _ => True
  end.

(** The state and the calls of the emit that opens [start]. *)
Definition started (s : Application) : Application :=
  App.set_bus (Emitter.emit "app:starting" (bus s)).1.1 s.

Definition starting_calls (s : Application) : list Event :=
  ListenerCalled "app:starting" <$> (Emitter.emit "app:starting" (bus s)).1.2.

Definition removal_trace (handlers : nat) : list Event :=
  concat (replicate handlers [ProcessOff "SIGINT"; ProcessOff "SIGTERM"]).

(** How [emit] settles, read off the listeners it called. *)
Definition first_rejection (called : list Listener) : Thrown + () :=
  match find (λ r, Emitter.rejected r) (Emitter.settle <$> called) with
  | Some (Rejected reason) => inl (Raised reason)
  | _ => inr ()
  end.

(** The live subscribers that an emit leaves: those without the marker. *)
Definition survivors (st : Emitter.State) (event : string) : list Listener :=
  filter (λ fn, fn ∉ Emitter._once st) (subscribers st event).

(** ** Inputs of the examples *)

(** The example of the specification: Config, Database (which depends on
    Config) and Auth (which depends on Database), added in the order
    Auth, Database, Config. *)
Definition provider (n : string) (deps : list string) : ServiceProvider :=
  {| name := n; dependencies := deps;
     register := Returns; boot := Returns; shutdown := Returns |}.

Definition three_tier : list ServiceProvider :=
  [provider "auth" ["database"]; provider "database" ["config"];
   provider "config" []].

Definition with_providers (ps : list ServiceProvider) : Application :=
  App.set_providers ps App.created.

(** The example of the specification: the boot of Database throws. *)
Definition failing_database : ServiceProvider :=
  {| name := "database"; dependencies := ["config"];
     register := Returns; boot := Throws "connection refused";
     shutdown := Returns |}.

Definition broken_tier : list ServiceProvider :=
  [provider "auth" ["database"]; failing_database; provider "config" []].

Definition database_begins : list Event :=
  [RegisterCalled (provider "config" []);
   RegisterCalled (provider "database" ["config"]);
   RegisterCalled (provider "auth" ["database"]);
   BootCalled (provider "config" []);
   BootCompleted (provider "config" [])].

Definition database_goes_on : list Event :=
  [BootCompleted (provider "database" ["config"]);
   BootCalled (provider "auth" ["database"]);
   BootCompleted (provider "auth" ["database"]);
   ProcessOn "SIGINT"; ProcessOn "SIGTERM"].

(** Two providers that depend on each other. *)
Definition chicken : ServiceProvider := provider "chicken" ["egg"].
Definition egg : ServiceProvider := provider "egg" ["chicken"].

(** Three providers that boot; the shutdown of Database throws. *)
Definition leaky_database : ServiceProvider :=
  {| name := "database"; dependencies := ["config"];
     register := Returns; boot := Returns;
     shutdown := Throws "pool still busy" |}.

Definition leaky_tier : list ServiceProvider :=
  [provider "auth" ["database"]; leaky_database; provider "config" []].

(** A booted application and a subscriber of the shutdown event that
    throws. *)
Definition veto : Listener := {| lid := 1; conduct := ThrowsNow "veto" |}.

Definition vetoed : Application :=
  App.set_bus (Emitter.on "app:shutdown" veto Emitter.initial)
    (App.start (with_providers three_tier)).1.1.

(** The example of the specification: L1 throws "e1", L2 succeeds. *)
Definition L1 : Listener := {| lid := 1; conduct := ThrowsNow "e1" |}.
Definition L2 : Listener := {| lid := 2; conduct := Settles |}.

Definition two_listeners : Emitter.State :=
  Emitter.on "saved" L2 (Emitter.on "saved" L1 Emitter.initial).

(** A function registered once for two events. *)
Definition greeter : Listener := {| lid := 7; conduct := Settles |}.

Definition twice_once : Emitter.State :=
  Emitter.once "closed" greeter (Emitter.once "opened" greeter Emitter.initial).



(** ** Vocabulary of the further properties *)

(** A provider that declares no dependency. *)
Definition independent (p : ServiceProvider) : Prop := dependencies p = [].

#[global] Instance independent_dec p : Decision (independent p).
Proof. unfold independent. apply _. Defined.

(** The callbacks a trace calls. *)
Definition callback_calls (tr : list Event) : list Callback :=
  omap (λ ev, match ev with CallbackCalled cb => Some cb | _ => None end) tr.

(** The signals for which a handler is installed, and removed. *)
Definition handlers_installed (tr : list Event) : list string :=
  omap (λ ev, match ev with ProcessOn signal => Some signal | _ => None end) tr.

Definition handlers_removed (tr : list Event) : list string :=
  omap (λ ev, match ev with ProcessOff signal => Some signal | _ => None end) tr.

(** The listeners a trace calls, each with the event it is called for. *)
Definition listener_calls (tr : list Event) : list (string * Listener) :=
  omap (λ ev, match ev with
              | ListenerCalled event fn => Some (event, fn)
              | _ => None
              end) tr.

(** An awaited callback that settles, and one that fails with [reason],
    before or after it returns. *)
Definition completes (cb : Callback) : Prop := answer cb = Settles.

Definition gives_up (cb : Callback) (reason : string) : Prop :=
  answer cb = ThrowsNow reason ∨ answer cb = RejectsLater reason.

(** The application holds at most one signal handler, and none while it
    is not booted. *)
Definition handlers_consistent (s : Application) : Prop :=
  (_signalHandlers s ≤ 1)%nat ∧ (_booted s = false → _signalHandlers s = 0%nat).

(** The fields that only [use] and [onBooted] write. *)
Definition same_setup (s s' : Application) : Prop :=
  _providers s' = _providers s ∧ _bootedCallbacks s' = _bootedCallbacks s.

(** The state in which the providers [sorted] have booted. *)
Definition all_booted (sorted : list ServiceProvider) (s : Application)
  : Application :=
  App.set_booted true
    (App.set_bootedProviders (_bootedProviders s ++ sorted) (started s)).

(** What a program may call on the bus, and a sequence of such calls. *)
Inductive BusCall :=
  | CallOn (event : string) (fn : Listener)
  | CallOnce (event : string) (fn : Listener)
  | CallOff (event : string) (fn : Listener)
  | CallRemoveAllListeners (event : option string)
  | CallEmit (event : string)
  | CallReset.

Definition bus_perform (c : BusCall) (st : Emitter.State) : Emitter.State :=
  match c with
  | CallOn event fn => Emitter.on event fn st
  | CallOnce event fn => Emitter.once event fn st
  | CallOff event fn => Emitter.off event fn st
  | CallRemoveAllListeners event => Emitter.removeAllListeners event st
  | CallEmit event => (Emitter.emit event st).1.1
  | CallReset => Emitter.reset st
  end.

Definition bus_perform_all (calls : list BusCall) (st : Emitter.State)
  : Emitter.State :=
  foldl (λ st c, bus_perform c st) st calls.

(** The call [c] subscribes the listener [fn] to [event]. *)
Definition subscribes (event : string) (fn : Listener) (c : BusCall) : Prop :=
  match c with
  | CallOn e f | CallOnce e f => e = event ∧ f = fn
  | _ => False
  end.

(** Every [Set] in the map has an element, and holds it once. *)
Definition tidy (st : Emitter.State) : Prop :=
  ∀ event set,
    JsMap.get (Emitter._listeners st) event = Some set → set ≠ [] ∧ NoDup set.

(** [key] is bound as a singleton and its instance [v] is in the cache. *)
Definition cached (st : Injection.State) (key : Key) (v : Injection.Ref)
  : Prop :=
  (∃ entry, JsMap.get (Injection.factories st) key = Some entry ∧
            Injection.isSingleton entry = true) ∧
  JsMap.get (Injection.instances st) key = Some v.

(** [st'] is [st] after some resolving and making: the same bindings,
    the cache, the heap and the log of calls extended. *)
Record extended (st st' : Injection.State) : Prop := {
  ext_factories : Injection.factories st' = Injection.factories st;
  ext_instances : ∀ key v,
    JsMap.get (Injection.instances st) key = Some v →
    JsMap.get (Injection.instances st') key = Some v;
  ext_called : Injection.called st `prefix_of` Injection.called st';
  ext_heap : Injection.heap st `prefix_of` Injection.heap st'
}.

(** Wherever [m] gets to an end, it does so in a state that extends the
    one it was run in, and not by a lookup that the source rules out. *)
Definition orderly {A} (m : Injection.R A) : Prop :=
  ∀ st st' r, m st = Some (st', r) → extended st st' ∧ r ≠ inl Unreachable.

(** [g] does what [f] does, wherever [f] gets to an end. *)
Definition within {A} (f g : Injection.R A) : Prop :=
  ∀ st r, f st = Some r → g st = Some r.

(** [st] with one more object on its heap. *)
Definition built (Cls : nat) (args : list Injection.Ref)
    (st : Injection.State) : Injection.State :=
  {| Injection.factories := Injection.factories st;
     Injection.instances := Injection.instances st;
     Injection.called := Injection.called st;
     Injection.heap := Injection.heap st ++ [(Cls, args)] |}.

(** [st] with one more instance in its cache. *)
Definition kept (key : Key) (v : Injection.Ref) (st : Injection.State)
  : Injection.State :=
  {| Injection.factories := Injection.factories st;
     Injection.instances := JsMap.set (Injection.instances st) key v;
     Injection.called := Injection.called st;
     Injection.heap := Injection.heap st |}.

(** The state in which [m] ends when it is run in [st]. *)
Definition after {A} (m : Injection.R A) (st : Injection.State)
  : Injection.State :=
  match m st with Some (st', _) => st' | None => st end.

(** Only factory functions are bound: no binding was made from a class. *)
Definition plain_bindings (st : Injection.State) : Prop :=
  ∀ key entry,
    JsMap.get (Injection.factories st) key = Some entry →
    ∃ fn, Injection.factory entry = Injection.Plain fn.

(** The arguments that [make] collects for the parameter types
    [paramTypes]: what [resolve] returns for one that is bound, and what
    [make] returns for one that is not. *)
Definition collect (program : nat → Injection.FunctionObject) (depth : nat)
    (paramTypes : list nat) : Injection.R (list Injection.Ref) :=
  Injection.mapM
    (λ dep st,
       if Injection.has (Class dep) st
       then Injection.resolve program depth (Class dep) st
       else Injection.make program depth dep st) paramTypes.

(** Wherever [m] gets to an end, the cache holds under every key that has
    no binding what it held before. *)
Definition sparing {A} (m : Injection.R A) : Prop :=
  ∀ st st' r, m st = Some (st', r) →
    ∀ key, Injection.has key st = false →
      JsMap.get (Injection.instances st') key =
      JsMap.get (Injection.instances st) key.

(** ** Inputs of the further examples *)

(** The providers shipped with the kernel ([src/providers]): name and
    dependencies of each. *)
Definition ConfigProvider : ServiceProvider := provider "config" [].
Definition EncryptionProvider : ServiceProvider :=
  provider "encryption" ["config"].
Definition StorageProvider : ServiceProvider := provider "storage" ["config"].
Definition CacheProvider : ServiceProvider := provider "cache" ["config"].
Definition I18nProvider : ServiceProvider := provider "i18n" ["config"].
Definition LoggerProvider : ServiceProvider := provider "logger" ["config"].

(** An application with two callbacks, the first of which fails. *)
Definition upset : Callback :=
  {| cbid := 1; answer := RejectsLater "no route" |}.
Definition calm : Callback := {| cbid := 2; answer := Settles |}.

Definition with_callbacks (cbs : list Callback) (s : Application)
  : Application :=
  App.set_bootedCallbacks cbs s.

(** A provider whose [register] throws. *)
Definition unbindable : ServiceProvider :=
  {| name := "database"; dependencies := ["config"];
     register := Throws "no driver"; boot := Returns; shutdown := Returns |}.

(** The classes of the example of [inject.ts]: [Database] and [Logger],
    without constructor parameters, and [UserService], whose constructor
    takes one of each; all three are decorated. A plain call of a class
    throws a [TypeError]. *)
Definition Database : nat := 0.
Definition Logger : nat := 1.
Definition UserService : nat := 2.

Definition a_class (marked : bool) (params : option (list nat))
  : Injection.FunctionObject :=
  {| Injection.injectable := marked;
     Injection.paramtypes := params;
     Injection.construct := λ _, Returns;
     Injection.call := λ _,
       Container.Failed "Class constructor cannot be invoked without 'new'" |}.

Definition services : nat → Injection.FunctionObject :=
  λ fn, if decide (fn = UserService)
        then a_class true (Some [Database; Logger])
        else a_class true None.

(** The container of that example, after [Database] and [Logger] have been
    bound as singletons and resolved once. *)
Definition two_singletons : Injection.State :=
  after (Injection.resolve services 1 (Class Logger))
    (after (Injection.resolve services 1 (Class Database))
       (Injection.singleton services (Injection.ByConstructor Logger None)
          (Injection.singleton services
             (Injection.ByConstructor Database None) Injection.initial))).

(** A program in which the class 0 takes an instance of itself. *)
Definition narcissus : nat → Injection.FunctionObject :=
  λ fn, if decide (fn = 0%nat) then a_class true (Some [0%nat])
        else a_class true None.

(** A program in which [UserService] takes a [Logger], a [Database] and
    a [Logger] again, and [Database] takes a [Driver]. *)
Definition Driver : nat := 3.

Definition layered : nat → Injection.FunctionObject :=
  λ fn, if decide (fn = UserService)
        then a_class true (Some [Logger; Database; Logger])
        else if decide (fn = Database) then a_class true (Some [Driver])
        else a_class true None.

(** A container for it in which [UserService] and [Logger] are bound, both
    as transient, and [Database] and [Driver] are not. *)
Definition without_database : Injection.State :=
  Injection.register layered (Injection.ByConstructor UserService None)
    (Injection.register layered (Injection.ByConstructor Logger None)
       Injection.initial).

(** * Properties *)

(** ** [JsMap] *)

Section JsMap_facts.
Context {K : Type} `{Countable K} {V : Type}.
Implicit Types (m : JsMap.t K V) (k : K) (v : V).

Lemma JsMap_get_empty k : JsMap.get (JsMap.empty : JsMap.t K V) k = None.
Proof. apply lookup_empty. Qed.

Lemma JsMap_has_true m k : JsMap.has m k = true ↔ is_Some (JsMap.get m k).
Proof.
  unfold JsMap.has, JsMap.get. destruct (JsMap.store m !! k); split;
    intros Hk; try done; by destruct Hk.
Qed.

Lemma JsMap_has_false m k : JsMap.has m k = false ↔ JsMap.get m k = None.
Proof.
  unfold JsMap.has, JsMap.get. by destruct (JsMap.store m !! k).
Qed.

Lemma JsMap_get_set m k v k' :
  JsMap.get (JsMap.set m k v) k' = if decide (k = k') then Some v else JsMap.get m k'.
Proof. unfold JsMap.get, JsMap.set; simpl. apply lookup_insert. Qed.

Lemma JsMap_get_set_eq m k v : JsMap.get (JsMap.set m k v) k = Some v.
Proof. rewrite JsMap_get_set. by case_decide. Qed.

Lemma JsMap_get_set_ne m k v k' :
  k ≠ k' → JsMap.get (JsMap.set m k v) k' = JsMap.get m k'.
Proof. intros. rewrite JsMap_get_set. by case_decide. Qed.

Lemma JsMap_order_set_old m k v :
  is_Some (JsMap.get m k) → JsMap.order (JsMap.set m k v) = JsMap.order m.
Proof. intros Hk%JsMap_has_true. unfold JsMap.set; simpl. by rewrite Hk. Qed.

Lemma JsMap_order_set_new m k v :
  JsMap.get m k = None → JsMap.order (JsMap.set m k v) = JsMap.order m ++ [k].
Proof. intros Hk%JsMap_has_false. unfold JsMap.set; simpl. by rewrite Hk. Qed.

Lemma JsMap_get_remove m k k' :
  JsMap.get (JsMap.remove m k) k' = if decide (k = k') then None else JsMap.get m k'.
Proof. unfold JsMap.get, JsMap.remove; simpl. apply lookup_delete. Qed.

End JsMap_facts.

(** ** The tables of the sort *)

Lemma initialQueue_order (inDegree : Sort.InDegree) :
  Sort.initialQueue inDegree =
  filter (λ n, JsMap.get inDegree n = Some 0) (JsMap.order inDegree).
Proof.
  unfold Sort.initialQueue, JsMap.entries, JsMap.get.
  induction (JsMap.order inDegree) as [|k ks IH]; [done|].
  simpl. destruct (JsMap.store inDegree !! k) as [v|] eqn:Hk; simpl.
  - rewrite !filter_cons. simpl. destruct (decide (v = 0)) as [->|Hv].
    + rewrite decide_True by done. simpl. by f_equal.
    + rewrite decide_False by congruence. done.
  - rewrite filter_cons_False; [exact IH|]. by rewrite Hk.
Qed.

Lemma indexByName_cases ps (m : Sort.ByName) :
  (∃ b, Sort.indexByName ps m = inr b) ∨
  (∃ n, Sort.indexByName ps m = inl (DuplicateProviderName n) ∧ n ∈ names ps).
Proof.
  revert m. induction ps as [|p ps IH]; intros m; simpl; [by eauto|].
  destruct (JsMap.has m (name p)).
  - right. exists (name p). split; [done|]. apply list_elem_of_here.
  - destruct (IH (JsMap.set m (name p) p)) as [?|(n & ? & ?)]; [by left|].
    right. exists n. split; [done|]. by apply list_elem_of_further.
Qed.

Lemma indexByName_inr ps (m b : Sort.ByName) :
  Sort.indexByName ps m = inr b →
  NoDup (names ps) ∧
  (∀ n, n ∈ names ps → JsMap.get m n = None) ∧
  (∀ n p, JsMap.get b n = Some p ↔
          (p ∈ ps ∧ name p = n) ∨ JsMap.get m n = Some p).
Proof.
  revert m. induction ps as [|p ps IH]; intros m; simpl.
  - intros [= ->]. split; [constructor|]. split.
    + intros n Hn. by apply elem_of_nil in Hn.
    + intros n p. split; [by right|]. intros [[Hp _]|?]; [|done].
      by apply elem_of_nil in Hp.
  - destruct (JsMap.has m (name p)) eqn:Hhas; [done|].
    apply JsMap_has_false in Hhas. intros (Hnd & Hfresh & Hget)%IH.
    assert (name p ∉ names ps) as Hp.
    { intros Hin. specialize (Hfresh _ Hin).
      by rewrite JsMap_get_set_eq in Hfresh. }
    split; [by constructor|]. split.
    + intros n [->|Hn]%elem_of_cons; [done|].
      specialize (Hfresh _ Hn). rewrite JsMap_get_set in Hfresh.
      by case_decide.
    + intros n q. rewrite Hget, JsMap_get_set, elem_of_cons.
      case_decide as Hn; [subst n|]; split.
      * intros [[Hq Hqn]|[= ->]]; [|by left; split; [left|]].
        destruct Hp. rewrite <- Hqn. by apply list_elem_of_fmap_2.
      * intros [[[->|Hq] Hqn]|Hm]; [by right| |congruence].
        destruct Hp. rewrite <- Hqn. by apply list_elem_of_fmap_2.
      * intros [[Hq Hqn]|Hm]; [left|by right]. split; [by right|done].
      * intros [[[->|Hq] Hqn]|Hm]; [done|by left|by right].
Qed.

Lemma indexByName_ok ps (m : Sort.ByName) :
  NoDup (names ps) →
  (∀ n, n ∈ names ps → JsMap.get m n = None) →
  ∃ b, Sort.indexByName ps m = inr b.
Proof.
  revert m. induction ps as [|p ps IH]; intros m Hnd Hm; simpl; [by eauto|].
  apply NoDup_cons in Hnd as [Hp Hnd].
  rewrite (proj2 (JsMap_has_false m (name p))) by (apply Hm; left).
  apply IH; [done|]. intros n Hn. rewrite JsMap_get_set.
  case_decide; [by subst|]. apply Hm. by right.
Qed.

(** The first loop succeeds exactly on pairwise distinct names, and then
    [byName] sends each name to its provider. *)
Lemma indexByName_empty ps :
  match Sort.indexByName ps JsMap.empty with
  | inr b => NoDup (names ps) ∧
             ∀ n p, JsMap.get b n = Some p ↔ (p ∈ ps ∧ name p = n)
  | inl e => ¬ NoDup (names ps) ∧ ∃ n, e = DuplicateProviderName n ∧ n ∈ names ps
  end.
Proof.
  destruct (Sort.indexByName ps JsMap.empty) as [e|b] eqn:Hb.
  - destruct (indexByName_cases ps JsMap.empty) as [[b Hb']|(n & Hn & Hin)];
      [congruence|].
    split; [|exists n; split; [congruence|done]].
    intros Hnd.
    destruct (indexByName_ok ps JsMap.empty Hnd) as [b Hb']; [|congruence].
    intros. apply JsMap_get_empty.
  - apply indexByName_inr in Hb as (Hnd & _ & Hget). split; [done|].
    intros n p. rewrite Hget, JsMap_get_empty. split; [by intros [?|?]|by left].
Qed.

Lemma initTables_from ps (i0 : Sort.InDegree) (d0 : Sort.Dependents) :
  let step := λ '(inDegree, dependents) p,
    (JsMap.set inDegree (name p) 0, JsMap.set dependents (name p) []) in
  ∃ i d, foldl step (i0, d0) ps = (i, d) ∧
    (∀ n, JsMap.get i n =
          if decide (n ∈ names ps) then Some 0 else JsMap.get i0 n) ∧
    (∀ n, JsMap.get d n =
          if decide (n ∈ names ps) then Some [] else JsMap.get d0 n) ∧
    (NoDup (names ps) → (∀ n, n ∈ names ps → JsMap.get i0 n = None) →
     JsMap.order i = JsMap.order i0 ++ names ps).
Proof.
  intros step. revert i0 d0. induction ps as [|p ps IH]; intros i0 d0.
  - exists i0, d0. split; [done|]. split; [|split].
    + intros n. rewrite decide_False; [done|]. apply not_elem_of_nil.
    + intros n. rewrite decide_False; [done|]. apply not_elem_of_nil.
    + intros _ _. by rewrite app_nil_r.
  - change (foldl step (i0, d0) (p :: ps))
      with (foldl step (JsMap.set i0 (name p) 0, JsMap.set d0 (name p) []) ps).
    change (names (p :: ps)) with (name p :: names ps).
    destruct (IH (JsMap.set i0 (name p) 0) (JsMap.set d0 (name p) []))
      as (i & d & Hfold & Hi & Hd & Hord).
    exists i, d. split; [done|]. split; [|split].
    + intros n. rewrite Hi, JsMap_get_set.
      destruct (decide (n ∈ names ps)) as [Hn|Hn].
      * rewrite decide_True; [done|]. by right.
      * case_decide as Hp; [subst n|].
        -- rewrite decide_True; [done|]. by left.
        -- rewrite decide_False; [done|].
           intros [Heq|?]%elem_of_cons; [by subst|done].
    + intros n. rewrite Hd, JsMap_get_set.
      destruct (decide (n ∈ names ps)) as [Hn|Hn].
      * rewrite decide_True; [done|]. by right.
      * case_decide as Hp; [subst n|].
        -- rewrite decide_True; [done|]. by left.
        -- rewrite decide_False; [done|].
           intros [Heq|?]%elem_of_cons; [by subst|done].
    + intros [Hp Hnd]%NoDup_cons Hfresh. rewrite Hord; [|done|].
      * rewrite JsMap_order_set_new by (apply Hfresh; left).
        by rewrite <- app_assoc.
      * intros n Hn. rewrite JsMap_get_set_ne by (intros Heq; by subst n).
        apply Hfresh. by right.
Qed.

(** After the second loop every provider, and nothing else, has in-degree 0
    and an empty array of dependents; [inDegree] iterates in their order. *)
Lemma initTables_spec ps :
  NoDup (names ps) →
  JsMap.order (Sort.initTables ps).1 = names ps ∧
  (∀ n, JsMap.get (Sort.initTables ps).1 n =
        if decide (n ∈ names ps) then Some 0 else None) ∧
  (∀ n, JsMap.get (Sort.initTables ps).2 n =
        if decide (n ∈ names ps) then Some [] else None).
Proof.
  intros Hnd. unfold Sort.initTables.
  destruct (initTables_from ps JsMap.empty JsMap.empty)
    as (i & d & -> & Hi & Hd & Hord); simpl.
  split; [|split].
  - rewrite Hord; [done..|]. intros. apply JsMap_get_empty.
  - intros n. rewrite Hi. by rewrite JsMap_get_empty.
  - intros n. rewrite Hd. by rewrite JsMap_get_empty.
Qed.

Lemma linkEdges_app byName es1 es2 tables :
  linkEdges byName (es1 ++ es2) tables =
  tables' ← linkEdges byName es1 tables; linkEdges byName es2 tables'.
Proof.
  revert tables. induction es1 as [|[pname dep] es1 IH];
    intros [i d]; simpl; [done|].
  destruct (JsMap.has byName dep); [|done].
  destruct (JsMap.get d dep); simpl; [|done]. apply IH.
Qed.

Lemma linkDependencies_edges byName pname deps tables :
  Sort.linkDependencies byName pname deps tables =
  linkEdges byName ((λ d, (pname, d)) <$> deps) tables.
Proof.
  revert tables. induction deps as [|dep deps IH]; intros [i d]; simpl; [done|].
  destruct (JsMap.has byName dep); [|done].
  destruct (JsMap.get d dep); simpl; [|done]. apply IH.
Qed.

Lemma linkProviders_edges byName ps tables :
  Sort.linkProviders byName ps tables = linkEdges byName (edges ps) tables.
Proof.
  revert tables. induction ps as [|p ps IH]; intros tables; [done|].
  change (edges (p :: ps))
    with (((λ d, (name p, d)) <$> dependencies p) ++ edges ps).
  rewrite linkEdges_app. simpl.
  rewrite linkDependencies_edges.
  destruct (linkEdges byName _ tables) as [e|t]; simpl; [done|]. apply IH.
Qed.

Lemma indegree_snoc es e n :
  indegree (es ++ [e]) n = (indegree es n + if decide (e.1 = n) then 1 else 0)%nat.
Proof.
  unfold indegree. rewrite filter_app, length_app. f_equal.
  rewrite filter_cons, filter_nil. by case_decide.
Qed.

Lemma dependents_of_snoc es e d :
  dependents_of (es ++ [e]) d =
  dependents_of es d ++ if decide (e.2 = d) then [e.1] else [].
Proof.
  unfold dependents_of. rewrite filter_app, fmap_app. f_equal.
  rewrite filter_cons, filter_nil. by case_decide.
Qed.

Lemma linkEdges_spec byName ns rest :
  (∀ n, JsMap.has byName n = true ↔ n ∈ ns) →
  (∀ e, e ∈ rest → e.1 ∈ ns) →
  ∀ es tables, tables_of ns es tables →
  match linkEdges byName rest tables with
  | inr tables' => tables_of ns (es ++ rest) tables' ∧ ∀ e, e ∈ rest → e.2 ∈ ns
  | inl err => ∃ e, e ∈ rest ∧ (e.2 ∉ ns) ∧ err = UnknownDependency e.1 e.2
  end.
Proof.
  intros Hhas. induction rest as [|[pname dep] rest IH];
    intros Hsrc es [i d] Hok; simpl.
  - rewrite app_nil_r. split; [done|]. intros e He. by apply elem_of_nil in He.
  - destruct (JsMap.has byName dep) eqn:Hdep.
    + apply Hhas in Hdep. destruct Hok as (Hord & Hi & Hd); simpl in *.
      assert (pname ∈ ns) as Hp by (apply (Hsrc (pname, dep)); left).
      rewrite (Hd dep Hdep), (Hi pname Hp). simpl.
      match goal with |- context [linkEdges byName rest ?t] =>
        specialize (IH (λ e He, Hsrc e (list_elem_of_further _ _ _ He))
                       (es ++ [(pname, dep)]) t) end.
      rewrite <- app_assoc in IH. simpl in IH.
      match type of IH with ?P → _ => assert P as Hok' end.
      { split; [|split]; cbn [fst snd].
        - rewrite JsMap_order_set_old; [done|]. rewrite (Hi pname Hp). eauto.
        - intros n Hn. rewrite JsMap_get_set, indegree_snoc. simpl.
          case_decide; [subst n; f_equal; lia|].
          rewrite Hi by done. f_equal. lia.
        - intros n Hn. rewrite JsMap_get_set, dependents_of_snoc. simpl.
          case_decide; [by subst n|]. rewrite Hd by done. by rewrite app_nil_r. }
      specialize (IH Hok'). destruct (linkEdges byName rest _) as [err|t].
      * destruct IH as (e & He & Hne & ->). exists e. split; [by right|done].
      * destruct IH as [Ht Hknown]. split; [done|].
        intros e [->|He]%elem_of_cons; [done|by apply Hknown].
    + exists (pname, dep). split; [left|]. split; [|done]. simpl.
      intros Hin%Hhas. congruence.
Qed.

Lemma edges_cons p ps :
  edges (p :: ps) = ((λ d, (name p, d)) <$> dependencies p) ++ edges ps.
Proof. done. Qed.

Lemma elem_of_edges ps n d : (n, d) ∈ edges ps ↔ depends_on ps n d.
Proof.
  unfold depends_on. induction ps as [|p ps IH].
  - split; [by intros ?%elem_of_nil|]. by intros (p & ?%elem_of_nil & _).
  - rewrite edges_cons, elem_of_app, IH, list_elem_of_fmap. split.
    + intros [(d' & [= -> ->] & Hd)|(q & Hq & Hn & Hd)].
      * exists p. split; [left|done].
      * exists q. split; [by right|done].
    + intros (q & [->|Hq]%elem_of_cons & <- & Hd).
      * left. by exists d.
      * right. by exists q.
Qed.

Lemma edges_source ps e : e ∈ edges ps → e.1 ∈ names ps.
Proof.
  destruct e as [n d]. intros (p & Hp & <- & _)%elem_of_edges.
  simpl. unfold names. by apply list_elem_of_fmap_2.
Qed.

Lemma occ_cons n x l :
  occ n (x :: l) = ((if decide (x = n) then 1 else 0) + occ n l)%nat.
Proof. unfold occ. rewrite filter_cons. by case_decide. Qed.

Lemma occ_zero n l : occ n l = 0%nat ↔ n ∉ l.
Proof.
  induction l as [|x l IH]; [by split; [intros _ ?%elem_of_nil|]|].
  rewrite occ_cons, not_elem_of_cons. case_decide; [subst|]; split.
  - done.
  - by intros [? _].
  - intros Hl. split; [done|]. by apply IH.
  - intros [_ Hl]. by apply IH.
Qed.

Lemma occ_pos n l : (0 < occ n l)%nat ↔ n ∈ l.
Proof.
  destruct (decide (n ∈ l)) as [Hn|Hn].
  - split; [done|]. intros _. destruct (occ n l) eqn:Ho; [|lia].
    by apply occ_zero in Ho.
  - apply occ_zero in Hn as Ho. split; [lia|done].
Qed.

(** The inner loop lowers each in-degree by the number of times the name
    occurs in [ds]; as long as no in-degree is asked to go below zero, it
    pushes each name whose in-degree ends at zero, once. *)
Lemma relax_spec ds : ∀ queue (i : Sort.InDegree),
  (∀ n, n ∈ ds → ∃ z, JsMap.get i n = Some z ∧ Z.of_nat (occ n ds) ≤ z) →
  ∃ pushed i',
    Sort.relax ds queue i = inr (queue ++ pushed, i') ∧
    JsMap.order i' = JsMap.order i ∧
    (∀ n, JsMap.get i' n = (λ z, z - Z.of_nat (occ n ds)) <$> JsMap.get i n) ∧
    NoDup pushed ∧
    (∀ n, n ∈ pushed ↔ n ∈ ds ∧ JsMap.get i n = Some (Z.of_nat (occ n ds))).
Proof.
  induction ds as [|m ds IH]; intros queue i Hbound.
  - exists [], i. simpl. rewrite app_nil_r. split; [done|]. split; [done|].
    split; [|split; [constructor|]].
    + intros n. change (occ n []) with 0%nat.
      destruct (JsMap.get i n); simpl; [f_equal; lia|done].
    + intros n. split; [by intros ?%elem_of_nil|by intros [?%elem_of_nil _]].
  - destruct (Hbound m) as (z & Hz & Hle); [left|].
    rewrite occ_cons, decide_True in Hle by done.
    simpl. rewrite Hz. simpl.
    set (i1 := JsMap.set i m (z - 1)).
    set (queue1 := if decide (z - 1 = 0) then queue ++ [m] else queue).
    destruct (IH queue1 i1) as (pushed & i' & Hrelax & Hord & Hget & Hnd & Hin).
    { intros n Hn. unfold i1. rewrite JsMap_get_set. case_decide as Hm.
      - subst n. exists (z - 1). split; [done|]. lia.
      - destruct (Hbound n) as (zn & Hzn & Hlen); [by right|].
        rewrite occ_cons, decide_False in Hlen by done.
        exists zn. split; [done|]. lia. }
    exists ((if decide (z - 1 = 0) then [m] else []) ++ pushed), i'.
    split; [|split; [|split; [|split]]].
    + rewrite Hrelax. f_equal. f_equal. unfold queue1.
      case_decide; [by rewrite <- app_assoc|done].
    + rewrite Hord. unfold i1. apply JsMap_order_set_old. rewrite Hz. eauto.
    + intros n. rewrite Hget. unfold i1. rewrite JsMap_get_set, occ_cons.
      case_decide as Hm.
      * subst n. rewrite Hz. simpl. f_equal. lia.
      * destruct (JsMap.get i n); simpl; [f_equal; lia|done].
    + case_decide as Hz1; [|done]. simpl. constructor; [|done].
      rewrite Hin. intros [Hm _]. apply occ_pos in Hm. lia.
    + intros n. rewrite elem_of_app, Hin. unfold i1.
      rewrite JsMap_get_set, occ_cons, elem_of_cons.
      destruct (decide (m = n)) as [->|Hm].
      * rewrite Hz. split.
        -- intros [Hn|[Hn [= Hzn]]].
           ++ case_decide as Hz1; [|by apply elem_of_nil in Hn].
              split; [by left|]. f_equal.
              assert (occ n ds = 0%nat) by lia. lia.
           ++ split; [by left|]. f_equal. lia.
        -- intros [_ [= Hzn]]. destruct (decide (n ∈ ds)) as [Hn|Hn].
           ++ right. split; [done|]. f_equal. lia.
           ++ left. apply occ_zero in Hn. rewrite decide_True by lia. left.
      * split.
        -- intros [Hn|[Hn Hzn]].
           ++ case_decide; [|by apply elem_of_nil in Hn].
              apply list_elem_of_singleton in Hn. congruence.
           ++ split; [by right|]. rewrite Hzn. f_equal.
        -- intros [[?|Hn] Hzn]; [congruence|]. right. split; [done|].
           rewrite Hzn. f_equal.
Qed.

(** ** The invariant of the [while] loop *)

Lemma pending_nil es n : pending es [] n = indegree es n.
Proof.
  unfold pending, indegree. f_equal. apply list_filter_iff. intros e.
  split; [by intros [? _]|]. intros ?. split; [done|]. apply not_elem_of_nil.
Qed.

Lemma pending_zero es done n :
  pending es done n = 0%nat ↔ ∀ d, (n, d) ∈ es → d ∈ done.
Proof.
  unfold pending. rewrite length_zero_iff_nil. split.
  - intros Hnil d Hd. destruct (decide (d ∈ done)) as [|Hn]; [done|].
    assert ((n, d) ∈ filter (λ e, e.1 = n ∧ e.2 ∉ done) es) as Hin
      by (by apply list_elem_of_filter).
    rewrite Hnil in Hin. by apply elem_of_nil in Hin.
  - intros Hall. destruct (filter _ es) as [|[m d] l] eqn:Hf; [done|].
    assert ((m, d) ∈ filter (λ e, e.1 = n ∧ e.2 ∉ done) es) as Hin
      by (rewrite Hf; left).
    apply list_elem_of_filter in Hin as [[Hm Hd] Hin]; simpl in *. subst m.
    destruct Hd. by apply Hall.
Qed.

Lemma pending_snoc es done x n :
  x ∉ done →
  (pending es (done ++ [x]) n + occ n (dependents_of es x))%nat =
  pending es done n.
Proof.
  intros Hx. unfold pending, occ, dependents_of.
  induction es as [|[m d] es IH]; [done|].
  rewrite !filter_cons; simpl.
  destruct (decide (d = x)) as [->|Hd], (decide (m = n)) as [->|Hm].
  - rewrite (decide_False (P := n = n ∧ x ∉ done ++ [x])).
    2:{ intros [_ Hn]. apply Hn, elem_of_app. right. left. }
    rewrite (decide_True (P := n = n ∧ x ∉ done)) by done.
    rewrite fmap_cons, filter_cons, decide_True by done. simpl. lia.
  - rewrite (decide_False (P := m = n ∧ _)) by (by intros [? _]).
    rewrite (decide_False (P := m = n ∧ _)) by (by intros [? _]).
    rewrite fmap_cons, filter_cons, decide_False by done. done.
  - destruct (decide (d ∈ done)) as [Hin|Hin].
    + rewrite (decide_False (P := n = n ∧ d ∉ done ++ [x])).
      2:{ intros [_ Hn]. apply Hn, elem_of_app. by left. }
      rewrite (decide_False (P := n = n ∧ d ∉ done)) by (by intros [_ ?]).
      done.
    + rewrite (decide_True (P := n = n ∧ d ∉ done ++ [x])).
      2:{ split; [done|]. rewrite elem_of_app, list_elem_of_singleton.
          by intros [?|?]. }
      rewrite (decide_True (P := n = n ∧ d ∉ done)) by done.
      simpl. lia.
  - rewrite (decide_False (P := m = n ∧ _)) by (by intros [? _]).
    rewrite (decide_False (P := m = n ∧ _)) by (by intros [? _]).
    done.
Qed.

Section drain_invariant.

Variable ps : list ServiceProvider.
Variable byName : Sort.ByName.
Variable dependents : Sort.Dependents.

Hypothesis HbyName :
  ∀ n p, JsMap.get byName n = Some p ↔ p ∈ ps ∧ name p = n.
Hypothesis Hdependents :
  ∀ n, n ∈ names ps →
    JsMap.get dependents n = Some (dependents_of (edges ps) n).

Lemma dependents_of_names x n :
  n ∈ dependents_of (edges ps) x → n ∈ names ps.
Proof.
  unfold dependents_of.
  intros ([m d] & -> & [_ He]%list_elem_of_filter)%list_elem_of_fmap.
  by apply edges_source in He.
Qed.

Lemma loop_invariant_step sorted current queue inDegree :
  loop_invariant ps sorted (current :: queue) inDegree →
  ∃ p pushed inDegree',
    JsMap.get byName current = Some p ∧
    Sort.relax (dependents_of (edges ps) current) queue inDegree =
      inr (queue ++ pushed, inDegree') ∧
    loop_invariant ps (sorted ++ [p]) (queue ++ pushed) inDegree'.
Proof.
  intros [Hnd Hnames Hdeg Hready Htopo Hmem].
  assert (current ∈ names ps) as Hcur.
  { apply Hnames. apply elem_of_app. right. left. }
  assert (current ∉ names sorted) as Hfresh.
  { apply NoDup_app in Hnd as (_ & Hdisj & _). intros Hin.
    apply (Hdisj _ Hin). left. }
  assert (∃ p, p ∈ ps ∧ name p = current) as (p & Hp & Hpn).
  { apply list_elem_of_fmap in Hcur as (p & -> & Hp). eauto. }
  assert (∀ n, (pending (edges ps) (names sorted ++ [current]) n
                + occ n (dependents_of (edges ps) current))%nat
               = pending (edges ps) (names sorted) n) as Hsnoc.
  { intros n. by apply pending_snoc. }
  destruct (relax_spec (dependents_of (edges ps) current) queue inDegree) as
    (pushed & i' & Hrelax & _ & Hget & Hpnd & Hpin).
  { intros n Hn. exists (Z.of_nat (pending (edges ps) (names sorted) n)).
    split; [by apply Hdeg, (dependents_of_names current)|].
    specialize (Hsnoc n). lia. }
  assert (∀ n, n ∈ pushed ↔
            n ∈ dependents_of (edges ps) current ∧
            pending (edges ps) (names sorted) n
            = occ n (dependents_of (edges ps) current)) as Hpushed.
  { intros n. rewrite Hpin. split; intros [Hn Heq]; (split; [done|]).
    - rewrite Hdeg in Heq by (by apply (dependents_of_names current)).
      injection Heq. lia.
    - rewrite Hdeg by (by apply (dependents_of_names current)).
      by rewrite Heq. }
  exists p, pushed, i'. split; [by apply HbyName|]. split; [done|].
  assert (names (sorted ++ [p]) = names sorted ++ [current]) as Hdone.
  { unfold names. rewrite fmap_app. simpl. by rewrite Hpn. }
  split; rewrite ?Hdone.
  - rewrite <- app_assoc. simpl.
    apply NoDup_app in Hnd as (Hnd1 & Hdisj & Hnd2).
    apply NoDup_cons in Hnd2 as [Hcq Hnd2].
    apply NoDup_app. split; [done|]. split.
    + intros n Hn [->|[Hq|Hq]%elem_of_app]%elem_of_cons; [done| |].
      * apply (Hdisj _ Hn). by right.
      * apply Hpushed in Hq as [Hq Heq]. apply occ_pos in Hq.
        assert (n ∈ names sorted ++ current :: queue) as Hin
          by (apply elem_of_app; by left).
        apply Hready in Hin; [lia|]. apply Hnames, elem_of_app. by left.
    + apply NoDup_cons. split.
      * intros [Hq|Hq]%elem_of_app; [done|].
        apply Hpushed in Hq as [Hq Heq]. apply occ_pos in Hq.
        assert (pending (edges ps) (names sorted) current = 0%nat); [|lia].
        apply Hready; [done|]. apply elem_of_app. right. left.
      * apply NoDup_app. split; [done|]. split; [|done].
        intros n Hn Hq. apply Hpushed in Hq as [Hq Heq]. apply occ_pos in Hq.
        assert (pending (edges ps) (names sorted) n = 0%nat); [|lia].
        apply Hready; [|apply elem_of_app; right; by right].
        apply Hnames, elem_of_app. right. by right.
  - intros n. rewrite <- app_assoc. simpl.
    intros [Hn|[->|[Hn|Hn]%elem_of_app]%elem_of_cons]%elem_of_app.
    + apply Hnames, elem_of_app. by left.
    + done.
    + apply Hnames, elem_of_app. right. by right.
    + apply Hpushed in Hn as [Hn _]. by apply (dependents_of_names current).
  - intros n Hn. rewrite Hget, Hdeg by done. simpl. f_equal.
    specialize (Hsnoc n). lia.
  - intros n Hn. rewrite <- app_assoc. simpl. specialize (Hsnoc n).
    specialize (Hready n Hn). rewrite elem_of_app, elem_of_cons in Hready.
    rewrite elem_of_app, elem_of_cons, elem_of_app, Hpushed. split.
    + intros Hz.
      destruct (decide (pending (edges ps) (names sorted) n = 0%nat))
        as [Hz'|Hz'].
      * apply Hready in Hz' as [?|[?|?]]; auto.
      * right. right. right. split; [|lia]. apply occ_pos. lia.
    + intros [Hin|[Hin|[Hin|[_ Heq]]]]; [| | |lia];
        (assert (pending (edges ps) (names sorted) n = 0%nat) as Hz
           by (apply Hready; auto)); lia.
  - intros front n back Hsplit d Hd.
    destruct back as [|y back _] using rev_ind.
    + apply app_inj_tail in Hsplit as [<- <-].
      assert (pending (edges ps) (names sorted) current = 0%nat) as Hz.
      { apply Hready; [done|]. apply elem_of_app. right. left. }
      by apply (proj1 (pending_zero (edges ps) (names sorted) current) Hz).
    + rewrite app_comm_cons, app_assoc in Hsplit.
      apply app_inj_tail in Hsplit as [Hsplit _].
      by apply (Htopo _ _ _ Hsplit).
  - intros q [Hq|Hq]%elem_of_app; [by apply Hmem|].
    apply list_elem_of_singleton in Hq. by subst q.
Qed.

Lemma loop_invariant_size sorted queue inDegree :
  loop_invariant ps sorted queue inDegree →
  (length sorted + length queue ≤ length ps)%nat.
Proof.
  intros [Hnd Hnames _ _ _ _].
  pose proof (submseteq_length _ _ (NoDup_submseteq _ _ Hnd Hnames)) as Hlen.
  rewrite length_app in Hlen. unfold names in Hlen.
  by rewrite !length_fmap in Hlen.
Qed.

(** The loop ends within [length ps] iterations, with an empty queue and
    the invariant. *)
Lemma drain_spec fuel : ∀ queue sorted inDegree,
  loop_invariant ps sorted queue inDegree →
  (length ps ≤ fuel + length sorted)%nat →
  ∃ sorted' inDegree',
    Sort.drain fuel byName dependents queue sorted inDegree = inr sorted' ∧
    loop_invariant ps sorted' [] inDegree'.
Proof.
  induction fuel as [|fuel IH]; intros queue sorted i Hinv Hfuel;
    (destruct queue as [|current queue]; [simpl; by eauto|]).
  - apply loop_invariant_size in Hinv. simpl in Hinv. lia.
  - destruct (loop_invariant_step _ _ _ _ Hinv)
      as (p & pushed & i' & Hp & Hrelax & Hinv').
    assert (current ∈ names ps) as Hcur.
    { apply (inv_names _ _ _ _ Hinv), elem_of_app. right. left. }
    simpl. rewrite Hp. simpl. rewrite (Hdependents _ Hcur). simpl.
    rewrite Hrelax. simpl. apply IH; [done|]. rewrite length_app. simpl. lia.
Qed.

End drain_invariant.

Lemma dependencies_known_edges ps :
  dependencies_known ps ↔ ∀ e, e ∈ edges ps → e.2 ∈ names ps.
Proof.
  unfold dependencies_known. split.
  - intros Hk [n d] He. by apply (Hk n), elem_of_edges.
  - intros Hk n d Hd. by apply (Hk (n, d)), elem_of_edges.
Qed.

(** ** What [sweep] returns

    The sweep throws exactly for a repeated name or an unknown dependency;
    otherwise it returns [sorted] with the invariant of the loop and an
    empty queue. *)
Lemma sweep_cases ps :
  match Sort.sweep ps with
  | inr sorted =>
      unique_names ps ∧ dependencies_known ps ∧
      ∃ inDegree, loop_invariant ps sorted [] inDegree
  | inl e =>
      (¬ unique_names ps ∧ ∃ n, e = DuplicateProviderName n ∧ n ∈ names ps) ∨
      (unique_names ps ∧ ¬ dependencies_known ps ∧
       ∃ n d, e = UnknownDependency n d ∧ depends_on ps n d ∧ d ∉ names ps)
  end.
Proof.
  unfold Sort.sweep. pose proof (indexByName_empty ps) as Hindex.
  destruct (Sort.indexByName ps JsMap.empty) as [e|byName]; simpl.
  { left. exact Hindex. }
  destruct Hindex as [Hunique HbyName].
  assert (∀ n, JsMap.has byName n = true ↔ n ∈ names ps) as Hhas.
  { intros n. rewrite JsMap_has_true. unfold names.
    rewrite list_elem_of_fmap. split.
    - intros [p Hp]. apply HbyName in Hp as [? <-]. eauto.
    - intros (p & -> & Hp). exists p. by apply HbyName. }
  destruct (initTables_spec ps Hunique) as (Hord & Hi0 & Hd0).
  rewrite linkProviders_edges.
  pose proof (linkEdges_spec byName (names ps) (edges ps) Hhas
                (edges_source ps) [] (Sort.initTables ps)) as Hlink.
  simpl in Hlink.
  destruct (linkEdges byName (edges ps) (Sort.initTables ps))
    as [e|[inDegree dependents]]; simpl.
  { right. destruct Hlink as ([n d] & He & Hd & ->).
    - split; [done|]. split. + intros n Hn. by rewrite Hi0, decide_True.
      + intros n Hn. by rewrite Hd0, decide_True.
    - split; [done|]. split.
      + intros Hk. by apply Hd, (proj1 (dependencies_known_edges ps) Hk (n, d)).
      + exists n, d. split; [done|]. split; [by apply elem_of_edges|done]. }
  destruct Hlink as [(Hord' & Hi & Hd) Hknown]; simpl in *.
  { split; [done|]. split. + intros n Hn. by rewrite Hi0, decide_True.
    + intros n Hn. by rewrite Hd0, decide_True. }
  destruct (drain_spec ps byName dependents HbyName Hd
              (length ps) (Sort.initialQueue inDegree) [] inDegree)
    as (sorted & i' & -> & Hinv); [|simpl; lia|].
  - rewrite initialQueue_order, Hord'. split; simpl.
    + by apply NoDup_filter.
    + by intros n [_ Hn]%list_elem_of_filter.
    + intros n Hn. by rewrite pending_nil, Hi.
    + intros n Hn. rewrite pending_nil, list_elem_of_filter, Hi by done.
      split; [intros ->; by split|]. intros [[= Hz] _]. lia.
    + intros front n back Hsplit. by destruct front.
    + by intros p ?%elem_of_nil.
  - split; [done|]. split; [by apply dependencies_known_edges|]. eauto.
Qed.

(** ** What the loop invariant says about the dependency graph *)

Lemma reach_known ps n m :
  dependencies_known ps → tc (depends_on ps) n m → m ∈ names ps.
Proof.
  intros Hknown Hm. induction Hm as [? ? Hd|]; [|done].
  by apply (Hknown _ _ Hd).
Qed.

Lemma depends_on_source ps n d : depends_on ps n d → n ∈ names ps.
Proof. intros (p & Hp & <- & _). by apply list_elem_of_fmap_2. Qed.

Lemma reach_source ps n m : tc (depends_on ps) n m → n ∈ names ps.
Proof. intros [? ? Hd|? ? ? Hd _]; by apply (depends_on_source _ _ _ Hd). Qed.

Section sorted_facts.

Variable ps : list ServiceProvider.
Variable sorted : list ServiceProvider.
Variable queue : list string.
Variable inDegree : Sort.InDegree.
Hypothesis Hinv : loop_invariant ps sorted queue inDegree.

Lemma sorted_after_dependencies : after_dependencies sorted.
Proof.
  intros front p back Hsplit d Hd.
  apply (inv_topo _ _ _ _ Hinv (names front) (name p) (names back)).
  - rewrite Hsplit. unfold names. by rewrite fmap_app.
  - apply elem_of_edges. exists p. split; [|done].
    apply (inv_members _ _ _ _ Hinv). rewrite Hsplit.
    apply elem_of_app. right. left.
Qed.

Lemma sorted_names_NoDup : NoDup (names sorted).
Proof. by destruct (proj1 (NoDup_app _ _) (inv_nodup _ _ _ _ Hinv)). Qed.

(** Whatever a sorted provider reaches along dependencies stands before it. *)
Lemma sorted_reach n m :
  tc (depends_on ps) n m →
  ∀ front back, names sorted = front ++ n :: back → m ∈ front.
Proof.
  induction 1 as [n m Hd|n d m Hd _ IH]; intros front back Hsplit.
  - apply (inv_topo _ _ _ _ Hinv _ _ _ Hsplit). by apply elem_of_edges.
  - assert (d ∈ front) as (f1 & f2 & ->)%list_elem_of_split.
    { apply (inv_topo _ _ _ _ Hinv _ _ _ Hsplit). by apply elem_of_edges. }
    rewrite <- app_assoc in Hsplit. simpl in Hsplit.
    apply elem_of_app. left. by apply (IH _ _ Hsplit).
Qed.

(** A provider on a cycle is never sorted. *)
Lemma cycle_unsorted n : tc (depends_on ps) n n → n ∉ names sorted.
Proof.
  intros Hcycle (front & back & Hsplit)%list_elem_of_split.
  pose proof (sorted_reach n n Hcycle front back Hsplit) as Hin.
  pose proof sorted_names_NoDup as Hnd. rewrite Hsplit in Hnd.
  apply NoDup_app in Hnd as (_ & Hdisj & _). apply (Hdisj n Hin). left.
Qed.

(** A provider that depends on an unsorted one is unsorted. *)
Lemma dependent_unsorted n d :
  depends_on ps n d → d ∉ names sorted → n ∉ names sorted.
Proof.
  intros Hd Hun (front & back & Hsplit)%list_elem_of_split. apply Hun.
  rewrite Hsplit. apply elem_of_app. left.
  apply (inv_topo _ _ _ _ Hinv _ _ _ Hsplit). by apply elem_of_edges.
Qed.

End sorted_facts.

Section final_facts.

Variable ps : list ServiceProvider.
Variable sorted : list ServiceProvider.
Variable inDegree : Sort.InDegree.
Hypothesis Hinv : loop_invariant ps sorted [] inDegree.

(** Once the queue is empty, an unsorted provider has an unsorted
    dependency. *)
Lemma unsorted_blocked n :
  n ∈ names ps → n ∉ names sorted →
  ∃ d, depends_on ps n d ∧ d ∉ names sorted.
Proof.
  intros Hn Hun. pose proof (inv_ready _ _ _ _ Hinv n Hn) as Hready.
  rewrite app_nil_r in Hready. unfold pending in Hready.
  destruct (filter _ (edges ps)) as [|[m d] l] eqn:Hf.
  { destruct Hun. by apply Hready. }
  assert ((m, d) ∈ filter (λ e, e.1 = n ∧ e.2 ∉ names sorted) (edges ps))
    as [[Hm Hd] Hin]%list_elem_of_filter by (rewrite Hf; left).
  simpl in *. subst m. exists d. split; [by apply elem_of_edges|done].
Qed.

Lemma acyclic_all_sorted :
  dependencies_known ps → acyclic ps →
  ∀ n, n ∈ names ps → n ∈ names sorted.
Proof.
  intros Hknown Hacyclic n Hn.
  assert (sn (depends_on ps) n) as Hsn.
  { apply tc_finite_sn; [exact Hacyclic|]. exists (names ps).
    intros m Hm. by apply (reach_known ps n). }
  induction Hsn as [n _ IH].
  destruct (decide (n ∈ names sorted)) as [|Hun]; [done|].
  destruct (unsorted_blocked n Hn Hun) as (d & Hd & Hdun).
  destruct Hdun. apply IH; [exact Hd|]. by apply (Hknown _ _ Hd).
Qed.

Lemma sorted_length_le : (length sorted ≤ length ps)%nat.
Proof.
  pose proof (loop_invariant_size _ _ _ _ Hinv) as Hle. simpl in Hle. lia.
Qed.

Lemma sorted_length_lt n :
  n ∈ names ps → n ∉ names sorted → (length sorted < length ps)%nat.
Proof.
  intros Hn Hun.
  assert (n :: names sorted ⊆+ names ps) as Hsub.
  { apply NoDup_submseteq.
    - constructor; [done|]. by apply (sorted_names_NoDup ps _ [] inDegree).
    - intros m [->|Hm]%elem_of_cons; [done|].
      apply (inv_names _ _ _ _ Hinv). by rewrite app_nil_r. }
  apply submseteq_length in Hsub. simpl in Hsub. unfold names in Hsub.
  rewrite !length_fmap in Hsub. lia.
Qed.

Lemma sorted_Permutation :
  unique_names ps → (∀ n, n ∈ names ps → n ∈ names sorted) → sorted ≡ₚ ps.
Proof.
  intros Hunique Hall. apply NoDup_Permutation.
  - apply (NoDup_fmap_1 name), (sorted_names_NoDup ps _ [] inDegree Hinv).
  - by apply (NoDup_fmap_1 name).
  - intros p. split; [apply (inv_members _ _ _ _ Hinv)|]. intros Hp.
    assert (name p ∈ names sorted) as (q & Hpq & Hq)%list_elem_of_fmap.
    { apply Hall. by apply list_elem_of_fmap_2. }
    assert (q = p) as <-; [|done].
    pose proof (inv_members _ _ _ _ Hinv q Hq) as Hq'.
    clear -Hunique Hp Hq' Hpq. unfold unique_names, names in Hunique.
    induction ps as [|r l IH]; [by apply elem_of_nil in Hp|].
    simpl in Hunique. apply NoDup_cons in Hunique as [Hr Hl].
    apply elem_of_cons in Hp as [->|Hp], Hq' as [->|Hq']; [done| | |by apply IH].
    + destruct Hr. rewrite Hpq. by apply list_elem_of_fmap_2.
    + destruct Hr. rewrite <- Hpq. by apply list_elem_of_fmap_2.
Qed.

End final_facts.

(** ** [topologicalSort] *)

Lemma includes_false sorted p : Sort.includes sorted p = false ↔ p ∉ sorted.
Proof. unfold Sort.includes. by rewrite bool_decide_eq_false. Qed.

(** The names the circular-dependency error lists are those of the
    providers that the sweep left unsorted, in the order of [ps]. *)
Lemma remaining_names ps sorted inDegree n :
  unique_names ps →
  loop_invariant ps sorted [] inDegree →
  n ∈ name <$> filter (λ p, Sort.includes sorted p = false) ps ↔
  n ∈ names ps ∧ n ∉ names sorted.
Proof.
  intros Hunique Hinv. rewrite list_elem_of_fmap. split.
  - intros (p & -> & [Hp Hin]%list_elem_of_filter).
    apply includes_false in Hp. split; [by apply list_elem_of_fmap_2|].
    intros (q & Hpq & Hq)%list_elem_of_fmap. apply Hp.
    assert (q = p) as <-; [|done].
    pose proof (inv_members _ _ _ _ Hinv q Hq) as Hq'.
    clear -Hunique Hin Hq' Hpq. unfold unique_names, names in Hunique.
    induction ps as [|r l IH]; [by apply elem_of_nil in Hin|].
    simpl in Hunique. apply NoDup_cons in Hunique as [Hr Hl].
    apply elem_of_cons in Hin as [->|Hin], Hq' as [->|Hq']; [done| | |by apply IH].
    + destruct Hr. rewrite Hpq. by apply list_elem_of_fmap_2.
    + destruct Hr. rewrite <- Hpq. by apply list_elem_of_fmap_2.
  - intros [(p & -> & Hp)%list_elem_of_fmap Hun]. exists p. split; [done|].
    apply list_elem_of_filter. split; [|done]. apply includes_false.
    intros Hin. apply Hun. by apply list_elem_of_fmap_2.
Qed.

(** A returned order is a permutation of the providers in which each one
    follows its dependencies, and is returned only for a well-formed,
    acyclic provider set. *)
Lemma topologicalSort_sound ps sorted :
  Sort.topologicalSort ps = inr sorted →
  unique_names ps ∧ dependencies_known ps ∧ acyclic ps ∧
  sorted ≡ₚ ps ∧ after_dependencies sorted.
Proof.
  unfold Sort.topologicalSort. pose proof (sweep_cases ps) as Hsweep.
  destruct (Sort.sweep ps) as [e|sorted']; simpl; [done|].
  destruct Hsweep as (Hunique & Hknown & inDegree & Hinv).
  case_decide as Hlen; [done|]. intros [= ->].
  assert (∀ n, n ∈ names ps → n ∈ names sorted) as Hall.
  { intros n Hn. destruct (decide (n ∈ names sorted)) as [|Hun]; [done|].
    pose proof (sorted_length_lt _ _ _ Hinv n Hn Hun). lia. }
  split; [done|]. split; [done|]. split; [|split].
  - intros n Hcycle. apply (cycle_unsorted _ _ _ _ Hinv n Hcycle), Hall.
    by apply (reach_source _ _ _ Hcycle).
  - by apply (sorted_Permutation _ _ _ Hinv).
  - by apply (sorted_after_dependencies _ _ _ _ Hinv).
Qed.

(** Every well-formed acyclic provider set is sorted. *)
Lemma topologicalSort_complete ps :
  unique_names ps → dependencies_known ps → acyclic ps →
  ∃ sorted, Sort.topologicalSort ps = inr sorted.
Proof.
  intros Hunique Hknown Hacyclic.
  unfold Sort.topologicalSort. pose proof (sweep_cases ps) as Hsweep.
  destruct (Sort.sweep ps) as [e|sorted]; simpl.
  { by destruct Hsweep as [[? _]|(_ & ? & _)]. }
  destruct Hsweep as (_ & _ & inDegree & Hinv).
  pose proof (acyclic_all_sorted _ _ _ Hinv Hknown Hacyclic) as Hall.
  pose proof (sorted_Permutation _ _ _ Hinv Hunique Hall) as Hperm.
  apply Permutation_length in Hperm. rewrite decide_False by lia. eauto.
Qed.

(** On a well-formed provider set with a cycle the sweep returns fewer
    providers than it was given, and the sort throws the names left. *)
Lemma topologicalSort_cyclic ps :
  unique_names ps → dependencies_known ps → cyclic ps →
  ∃ sorted inDegree,
    Sort.sweep ps = inr sorted ∧
    loop_invariant ps sorted [] inDegree ∧
    (length sorted < length ps)%nat ∧
    Sort.topologicalSort ps =
      inl (CircularDependency
             (name <$> filter (λ p, Sort.includes sorted p = false) ps)).
Proof.
  intros Hunique Hknown [n Hcycle].
  unfold Sort.topologicalSort. pose proof (sweep_cases ps) as Hsweep.
  destruct (Sort.sweep ps) as [e|sorted]; simpl.
  { by destruct Hsweep as [[? _]|(_ & ? & _)]. }
  destruct Hsweep as (_ & _ & inDegree & Hinv).
  exists sorted, inDegree. split; [done|]. split; [done|].
  assert (length sorted < length ps)%nat as Hlt.
  { apply (sorted_length_lt _ _ _ Hinv n).
    - by apply (reach_source _ _ _ Hcycle).
    - by apply (cycle_unsorted _ _ _ _ Hinv). }
  split; [done|]. rewrite decide_True by lia. done.
Qed.

(** The sort throws one of its three errors or returns: the guarded
    lookups are defined and the loop ends within its bound. *)
Lemma topologicalSort_defined ps : Sort.topologicalSort ps ≠ inl Unreachable.
Proof.
  unfold Sort.topologicalSort. pose proof (sweep_cases ps) as Hsweep.
  destruct (Sort.sweep ps) as [e|sorted]; simpl.
  - by destruct Hsweep as [(_ & ? & -> & _)|(_ & _ & ? & ? & -> & _)].
  - by case_decide.
Qed.

(** ** Running the methods of the application *)

Lemma M_bind_inr {A B} (m : App.M A) (f : A → App.M B) s s1 t1 a :
  m s = (s1, t1, inr a) →
  (m ≫= f) s = ((f a s1).1.1, t1 ++ (f a s1).1.2, (f a s1).2).
Proof.
  intros Hm. unfold mbind, App.M_bind. rewrite Hm.
  by destruct (f a s1) as [[??]?].
Qed.

Lemma M_bind_inl {A B} (m : App.M A) (f : A → App.M B) s s1 t1 e :
  m s = (s1, t1, inl e) → (m ≫= f) s = (s1, t1, inl e).
Proof. intros Hm. unfold mbind, App.M_bind. by rewrite Hm. Qed.

Lemma shutdownEach_run l s :
  App.shutdownEach l s = (s, shutdown_trace l, inr ()).
Proof.
  induction l as [|p l IH]; [done|].
  simpl. unfold mbind at 1, App.M_bind at 1.
  unfold App.tryCatch, App.callShutdown.
  unfold mbind at 1, App.M_bind at 1, App.tell at 1.
  destruct (shutdown p) as [|reason]; simpl; rewrite IH; done.
Qed.

Lemma shutdownProviders_run s :
  App.shutdownProviders s =
  (App.set_bootedProviders [] s,
   shutdown_trace (reverse (_bootedProviders s)), inr ()).
Proof.
  unfold App.shutdownProviders.
  unfold mbind at 1, App.M_bind at 1, App.gets at 1.
  unfold mbind at 1, App.M_bind at 1. rewrite shutdownEach_run.
  unfold App.modify. by rewrite app_nil_r.
Qed.

Lemma registerEach_ok l s :
  Forall registers l →
  App.registerEach l s = (s, RegisterCalled <$> l, inr ()).
Proof.
  induction 1 as [|p l Hp _ IH]; [done|].
  simpl. unfold mbind at 1, App.M_bind at 1, App.callRegister.
  unfold mbind at 1, App.M_bind at 1, App.tell at 1.
  rewrite Hp. simpl. by rewrite IH.
Qed.

Lemma registerEach_throws pre p post reason s :
  Forall registers pre → register p = Throws reason →
  App.registerEach (pre ++ p :: post) s =
  (s, RegisterCalled <$> (pre ++ [p]), inl (Raised reason)).
Proof.
  intros Hpre Hp. induction Hpre as [|q l Hq _ IH]; simpl.
  - unfold mbind at 1, App.M_bind at 1, App.callRegister.
    unfold mbind at 1, App.M_bind at 1, App.tell at 1.
    by rewrite Hp.
  - unfold mbind at 1, App.M_bind at 1, App.callRegister.
    unfold mbind at 1, App.M_bind at 1, App.tell at 1.
    rewrite Hq. simpl. by rewrite IH.
Qed.

Lemma bootEach_ok l : ∀ s,
  Forall boots l →
  App.bootEach l s =
  (App.set_bootedProviders (_bootedProviders s ++ l) s, boot_trace l, inr ()).
Proof.
  induction l as [|p l IH]; intros s Hl.
  - destruct s. simpl. unfold App.set_bootedProviders, mret, App.M_ret. simpl.
    by rewrite app_nil_r.
  - apply Forall_cons in Hl as [Hp Hl]. simpl.
    unfold mbind at 1, App.M_bind at 1, App.tryCatch.
    unfold mbind at 1, App.M_bind at 1, App.callBoot.
    unfold mbind at 1, App.M_bind at 1, App.tell at 1.
    rewrite Hp. simpl. rewrite (IH _ Hl). simpl.
    by rewrite <- app_assoc.
Qed.

Lemma bootEach_throws pre p post reason : ∀ s,
  Forall boots pre → boot p = Throws reason →
  App.bootEach (pre ++ p :: post) s =
  (App.set_bootedProviders [] s,
   boot_trace pre ++
     BootCalled p :: shutdown_trace (reverse (_bootedProviders s ++ pre)),
   inl (Raised reason)).
Proof.
  induction pre as [|q pre IH]; intros s Hpre Hp; simpl.
  - unfold mbind at 1, App.M_bind at 1, App.tryCatch.
    unfold mbind at 1, App.M_bind at 1, App.callBoot.
    unfold mbind at 1, App.M_bind at 1, App.tell at 1.
    rewrite Hp. simpl.
    unfold mbind at 1, App.M_bind at 1. rewrite shutdownProviders_run.
    simpl. by rewrite !app_nil_r.
  - apply Forall_cons in Hpre as [Hq Hpre].
    unfold mbind at 1, App.M_bind at 1, App.tryCatch.
    unfold mbind at 1, App.M_bind at 1, App.callBoot.
    unfold mbind at 1, App.M_bind at 1, App.tell at 1.
    rewrite Hq. simpl. rewrite (IH _ Hpre Hp). simpl.
    by rewrite <- app_assoc.
Qed.

(** A list either passes a test everywhere, or splits at the first
    element that fails it. *)
Lemma first_failure {A} (P : A → Prop) `{!∀ x, Decision (P x)} (l : list A) :
  Forall P l ∨ ∃ pre x post, l = pre ++ x :: post ∧ Forall P pre ∧ ¬ P x.
Proof.
  induction l as [|x l IH]; [by left|].
  destruct (decide (P x)) as [Hx|Hx].
  - destruct IH as [Hl|(pre & y & post & -> & Hpre & Hy)].
    + left. by constructor.
    + right. exists (x :: pre), y, post. split; [done|]. split; [|done].
      by constructor.
  - right. exists [], x, l. split; [done|]. split; [constructor|done].
Qed.

Lemma emit_run event s :
  App.emit event s =
  (App.set_bus (Emitter.emit event (bus s)).1.1 s,
   ListenerCalled event <$> (Emitter.emit event (bus s)).1.2,
   (Emitter.emit event (bus s)).2).
Proof. unfold App.emit. by destruct (Emitter.emit event (bus s)) as [[??]?]. Qed.

Lemma emit_quiet event s : Forall quiet (App.emit event s).1.2.
Proof.
  rewrite emit_run. simpl. apply Forall_fmap, Forall_forall. by intros.
Qed.

Lemma runCallbacks_quiet l s : Forall quiet (App.runCallbacks l s).1.2.
Proof.
  induction l as [|cb l IH]; simpl; [constructor|].
  unfold mbind at 1, App.M_bind at 1.
  unfold mbind at 1, App.M_bind at 1, App.tell at 1.
  destruct (answer cb); simpl; try (by repeat constructor).
  destruct (App.runCallbacks l s) as [[s2 t2] r2]. simpl in *.
  by constructor.
Qed.

Lemma runCallbacks_state l s : (App.runCallbacks l s).1.1 = s.
Proof.
  induction l as [|cb l IH]; simpl; [done|].
  unfold mbind at 1, App.M_bind at 1.
  unfold mbind at 1, App.M_bind at 1, App.tell at 1.
  destruct (answer cb); simpl; try done.
  destruct (App.runCallbacks l s) as [[s2 t2] r2]. simpl in *. done.
Qed.

Lemma runCallbacks_run l s :
  App.runCallbacks l s =
  (s, (App.runCallbacks l s).1.2, (App.runCallbacks l s).2).
Proof.
  pose proof (runCallbacks_state l s) as Hst.
  destruct (App.runCallbacks l s) as [[s' t] r]. simpl in *. by subst s'.
Qed.

Lemma afterBoot_run s :
  let s1 := App.set_booted true s in
  let called := App.runCallbacks (_bootedCallbacks s) s1 in
  let s2 := App.set_signalHandlers (S (_signalHandlers s)) s1 in
  let booted := Emitter.emit "app:booted" (bus s) in
  afterBoot s =
  match called.2 with
  | inl e => (s1, called.1.2, inl e)
  | inr _ =>
      (App.set_bus booted.1.1 s2,
       called.1.2 ++ [ProcessOn "SIGINT"; ProcessOn "SIGTERM"] ++
         (ListenerCalled "app:booted" <$> booted.1.2),
       booted.2)
  end.
Proof.
  intros s1 called s2 booted. unfold afterBoot.
  unfold mbind at 1, App.M_bind at 1, App.modify at 1.
  unfold mbind at 1, App.M_bind at 1, App.gets at 1.
  unfold mbind at 1, App.M_bind at 1.
  change (_bootedCallbacks (App.set_booted true s)) with (_bootedCallbacks s).
  fold s1. rewrite (runCallbacks_run _ s1). fold called.
  destruct called.2 as [e|[]]; [done|].
  unfold mbind at 1, App.M_bind at 1, App.installSignalHandlers.
  unfold mbind at 1, App.M_bind at 1, App.gets at 1.
  unfold mbind at 1, App.M_bind at 1, App.modify at 1.
  unfold mbind at 1, App.M_bind at 1, App.tell.
  rewrite emit_run. done.
Qed.

(** What follows the boot loop calls into no provider, marks the
    application booted and leaves the list of booted providers alone. *)
Lemma afterBoot_spec s :
  Forall quiet (afterBoot s).1.2 ∧
  _booted (afterBoot s).1.1 = true ∧
  _bootedProviders (afterBoot s).1.1 = _bootedProviders s ∧
  _shuttingDown (afterBoot s).1.1 = _shuttingDown s.
Proof.
  rewrite afterBoot_run.
  pose proof (runCallbacks_quiet (_bootedCallbacks s) (App.set_booted true s))
    as Hcb.
  destruct (App.runCallbacks _ _).2 as [e|[]]; simpl; [done|].
  split; [|done]. apply Forall_app. split; [done|].
  constructor; [done|]. constructor; [done|].
  apply Forall_fmap, Forall_forall. by intros.
Qed.

Lemma start_booted s : _booted s = true → App.start s = (s, [], inr ()).
Proof.
  intros Hb. unfold App.start.
  unfold mbind at 1, App.M_bind at 1, App.gets at 1. by rewrite Hb.
Qed.

Lemma start_unfold s :
  _booted s = false →
  App.start s =
  match (Emitter.emit "app:starting" (bus s)).2 with
  | inl err => (started s, starting_calls s, inl err)
  | inr _ =>
      match Sort.topologicalSort (_providers s) with
      | inl err => (started s, starting_calls s, inl err)
      | inr sorted =>
          ((phases sorted (started s)).1.1,
           starting_calls s ++ (phases sorted (started s)).1.2,
           (phases sorted (started s)).2)
      end
  end.
Proof.
  intros Hb. unfold App.start.
  unfold mbind at 1, App.M_bind at 1, App.gets at 1. rewrite Hb.
  unfold mbind at 1, App.M_bind at 1. rewrite emit_run.
  fold (started s). fold (starting_calls s).
  destruct (Emitter.emit "app:starting" (bus s)).2 as [err|[]]; [done|].
  unfold mbind at 1, App.M_bind at 1, App.gets at 1.
  unfold mbind at 1, App.M_bind at 1, App.lift at 1.
  change (_providers (started s)) with (_providers s).
  destruct (Sort.topologicalSort (_providers s)) as [err|sorted].
  - by rewrite app_nil_r.
  - fold afterBoot. fold (phases sorted).
    destruct (phases sorted (started s)) as [[s2 t2] r2]. done.
Qed.

Lemma phases_register_throws sorted pre p post reason s :
  sorted = pre ++ p :: post →
  Forall registers pre → register p = Throws reason →
  phases sorted s = (s, RegisterCalled <$> (pre ++ [p]), inl (Raised reason)).
Proof.
  intros -> Hpre Hp. unfold phases.
  by rewrite (M_bind_inl _ _ _ _ _ _ (registerEach_throws _ _ _ _ _ Hpre Hp)).
Qed.

Lemma phases_boot_throws sorted pre p post reason s :
  Forall registers sorted →
  sorted = pre ++ p :: post →
  Forall boots pre → boot p = Throws reason →
  phases sorted s =
  (App.set_bootedProviders [] s,
   (RegisterCalled <$> sorted) ++ boot_trace pre ++
     BootCalled p :: shutdown_trace (reverse (_bootedProviders s ++ pre)),
   inl (Raised reason)).
Proof.
  intros Hreg -> Hpre Hp. unfold phases.
  rewrite (M_bind_inr _ _ _ _ _ _ (registerEach_ok _ _ Hreg)).
  by rewrite (M_bind_inl _ _ _ _ _ _ (bootEach_throws _ _ _ _ _ Hpre Hp)).
Qed.

Lemma phases_boots sorted s :
  Forall registers sorted → Forall boots sorted →
  let s2 := App.set_bootedProviders (_bootedProviders s ++ sorted) s in
  phases sorted s =
  ((afterBoot s2).1.1,
   (RegisterCalled <$> sorted) ++ boot_trace sorted ++ (afterBoot s2).1.2,
   (afterBoot s2).2).
Proof.
  intros Hreg Hboot s2. unfold phases.
  rewrite (M_bind_inr _ _ _ _ _ _ (registerEach_ok _ _ Hreg)).
  rewrite (M_bind_inr _ _ _ _ _ _ (bootEach_ok _ _ Hboot)).
  simpl. fold s2. done.
Qed.

(** ** Reading a trace *)

Section trace_facts.

Implicit Types (tr : list Event) (l : list ServiceProvider).

Lemma register_calls_app tr1 tr2 :
  register_calls (tr1 ++ tr2) = register_calls tr1 ++ register_calls tr2.
Proof. apply omap_app. Qed.

Lemma boot_calls_app tr1 tr2 :
  boot_calls (tr1 ++ tr2) = boot_calls tr1 ++ boot_calls tr2.
Proof. apply omap_app. Qed.

Lemma boot_completions_app tr1 tr2 :
  boot_completions (tr1 ++ tr2) = boot_completions tr1 ++ boot_completions tr2.
Proof. apply omap_app. Qed.

Lemma shutdown_calls_app tr1 tr2 :
  shutdown_calls (tr1 ++ tr2) = shutdown_calls tr1 ++ shutdown_calls tr2.
Proof. apply omap_app. Qed.

Lemma console_errors_app tr1 tr2 :
  console_errors (tr1 ++ tr2) = console_errors tr1 ++ console_errors tr2.
Proof. apply omap_app. Qed.

Lemma boot_events_app tr1 tr2 :
  boot_events (tr1 ++ tr2) = boot_events tr1 ++ boot_events tr2.
Proof. apply omap_app. Qed.

Lemma quiet_silent tr :
  Forall quiet tr →
  register_calls tr = [] ∧ boot_calls tr = [] ∧ boot_completions tr = [] ∧
  shutdown_calls tr = [] ∧ console_errors tr = [] ∧ boot_events tr = [].
Proof.
  induction 1 as [|ev tr Hev _ IH]; [done|].
  destruct IH as (? & ? & ? & ? & ? & ?). by destruct ev.
Qed.

Lemma starting_calls_quiet s : Forall quiet (starting_calls s).
Proof. apply Forall_fmap, Forall_forall. by intros. Qed.

Lemma registered_silent l :
  register_calls (RegisterCalled <$> l) = l ∧
  boot_calls (RegisterCalled <$> l) = [] ∧
  boot_completions (RegisterCalled <$> l) = [] ∧
  shutdown_calls (RegisterCalled <$> l) = [] ∧
  console_errors (RegisterCalled <$> l) = [] ∧
  boot_events (RegisterCalled <$> l) = [].
Proof.
  induction l as [|p l (? & ? & ? & ? & ? & ?)]; [done|].
  rewrite fmap_cons. simpl. repeat split; try done. by f_equal.
Qed.

Lemma boot_trace_cons p l :
  boot_trace (p :: l) = BootCalled p :: BootCompleted p :: boot_trace l.
Proof. done. Qed.

Lemma boot_trace_app l1 l2 :
  boot_trace (l1 ++ l2) = boot_trace l1 ++ boot_trace l2.
Proof. unfold boot_trace. apply bind_app. Qed.

Lemma boot_trace_silent l :
  register_calls (boot_trace l) = [] ∧
  boot_calls (boot_trace l) = l ∧
  boot_completions (boot_trace l) = l ∧
  shutdown_calls (boot_trace l) = [] ∧
  console_errors (boot_trace l) = [] ∧
  boot_events (boot_trace l) = boot_trace l.
Proof.
  induction l as [|p l (? & ? & ? & ? & ? & ?)]; [done|].
  rewrite boot_trace_cons. simpl. repeat split; try done; by repeat f_equal.
Qed.

Lemma shutdown_trace_silent l :
  register_calls (shutdown_trace l) = [] ∧
  boot_calls (shutdown_trace l) = [] ∧
  boot_completions (shutdown_trace l) = [] ∧
  shutdown_calls (shutdown_trace l) = l ∧
  console_errors (shutdown_trace l) = shutdown_errors l ∧
  boot_events (shutdown_trace l) = [].
Proof.
  induction l as [|p l (? & ? & ? & ? & ? & ?)]; [done|].
  change (shutdown_trace (p :: l)) with
    ((ShutdownCalled p :: match shutdown p with
                          | Returns => []
                          | Throws reason => [ConsoleError (name p) (Raised reason)]
                          end) ++ shutdown_trace l).
  rewrite register_calls_app, boot_calls_app, boot_completions_app,
    shutdown_calls_app, console_errors_app, boot_events_app.
  unfold shutdown_errors in *. simpl.
  destruct (shutdown p); simpl; repeat split; try done; by f_equal.
Qed.

End trace_facts.

(** ** The three ways [start] goes once the providers are sorted *)

Lemma not_registers p : ¬ registers p → ∃ reason, register p = Throws reason.
Proof. unfold registers. destruct (register p); [done|eauto]. Qed.

Lemma not_boots p : ¬ boots p → ∃ reason, boot p = Throws reason.
Proof. unfold boots. destruct (boot p); [done|eauto]. Qed.

Lemma start_shape s sorted :
  _booted s = false →
  (Emitter.emit "app:starting" (bus s)).2 = inr () →
  Sort.topologicalSort (_providers s) = inr sorted →
  (∃ pre p post reason,
     sorted = pre ++ p :: post ∧ Forall registers pre ∧
     register p = Throws reason ∧
     App.start s =
       (started s,
        starting_calls s ++ (RegisterCalled <$> (pre ++ [p])),
        inl (Raised reason))) ∨
  (Forall registers sorted ∧
   ∃ pre p post reason,
     sorted = pre ++ p :: post ∧ Forall boots pre ∧
     boot p = Throws reason ∧
     App.start s =
       (App.set_bootedProviders [] (started s),
        starting_calls s ++ (RegisterCalled <$> sorted) ++ boot_trace pre ++
          BootCalled p :: shutdown_trace (reverse (_bootedProviders s ++ pre)),
        inl (Raised reason))) ∨
  (Forall registers sorted ∧ Forall boots sorted ∧
   ∃ rest,
     Forall quiet rest ∧
     (App.start s).1.2 =
       starting_calls s ++ (RegisterCalled <$> sorted) ++ boot_trace sorted ++ rest ∧
     _booted (App.start s).1.1 = true ∧
     _bootedProviders (App.start s).1.1 = _bootedProviders s ++ sorted ∧
     _shuttingDown (App.start s).1.1 = _shuttingDown s).
Proof.
  intros Hb Hemit Hsort. rewrite (start_unfold s Hb), Hemit, Hsort.
  destruct (first_failure registers sorted)
    as [Hreg|(pre & p & post & Hsplit & Hpre & [reason Hp]%not_registers)].
  2:{ left. exists pre, p, post, reason. split; [done|]. split; [done|].
      split; [done|].
      by rewrite (phases_register_throws _ _ _ _ _ _ Hsplit Hpre Hp). }
  right.
  destruct (first_failure boots sorted)
    as [Hboot|(pre & p & post & Hsplit & Hpre & [reason Hp]%not_boots)].
  2:{ left. split; [done|]. exists pre, p, post, reason.
      split; [done|]. split; [done|]. split; [done|].
      by rewrite (phases_boot_throws _ _ _ _ _ _ Hreg Hsplit Hpre Hp). }
  right. split; [done|]. split; [done|].
  rewrite (phases_boots _ _ Hreg Hboot). simpl.
  destruct (afterBoot_spec
              (App.set_bootedProviders (_bootedProviders s ++ sorted) (started s)))
    as (Hquiet & Hbooted & Hlist & Hflag).
  eexists. split; [exact Hquiet|]. split; [done|]. done.
Qed.

(** Without a sorted order nothing is registered or booted. *)
Lemma start_unsorted s :
  _booted s = true ∨
  (∃ e, (Emitter.emit "app:starting" (bus s)).2 = inl e) ∨
  (∃ e, Sort.topologicalSort (_providers s) = inl e) →
  Forall quiet (App.start s).1.2.
Proof.
  destruct (_booted s) eqn:Hb.
  { intros _. by rewrite (start_booted s Hb). }
  rewrite (start_unfold s Hb). intros [?|[[e He]|[e He]]]; [done| |].
  - rewrite He. apply starting_calls_quiet.
  - rewrite He. destruct (Emitter.emit _ _).2; apply starting_calls_quiet.
Qed.

(** * The specification of the kernel *)

(** C1. For a provider set with pairwise distinct names, every declared
    dependency naming a provider of the set, and an acyclic dependency
    graph, [start] computes an order that holds every provider exactly
    once (a permutation of the duplicate-free list of providers) and in
    which each provider comes strictly after all providers it declares as
    dependencies; the providers are booted in that order: the boot calls
    of [start] are always a prefix of the order, and the whole order when
    the application was not booted and nothing throws. *)
Theorem start_boots_in_dependency_order (s : Application) :
  unique_names (_providers s) →
  dependencies_known (_providers s) →
  acyclic (_providers s) →
  ∃ sorted,
    Sort.topologicalSort (_providers s) = inr sorted ∧
    NoDup (_providers s) ∧ sorted ≡ₚ _providers s ∧
    after_dependencies sorted ∧
    boot_calls (App.start s).1.2 `prefix_of` sorted ∧
    (_booted s = false →
     (Emitter.emit "app:starting" (bus s)).2 = inr () →
     Forall registers sorted → Forall boots sorted →
     register_calls (App.start s).1.2 = sorted ∧
     boot_calls (App.start s).1.2 = sorted ∧
     boot_completions (App.start s).1.2 = sorted).
Proof.
  intros Hunique Hknown Hacyclic.
  destruct (topologicalSort_complete _ Hunique Hknown Hacyclic) as [sorted Hsort].
  destruct (topologicalSort_sound _ _ Hsort) as (_ & _ & _ & Hperm & Hafter).
  exists sorted. split; [done|]. split; [by apply (NoDup_fmap_1 name)|].
  split; [done|]. split; [done|].
  destruct (_booted s) eqn:Hb.
  { rewrite (start_booted s Hb). split; [apply prefix_nil|done]. }
  destruct (Emitter.emit "app:starting" (bus s)).2 as [e|[]] eqn:Hemit.
  { split; [|done].
    destruct (quiet_silent (App.start s).1.2) as (_ & -> & _).
    - apply start_unsorted. right. left. eauto.
    - apply prefix_nil. }
  destruct (quiet_silent _ (starting_calls_quiet s)) as (HE1 & HE2 & HE3 & _).
  destruct (start_shape s sorted Hb Hemit Hsort)
    as [(pre & p & post & reason & -> & Hpre & Hp & ->)|
        [(Hreg & pre & p & post & reason & -> & Hpre & Hp & ->)|
         (Hreg & Hboot & rest & Hquiet & Htr & _)]]; simpl.
  - split.
    + rewrite boot_calls_app, HE2.
      destruct (registered_silent (pre ++ [p])) as (_ & -> & _).
      apply prefix_nil.
    + intros _ _ Hreg _. apply Forall_app in Hreg as [_ Hreg].
      apply Forall_cons in Hreg as [Hreg _]. unfold registers in Hreg.
      congruence.
  - split.
    + rewrite !boot_calls_app, HE2.
      destruct (registered_silent (pre ++ p :: post)) as (_ & -> & _).
      destruct (boot_trace_silent pre) as (_ & -> & _). simpl.
      destruct (shutdown_trace_silent (reverse (_bootedProviders s ++ pre)))
        as (_ & -> & _).
      exists post. by rewrite <- app_assoc.
    + intros _ _ _ Hboot. apply Forall_app in Hboot as [_ Hboot].
      apply Forall_cons in Hboot as [Hboot _]. unfold boots in Hboot.
      congruence.
  - rewrite Htr.
    rewrite !register_calls_app, !boot_calls_app, !boot_completions_app,
      HE1, HE2, HE3.
    destruct (registered_silent sorted) as (-> & -> & -> & _).
    destruct (boot_trace_silent sorted) as (-> & -> & -> & _).
    destruct (quiet_silent _ Hquiet) as (-> & -> & -> & _).
    simpl. rewrite !app_nil_r. done.
Qed.

Lemma three_tier_sorted :
  Sort.topologicalSort three_tier =
  inr [provider "config" []; provider "database" ["config"];
       provider "auth" ["database"]].
Proof. vm_compute. reflexivity. Qed.

Lemma start_boots_in_dependency_order_witness :
  ∃ sorted,
    Sort.topologicalSort three_tier = inr sorted ∧
    NoDup three_tier ∧ sorted ≡ₚ three_tier ∧
    after_dependencies sorted ∧
    boot_calls (App.start (with_providers three_tier)).1.2 `prefix_of` sorted ∧
    (false = false →
     (Emitter.emit "app:starting" Emitter.initial).2 = inr () →
     Forall registers sorted → Forall boots sorted →
     register_calls (App.start (with_providers three_tier)).1.2 = sorted ∧
     boot_calls (App.start (with_providers three_tier)).1.2 = sorted ∧
     boot_completions (App.start (with_providers three_tier)).1.2 = sorted).
Proof.
  destruct (topologicalSort_sound _ _ three_tier_sorted)
    as (Hunique & Hknown & Hacyclic & _).
  exact (start_boots_in_dependency_order (with_providers three_tier)
           Hunique Hknown Hacyclic).
Defined.

(** ** The list of booted providers *)

Lemma created_consistent : booted_list_consistent App.created.
Proof. done. Qed.

Lemma start_consistent s :
  booted_list_consistent s → booted_list_consistent (App.start s).1.1.
Proof.
  intros Hinv. destruct (_booted s) eqn:Hb; [by rewrite (start_booted s Hb)|].
  specialize (Hinv Hb).
  destruct (Emitter.emit "app:starting" (bus s)).2 as [e|[]] eqn:Hemit.
  { rewrite (start_unfold s Hb), Hemit. by intros _. }
  destruct (Sort.topologicalSort (_providers s)) as [e|sorted] eqn:Hsort.
  { rewrite (start_unfold s Hb), Hemit, Hsort. by intros _. }
  destruct (start_shape s sorted Hb Hemit Hsort)
    as [(pre & p & post & reason & _ & _ & _ & ->)|
        [(Hreg & pre & p & post & reason & _ & _ & _ & ->)|
         (Hreg & Hboot & rest & Hquiet & Hrun & Hbooted & _)]].
  - by intros _.
  - by intros _.
  - intros Hfalse. congruence.
Qed.

(** C2. If the boot of a provider throws during [start] (the application
    was not booted, the starting event was published without error, the
    providers were sorted and registered, and the providers [pre] before
    [p] in the order booted), then: the boot calls are those of [pre] and
    of [p], so no provider after [p] is booted; the providers that had
    completed boot ([_bootedProviders] as [start] found it, which is empty
    in every un-booted state the methods produce, followed by [pre]) are
    shut down in the exact reverse of that order, after the failing call
    and with nothing else after it; a shutdown that throws is reported on
    the console and the rollback goes on; [start] throws the value that
    [boot] threw; and the application is left un-booted, with no booted
    provider. *)
Theorem boot_failure_rolls_back (s : Application)
    (sorted pre : list ServiceProvider) (p : ServiceProvider)
    (post : list ServiceProvider) (reason : string) :
  _booted s = false →
  (Emitter.emit "app:starting" (bus s)).2 = inr () →
  Sort.topologicalSort (_providers s) = inr sorted →
  Forall registers sorted →
  sorted = pre ++ p :: post →
  Forall boots pre →
  boot p = Throws reason →
  let rollback := reverse (_bootedProviders s ++ pre) in
  (App.start s).2 = inl (Raised reason) ∧
  boot_calls (App.start s).1.2 = pre ++ [p] ∧
  boot_completions (App.start s).1.2 = pre ∧
  shutdown_calls (App.start s).1.2 = rollback ∧
  console_errors (App.start s).1.2 = shutdown_errors rollback ∧
  (∃ before,
     (App.start s).1.2 = before ++ BootCalled p :: shutdown_trace rollback ∧
     shutdown_calls before = []) ∧
  App.isBooted (App.start s).1.1 = false ∧
  _bootedProviders (App.start s).1.1 = [].
Proof.
  intros Hb Hemit Hsort Hreg Hsplit Hpre Hp rollback.
  rewrite (start_unfold s Hb), Hemit, Hsort,
    (phases_boot_throws _ _ _ _ _ _ Hreg Hsplit Hpre Hp).
  change (_bootedProviders (started s)) with (_bootedProviders s).
  fold rollback. cbn [fst snd].
  destruct (quiet_silent _ (starting_calls_quiet s))
    as (_ & HE2 & HE3 & HE4 & HE5 & _).
  destruct (registered_silent sorted) as (_ & HR2 & HR3 & HR4 & HR5 & _).
  destruct (boot_trace_silent pre) as (_ & HB2 & HB3 & HB4 & HB5 & _).
  destruct (shutdown_trace_silent rollback) as (_ & HS2 & HS3 & HS4 & HS5 & _).
  split; [done|].
  change (BootCalled p :: shutdown_trace rollback)
    with ([BootCalled p] ++ shutdown_trace rollback).
  rewrite !boot_calls_app, !boot_completions_app, !shutdown_calls_app,
    !console_errors_app.
  rewrite HE2, HE3, HE4, HE5, HR2, HR3, HR4, HR5, HB2, HB3, HB4, HB5,
    HS2, HS3, HS4, HS5.
  simpl. rewrite !app_nil_r.
  split; [done|]. split; [done|]. split; [done|].
  split; [done|]. split; [|done].
  exists (starting_calls s ++ (RegisterCalled <$> sorted) ++ boot_trace pre).
  split; [by rewrite <- !app_assoc|].
  by rewrite !shutdown_calls_app, HE4, HR4, HB4.
Qed.

Lemma boot_failure_rolls_back_witness :
  (App.start (with_providers broken_tier)).2 =
    inl (Raised "connection refused") ∧
  boot_calls (App.start (with_providers broken_tier)).1.2 =
    [provider "config" []; failing_database] ∧
  boot_completions (App.start (with_providers broken_tier)).1.2 =
    [provider "config" []] ∧
  shutdown_calls (App.start (with_providers broken_tier)).1.2 =
    [provider "config" []] ∧
  App.isBooted (App.start (with_providers broken_tier)).1.1 = false.
Proof.
  destruct (boot_failure_rolls_back (with_providers broken_tier)
              [provider "config" []; failing_database;
               provider "auth" ["database"]]
              [provider "config" []] failing_database
              [provider "auth" ["database"]] "connection refused")
    as (Hthrown & Hcalls & Hdone & Hdown & _ & _ & Hbooted & _).
  - reflexivity.
  - reflexivity.
  - vm_compute. reflexivity.
  - repeat constructor.
  - reflexivity.
  - repeat constructor.
  - reflexivity.
  - repeat split; assumption.
Defined.

(** ** Where a boot call stands in the trace of [start] *)

Lemma split_after_silent (a b t1 t2 : list Event) p :
  boot_calls a = [] →
  a ++ b = t1 ++ BootCalled p :: t2 →
  ∃ m, t1 = a ++ m ∧ b = m ++ BootCalled p :: t2.
Proof.
  revert t1. induction a as [|ev a IH]; intros t1 Ha Heq.
  - by exists t1.
  - destruct t1 as [|ev' t1]; simpl in Heq.
    + injection Heq as -> _. done.
    + injection Heq as -> Heq.
      destruct (IH t1) as (m & -> & ->); [|done|by exists m].
      unfold boot_calls in *. simpl in Ha. by destruct ev'.
Qed.

Lemma boot_trace_split l : ∀ c m p t2,
  boot_trace l ++ c = m ++ BootCalled p :: t2 →
  (∃ front back,
     l = front ++ p :: back ∧ m = boot_trace front ∧
     t2 = BootCompleted p :: boot_trace back ++ c) ∨
  (∃ m', m = boot_trace l ++ m' ∧ c = m' ++ BootCalled p :: t2).
Proof.
  induction l as [|q l IH]; intros c m p t2 Heq.
  - right. by exists m.
  - rewrite boot_trace_cons in Heq. simpl in Heq.
    destruct m as [|x [|y m]]; simpl in Heq.
    + injection Heq as -> <-. left. by exists [], l.
    + by injection Heq.
    + injection Heq as <- <- Heq.
      destruct (IH _ _ _ _ Heq)
        as [(front & back & -> & -> & ->)|(m' & -> & ->)].
      * left. by exists (q :: front), back.
      * right. by exists m'.
Qed.

Lemma boot_completed_in_trace q l : q ∈ l → BootCompleted q ∈ boot_trace l.
Proof.
  induction l as [|r l IH]; [by intros ?%elem_of_nil|].
  rewrite boot_trace_cons. intros [->|Hq]%elem_of_cons.
  - right. left.
  - right. right. by apply IH.
Qed.

Lemma no_boot_call_in (tr t1 t2 : list Event) p :
  boot_calls tr = [] → tr ≠ t1 ++ BootCalled p :: t2.
Proof.
  intros Hnone ->. rewrite boot_calls_app in Hnone. simpl in Hnone.
  by destruct (boot_calls t1).
Qed.

(** C8. Take any moment of [start] at which the boot of a provider [p]
    begins: the trace of [start] is [t1], then the call of [p]'s boot,
    then [t2]. At that moment [register] has been called on every provider,
    in the sorted order, and is not called again afterwards; the boot
    events so far are the call and the completion of each provider that
    precedes [p] in the sorted order, one provider after the other in that
    order; and every dependency [p] declares is the name of one of those
    providers, whose boot has completed. *)
Theorem boot_follows_registration_and_dependencies (s : Application)
    (t1 : list Event) (p : ServiceProvider) (t2 : list Event) :
  (App.start s).1.2 = t1 ++ BootCalled p :: t2 →
  ∃ sorted front back,
    Sort.topologicalSort (_providers s) = inr sorted ∧
    sorted = front ++ p :: back ∧
    register_calls t1 = sorted ∧
    register_calls t2 = [] ∧
    boot_events t1 = boot_trace front ∧
    (∀ d, d ∈ dependencies p →
       ∃ q, q ∈ front ∧ name q = d ∧ BootCompleted q ∈ t1).
Proof.
  intros Htr.
  destruct (_booted s) eqn:Hb.
  { rewrite (start_booted s Hb) in Htr. by destruct t1. }
  destruct (Emitter.emit "app:starting" (bus s)).2 as [e|[]] eqn:Hemit.
  { destruct (no_boot_call_in (App.start s).1.2 t1 t2 p); [|done].
    apply quiet_silent, start_unsorted. right. left. eauto. }
  destruct (Sort.topologicalSort (_providers s)) as [e|sorted] eqn:Hsort.
  { destruct (no_boot_call_in (App.start s).1.2 t1 t2 p); [|done].
    apply quiet_silent, start_unsorted. right. right. eauto. }
  destruct (topologicalSort_sound _ _ Hsort) as (_ & _ & _ & _ & Hafter).
  destruct (quiet_silent _ (starting_calls_quiet s))
    as (HE1 & HE2 & _ & _ & _ & HE6).
  destruct (registered_silent sorted) as (HR1 & HR2 & _ & _ & _ & HR6).
  assert (∀ front back,
            sorted = front ++ p :: back →
            t1 = starting_calls s ++ (RegisterCalled <$> sorted) ++ boot_trace front →
            register_calls t2 = [] →
            ∃ sorted' front' back',
              inr sorted = inr (A := Thrown) sorted' ∧
              sorted' = front' ++ p :: back' ∧
              register_calls t1 = sorted' ∧ register_calls t2 = [] ∧
              boot_events t1 = boot_trace front' ∧
              (∀ d, d ∈ dependencies p →
                 ∃ q, q ∈ front' ∧ name q = d ∧ BootCompleted q ∈ t1)) as Hgoal.
  { intros front back Hsplit -> Ht2. exists sorted, front, back.
    destruct (boot_trace_silent front) as (HB1 & _ & _ & _ & _ & HB6).
    split; [done|]. split; [done|]. split; [|split; [done|split]].
    - by rewrite !register_calls_app, HE1, HR1, HB1, app_nil_r.
    - by rewrite !boot_events_app, HE6, HR6, HB6.
    - intros d Hd.
      destruct (proj1 (list_elem_of_fmap _ _ _) (Hafter _ _ _ Hsplit d Hd))
        as (q & -> & Hq).
      exists q. split; [done|]. split; [done|].
      rewrite !elem_of_app. right. right. by apply boot_completed_in_trace. }
  destruct (start_shape s sorted Hb Hemit Hsort)
    as [(pre & p' & post & reason & _ & _ & _ & Hrun)|
        [(Hreg & pre & p' & post & reason & Hsplit & Hpre & Hp & Hrun)|
         (Hreg & Hboot & rest & Hquiet & Hrun & _)]].
  - rewrite Hrun in Htr. simpl in Htr.
    exfalso. refine (no_boot_call_in _ _ _ _ _ Htr).
    rewrite boot_calls_app, HE2.
    by destruct (registered_silent (pre ++ [p'])) as (_ & -> & _).
  - rewrite Hrun in Htr. simpl in Htr.
    apply split_after_silent in Htr as (m1 & -> & Htr); [|done].
    apply split_after_silent in Htr as (m2 & -> & Htr); [|done].
    destruct (shutdown_trace_silent (reverse (_bootedProviders s ++ pre)))
      as (HS1 & HS2 & _).
    apply boot_trace_split in Htr
      as [(front & back & -> & -> & ->)|(m' & -> & Htr)].
    + apply (Hgoal front (back ++ p' :: post)).
      * by rewrite Hsplit, <- app_assoc.
      * done.
      * change (BootCompleted p :: boot_trace back ++ BootCalled p' :: ?x)
          with ([BootCompleted p] ++ boot_trace back ++ [BootCalled p'] ++ x).
        rewrite !register_calls_app, HS1.
        by destruct (boot_trace_silent back) as (-> & _).
    + destruct m' as [|x m']; simpl in Htr.
      * injection Htr as -> <-.
        apply (Hgoal pre post); [done|by rewrite app_nil_r|done].
      * injection Htr as _ Htr.
        by destruct (no_boot_call_in _ m' t2 p HS2).
  - rewrite Hrun in Htr.
    apply split_after_silent in Htr as (m1 & -> & Htr); [|done].
    apply split_after_silent in Htr as (m2 & -> & Htr); [|done].
    destruct (quiet_silent _ Hquiet) as (HQ1 & HQ2 & _).
    apply boot_trace_split in Htr
      as [(front & back & Hsplit & -> & ->)|(m' & _ & Htr)].
    + apply (Hgoal front back); [done..|].
      change (BootCompleted p :: boot_trace back ++ rest)
        with ([BootCompleted p] ++ boot_trace back ++ rest).
      rewrite !register_calls_app, HQ1.
      by destruct (boot_trace_silent back) as (-> & _).
    + by destruct (no_boot_call_in _ m' t2 p HQ2).
Qed.

Lemma boot_follows_registration_and_dependencies_witness :
  ∃ sorted front back,
    Sort.topologicalSort (_providers (with_providers three_tier)) = inr sorted ∧
    sorted = front ++ provider "database" ["config"] :: back ∧
    register_calls database_begins = sorted ∧
    register_calls database_goes_on = [] ∧
    boot_events database_begins = boot_trace front ∧
    (∀ d, d ∈ dependencies (provider "database" ["config"]) →
       ∃ q, q ∈ front ∧ name q = d ∧ BootCompleted q ∈ database_begins).
Proof.
  apply (boot_follows_registration_and_dependencies
           (with_providers three_tier) database_begins
           (provider "database" ["config"]) database_goes_on).
  vm_compute. reflexivity.
Defined.

(** ** Cycles *)

Lemma cyclic_sort ps :
  unique_names ps → dependencies_known ps → cyclic ps →
  ∃ sorted remaining,
    Sort.sweep ps = inr sorted ∧
    Sort.topologicalSort ps = inl (CircularDependency remaining) ∧
    remaining = name <$> filter (λ p, p ∉ sorted) ps ∧
    (∀ n, n ∈ remaining ↔ n ∈ names ps ∧ n ∉ names sorted) ∧
    (∀ n, tc (depends_on ps) n n → n ∈ remaining) ∧
    (∀ n d, depends_on ps n d → d ∈ remaining → n ∈ remaining) ∧
    (∀ n, n ∈ remaining → ∃ d, depends_on ps n d ∧ d ∈ remaining).
Proof.
  intros Hunique Hknown Hcyclic.
  destruct (topologicalSort_cyclic ps Hunique Hknown Hcyclic)
    as (sorted & inDegree & Hsweep & Hinv & _ & Hsort).
  assert (filter (λ p, Sort.includes sorted p = false) ps
          = filter (λ p, p ∉ sorted) ps) as Hfilter.
  { apply list_filter_iff. intros p. apply includes_false. }
  rewrite Hfilter in Hsort.
  pose proof (λ n, remaining_names ps sorted inDegree n Hunique Hinv) as Hrem.
  rewrite Hfilter in Hrem.
  exists sorted, (name <$> filter (λ p, p ∉ sorted) ps).
  split; [done|]. split; [done|]. split; [done|]. split; [done|].
  split; [|split].
  - intros n Hcycle. apply Hrem. split; [by apply (reach_source _ _ _ Hcycle)|].
    by apply (cycle_unsorted _ _ _ _ Hinv).
  - intros n d Hd [_ Hun]%Hrem. apply Hrem.
    split; [by apply (depends_on_source _ _ _ Hd)|].
    by apply (dependent_unsorted _ _ _ _ Hinv n d).
  - intros n [Hn Hun]%Hrem.
    destruct (unsorted_blocked _ _ _ Hinv n Hn Hun) as (d & Hd & Hdun).
    exists d. split; [done|]. apply Hrem. split; [|done].
    by apply (Hknown _ _ Hd).
Qed.

Lemma start_sort_throws s e :
  _booted s = false →
  (Emitter.emit "app:starting" (bus s)).2 = inr () →
  Sort.topologicalSort (_providers s) = inl e →
  App.start s = (started s, starting_calls s, inl e).
Proof. intros Hb Hemit Hsort. by rewrite (start_unfold s Hb), Hemit, Hsort. Qed.

(** C4. For a provider set with pairwise distinct names and known
    dependencies whose graph has a cycle, the sweep ends with fewer
    providers sorted than registered and [topologicalSort] throws the
    circular-dependency error; the names in it are exactly those of the
    providers that are not in the sorted array, in the order in which the
    providers were added, and every provider on a cycle is among them;
    [start], unless it returns or fails before sorting, fails with that
    error; and [start] calls neither [register] nor [boot] on any provider.
    For two providers [a] and [b] of distinct names, each of which declares
    the other, the error names exactly [a] and [b]. *)
Theorem cycle_is_reported :
  (∀ s : Application,
     unique_names (_providers s) →
     dependencies_known (_providers s) →
     cyclic (_providers s) →
     ∃ sorted remaining,
       Sort.sweep (_providers s) = inr sorted ∧
       remaining = name <$> filter (λ p, p ∉ sorted) (_providers s) ∧
       (∀ n, tc (depends_on (_providers s)) n n → n ∈ remaining) ∧
       Sort.topologicalSort (_providers s) =
         inl (CircularDependency remaining) ∧
       (_booted s = false →
        (Emitter.emit "app:starting" (bus s)).2 = inr () →
        (App.start s).2 = inl (CircularDependency remaining)) ∧
       register_calls (App.start s).1.2 = [] ∧
       boot_calls (App.start s).1.2 = []) ∧
  (∀ (s : Application) (a b : ServiceProvider),
     _providers s = [a; b] →
     name a ≠ name b →
     dependencies_known [a; b] →
     name b ∈ dependencies a →
     name a ∈ dependencies b →
     Sort.topologicalSort (_providers s) =
       inl (CircularDependency [name a; name b]) ∧
     (_booted s = false →
      (Emitter.emit "app:starting" (bus s)).2 = inr () →
      (App.start s).2 = inl (CircularDependency [name a; name b])) ∧
     register_calls (App.start s).1.2 = [] ∧
     boot_calls (App.start s).1.2 = []).
Proof.
  assert (∀ s remaining,
            Sort.topologicalSort (_providers s) =
              inl (CircularDependency remaining) →
            (_booted s = false →
             (Emitter.emit "app:starting" (bus s)).2 = inr () →
             (App.start s).2 = inl (CircularDependency remaining)) ∧
            register_calls (App.start s).1.2 = [] ∧
            boot_calls (App.start s).1.2 = []) as Hstart.
  { intros s remaining Hsort. split.
    - intros Hb Hemit. by rewrite (start_sort_throws s _ Hb Hemit Hsort).
    - assert (Forall quiet (App.start s).1.2) as Hquiet.
      { apply start_unsorted. right. right. eauto. }
      by destruct (quiet_silent _ Hquiet) as (-> & -> & _). }
  split.
  - intros s Hunique Hknown Hcyclic.
    destruct (cyclic_sort _ Hunique Hknown Hcyclic)
      as (sorted & remaining & Hsweep & Hsort & Hrem & _ & Hcycle & _).
    exists sorted, remaining. split; [done|]. split; [done|].
    split; [done|]. split; [done|]. by apply Hstart.
  - intros s a b Hps Hne Hknown Hab Hba.
    assert (unique_names [a; b]) as Hunique.
    { unfold unique_names. simpl. constructor.
      - by intros Heq%list_elem_of_singleton.
      - constructor; [apply not_elem_of_nil|constructor]. }
    assert (depends_on [a; b] (name a) (name b)) as Hdab.
    { exists a. split; [left|done]. }
    assert (depends_on [a; b] (name b) (name a)) as Hdba.
    { exists b. split; [right; left|done]. }
    assert (cyclic [a; b]) as Hcyclic.
    { exists (name a). by apply tc_l with (name b), tc_once. }
    rewrite Hps.
    destruct (cyclic_sort _ Hunique Hknown Hcyclic)
      as (sorted & remaining & Hsweep & Hsort & Hrem & Hnames & Hcycle & _).
    assert (a ∉ sorted) as Ha.
    { intros Hin. apply (proj1 (Hnames (name a))).
      - apply Hcycle. by apply tc_l with (name b), tc_once.
      - by apply list_elem_of_fmap_2. }
    assert (b ∉ sorted) as Hb.
    { intros Hin. apply (proj1 (Hnames (name b))).
      - apply Hcycle. by apply tc_l with (name a), tc_once.
      - by apply list_elem_of_fmap_2. }
    rewrite !filter_cons, filter_nil, !decide_True in Hrem by done.
    simpl in Hrem. subst remaining.
    split; [done|]. apply Hstart. by rewrite Hps.
Qed.

Lemma cycle_is_reported_witness :
  Sort.topologicalSort [chicken; egg] =
    inl (CircularDependency ["chicken"; "egg"]) ∧
  (App.start (with_providers [chicken; egg])).2 =
    inl (CircularDependency ["chicken"; "egg"]) ∧
  boot_calls (App.start (with_providers [chicken; egg])).1.2 = [].
Proof.
  destruct (proj2 cycle_is_reported (with_providers [chicken; egg]) chicken egg)
    as (Hsort & Hstart & _ & Hboot).
  - reflexivity.
  - vm_compute. discriminate.
  - intros n d (p & Hp & <- & Hd).
    repeat (apply elem_of_cons in Hp as [->|Hp]);
      [| |by apply elem_of_nil in Hp];
      apply list_elem_of_singleton in Hd as ->; vm_compute;
      [right; left|left].
  - left.
  - left.
  - split; [exact Hsort|]. split; [|exact Hboot]. by apply Hstart.
Defined.

(** ** Running [shutdown] *)

Lemma removeEach_run n s : App.removeEach n s = (s, removal_trace n, inr ()).
Proof.
  induction n as [|n IH]; [done|]. simpl.
  unfold mbind at 1, App.M_bind at 1, App.tell at 1.
  unfold mbind at 1, App.M_bind at 1, App.tell at 1.
  by rewrite IH.
Qed.

Lemma removal_trace_quiet n : Forall quiet (removal_trace n).
Proof. induction n as [|n IH]; [constructor|]. by repeat constructor. Qed.

Lemma shutdown_idle s :
  _shuttingDown s = true → App.shutdown s = (s, [], inr ()).
Proof.
  intros Hflag. unfold App.shutdown.
  unfold mbind at 1, App.M_bind at 1, App.gets at 1. by rewrite Hflag.
Qed.

Lemma shutdown_unfold s :
  _shuttingDown s = false →
  App.shutdown s =
  match (Emitter.emit "app:shutdown" (bus s)).2 with
  | inl err => (stopping s, stopping_calls s, inl err)
  | inr _ =>
      let terminated := Emitter.emit "app:terminated" (bus (stopped s)) in
      (App.set_bus terminated.1.1 (stopped s),
       stopping_calls s ++ [TimerSet SHUTDOWN_TIMEOUT] ++
         shutdown_trace (reverse (_bootedProviders s)) ++ [TimerCleared] ++
         removal_trace (_signalHandlers s) ++
         (ListenerCalled "app:terminated" <$> terminated.1.2),
       terminated.2)
  end.
Proof.
  intros Hflag. unfold App.shutdown.
  unfold mbind at 1, App.M_bind at 1, App.gets at 1. rewrite Hflag.
  unfold mbind at 1, App.M_bind at 1, App.modify at 1.
  unfold mbind at 1, App.M_bind at 1. rewrite emit_run.
  change (App.set_bus _ (App.set_shuttingDown true s)) with (stopping s).
  change (ListenerCalled "app:shutdown" <$> _) with (stopping_calls s).
  change (bus (App.set_shuttingDown true s)) with (bus s).
  destruct (Emitter.emit "app:shutdown" (bus s)).2 as [err|[]]; [done|].
  unfold mbind at 1, App.M_bind at 1, App.tell at 1.
  unfold mbind at 1, App.M_bind at 1, App.tryFinally.
  rewrite shutdownProviders_run.
  unfold mbind at 1, App.M_bind at 1, App.tell at 1.
  unfold mbind at 1, App.M_bind at 1, App.removeSignalHandlers.
  unfold mbind at 1, App.M_bind at 1, App.gets at 1.
  unfold mbind at 1, App.M_bind at 1. rewrite removeEach_run.
  unfold App.modify at 1.
  unfold mbind at 1, App.M_bind at 1, App.modify at 1.
  unfold App.modify at 1.
  rewrite emit_run. simpl. by rewrite !app_nil_r, <- !app_assoc.
Qed.

(** A [start] that leaves the application booted has booted every sorted
    provider, and the list of booted providers has grown by them in the
    order in which their boots completed. *)
Lemma start_booted_list s :
  _booted s = false →
  _booted (App.start s).1.1 = true →
  _bootedProviders (App.start s).1.1 =
    _bootedProviders s ++ boot_completions (App.start s).1.2 ∧
  _shuttingDown (App.start s).1.1 = _shuttingDown s.
Proof.
  intros Hb Hafter.
  destruct (Emitter.emit "app:starting" (bus s)).2 as [e|[]] eqn:Hemit.
  { rewrite (start_unfold s Hb), Hemit in Hafter. simpl in Hafter. congruence. }
  destruct (Sort.topologicalSort (_providers s)) as [e|sorted] eqn:Hsort.
  { rewrite (start_sort_throws s e Hb Hemit Hsort) in Hafter.
    simpl in Hafter. congruence. }
  destruct (start_shape s sorted Hb Hemit Hsort)
    as [(pre & p & post & reason & _ & _ & _ & Hrun)|
        [(Hreg & pre & p & post & reason & _ & _ & _ & Hrun)|
         (Hreg & Hboot & rest & Hquiet & Hrun & _ & Hlist & Hflag)]].
  - rewrite Hrun in Hafter. simpl in Hafter. congruence.
  - rewrite Hrun in Hafter. simpl in Hafter. congruence.
  - split; [|done]. rewrite Hlist, Hrun. f_equal.
    rewrite !boot_completions_app.
    destruct (quiet_silent _ (starting_calls_quiet s)) as (_ & _ & -> & _).
    destruct (registered_silent sorted) as (_ & _ & -> & _).
    destruct (boot_trace_silent sorted) as (_ & _ & -> & _).
    destruct (quiet_silent _ Hquiet) as (_ & _ & -> & _).
    by rewrite app_nil_r.
Qed.

(** What [shutdown] does when it is not a repeated call and the shutdown
    event is published without error: it calls [shutdown] on exactly the
    providers of the booted list, in the reverse of that list's order; a
    call that throws is reported on the console and every provider still
    receives its call, whatever the others do; the error of a provider
    never leaves [shutdown]; and the list is left empty and both flags
    reset. The booted list is the record of the boots that completed:
    after a [start] that boots an application whose list was empty, it
    holds the providers in the order in which their boots completed, so
    the shutdown calls are the reverse of the realised boot-completion
    order. *)
Lemma shutdown_reverses_boot_order :
  (∀ s : Application,
     _shuttingDown s = false →
     (Emitter.emit "app:shutdown" (bus s)).2 = inr () →
     shutdown_calls (App.shutdown s).1.2 = reverse (_bootedProviders s) ∧
     console_errors (App.shutdown s).1.2 =
       shutdown_errors (reverse (_bootedProviders s)) ∧
     (App.shutdown s).2 =
       (Emitter.emit "app:terminated" (bus (stopped s))).2 ∧
     _bootedProviders (App.shutdown s).1.1 = [] ∧
     App.isBooted (App.shutdown s).1.1 = false ∧
     App.isShuttingDown (App.shutdown s).1.1 = false) ∧
  (∀ s0 : Application,
     _booted s0 = false →
     _bootedProviders s0 = [] →
     _shuttingDown s0 = false →
     _booted (App.start s0).1.1 = true →
     (Emitter.emit "app:shutdown" (bus (App.start s0).1.1)).2 = inr () →
     shutdown_calls (App.shutdown (App.start s0).1.1).1.2 =
       reverse (boot_completions (App.start s0).1.2)).
Proof.
  assert (∀ s : Application,
     _shuttingDown s = false →
     (Emitter.emit "app:shutdown" (bus s)).2 = inr () →
     shutdown_calls (App.shutdown s).1.2 = reverse (_bootedProviders s) ∧
     console_errors (App.shutdown s).1.2 =
       shutdown_errors (reverse (_bootedProviders s)) ∧
     (App.shutdown s).2 =
       (Emitter.emit "app:terminated" (bus (stopped s))).2 ∧
     _bootedProviders (App.shutdown s).1.1 = [] ∧
     App.isBooted (App.shutdown s).1.1 = false ∧
     App.isShuttingDown (App.shutdown s).1.1 = false) as Hdown.
  { intros s Hflag Hemit. rewrite (shutdown_unfold s Hflag), Hemit.
    cbn [fst snd].
    assert (Forall quiet (stopping_calls s)) as Hq1
      by (apply Forall_fmap, Forall_forall; by intros).
    assert (Forall quiet
              (ListenerCalled "app:terminated" <$>
                 (Emitter.emit "app:terminated" (bus (stopped s))).1.2)) as Hq2
      by (apply Forall_fmap, Forall_forall; by intros).
    destruct (quiet_silent _ Hq1) as (_ & _ & _ & HA4 & HA5 & _).
    destruct (quiet_silent _ Hq2) as (_ & _ & _ & HB4 & HB5 & _).
    destruct (quiet_silent _ (removal_trace_quiet (_signalHandlers s)))
      as (_ & _ & _ & HC4 & HC5 & _).
    destruct (shutdown_trace_silent (reverse (_bootedProviders s)))
      as (_ & _ & _ & HD4 & HD5 & _).
    rewrite !shutdown_calls_app, !console_errors_app.
    rewrite HA4, HA5, HB4, HB5, HC4, HC5, HD4, HD5. simpl.
    by rewrite !app_nil_r. }
  split; [exact Hdown|].
  intros s0 Hb Hlist Hflag Hafter Hemit.
  destruct (start_booted_list s0 Hb Hafter) as [Hbooted Hflag'].
  rewrite Hlist in Hbooted. simpl in Hbooted. rewrite <- Hbooted.
  apply Hdown; [congruence|done].
Qed.

Lemma shutdown_reverses_boot_order_witness :
  shutdown_calls
    (App.shutdown (App.start (with_providers leaky_tier)).1.1).1.2 =
    reverse (boot_completions (App.start (with_providers leaky_tier)).1.2) ∧
  shutdown_calls
    (App.shutdown (App.start (with_providers leaky_tier)).1.1).1.2 =
    [provider "auth" ["database"]; leaky_database; provider "config" []] ∧
  console_errors
    (App.shutdown (App.start (with_providers leaky_tier)).1.1).1.2 =
    [("database", Raised "pool still busy")].
Proof.
  split; [|split].
  - apply (proj2 shutdown_reverses_boot_order (with_providers leaky_tier));
      vm_compute; reflexivity.
  - vm_compute. reflexivity.
  - vm_compute. reflexivity.
Defined.

(** C3. The code breaks the claim, and the docstring of [shutdown]
    (it "calls shutdown() on every booted provider in reverse boot
    order"), when a listener of the shutdown event throws. In the
    application below Config, Database and Auth have completed their boot,
    in this order, and are its booted providers, and one listener of the
    shutdown event throws. [shutdown] then throws what the listener threw
    and calls [shutdown] on no provider: the three providers stay booted,
    and a further [shutdown] calls none of them either. *)
Theorem shutdown_skips_the_booted_providers :
  boot_completions (App.start (with_providers three_tier)).1.2 =
    [provider "config" []; provider "database" ["config"];
     provider "auth" ["database"]] ∧
  _bootedProviders vetoed =
    [provider "config" []; provider "database" ["config"];
     provider "auth" ["database"]] ∧
  App.isShuttingDown vetoed = false ∧
  (App.shutdown vetoed).2 = inl (Raised "veto") ∧
  shutdown_calls (App.shutdown vetoed).1.2 = [] ∧
  _bootedProviders (App.shutdown vetoed).1.1 =
    [provider "config" []; provider "database" ["config"];
     provider "auth" ["database"]] ∧
  shutdown_calls (App.shutdown (App.shutdown vetoed).1.1).1.2 = [].
Proof. vm_compute. repeat split; reflexivity. Qed.

(** ** The shutting-down flag *)

Lemma use_run p s :
  App.use p s =
  if _booted s then (s, [], inl (ProviderAfterStart (name p)))
  else (App.set_providers (_providers s ++ [p]) s, [], inr ()).
Proof.
  unfold App.use. unfold mbind at 1, App.M_bind at 1, App.gets at 1.
  by destruct (_booted s).
Qed.

Lemma onBooted_run cb s :
  App.onBooted cb s =
  if _booted s then
    (s, [CallbackCalled cb],
     match answer cb with
     | ThrowsNow reason => inl (Raised reason)
     | _ => inr ()
     end)
  else (App.set_bootedCallbacks (_bootedCallbacks s ++ [cb]) s, [], inr ()).
Proof.
  unfold App.onBooted. unfold mbind at 1, App.M_bind at 1, App.gets at 1.
  destruct (_booted s); [|done].
  unfold mbind at 1, App.M_bind at 1, App.tell at 1. by destruct (answer cb).
Qed.

(** [start] never touches the shutting-down flag. *)
Lemma start_keeps_flag s : _shuttingDown (App.start s).1.1 = _shuttingDown s.
Proof.
  destruct (_booted s) eqn:Hb; [by rewrite (start_booted s Hb)|].
  destruct (Emitter.emit "app:starting" (bus s)).2 as [e|[]] eqn:Hemit.
  { by rewrite (start_unfold s Hb), Hemit. }
  destruct (Sort.topologicalSort (_providers s)) as [e|sorted] eqn:Hsort.
  { by rewrite (start_sort_throws s e Hb Hemit Hsort). }
  destruct (start_shape s sorted Hb Hemit Hsort)
    as [(pre & p & post & reason & _ & _ & _ & ->)|
        [(Hreg & pre & p & post & reason & _ & _ & _ & ->)|
         (Hreg & Hboot & rest & Hquiet & Hrun & _ & Hlist & Hflag)]]; done.
Qed.

(** Once the flag is set, no call clears it. *)
Lemma perform_keeps_flag c s :
  _shuttingDown s = true → _shuttingDown (perform c s).1.1 = true.
Proof.
  intros Hflag. destruct c as [p|cb| | |change]; simpl.
  - rewrite use_run. by destruct (_booted s).
  - rewrite onBooted_run. by destruct (_booted s).
  - by rewrite start_keeps_flag.
  - by rewrite (shutdown_idle s Hflag).
  - done.
Qed.

(** On a booted application with the flag set, no call shuts a provider
    down or changes the list of booted providers. *)
Lemma perform_wedged c s :
  _booted s = true → _shuttingDown s = true →
  _booted (perform c s).1.1 = true ∧
  _shuttingDown (perform c s).1.1 = true ∧
  _bootedProviders (perform c s).1.1 = _bootedProviders s ∧
  shutdown_calls (perform c s).1.2 = [].
Proof.
  intros Hb Hflag. destruct c as [p|cb| | |change]; simpl.
  - by rewrite use_run, Hb.
  - by rewrite onBooted_run, Hb.
  - by rewrite (start_booted s Hb).
  - by rewrite (shutdown_idle s Hflag).
  - done.
Qed.

Lemma perform_all_keeps_flag calls : ∀ s,
  _shuttingDown s = true → _shuttingDown (perform_all calls s).1 = true.
Proof.
  induction calls as [|c calls IH]; intros s Hflag; [done|].
  simpl. by apply IH, perform_keeps_flag.
Qed.

Lemma perform_all_wedged calls : ∀ s,
  _booted s = true → _shuttingDown s = true →
  _booted (perform_all calls s).1 = true ∧
  _bootedProviders (perform_all calls s).1 = _bootedProviders s ∧
  shutdown_calls (perform_all calls s).2 = [].
Proof.
  induction calls as [|c calls IH]; intros s Hb Hflag; [done|].
  destruct (perform_wedged c s Hb Hflag) as (Hb' & Hflag' & Hlist & Hcalls).
  destruct (IH _ Hb' Hflag') as (? & Hlist' & Hcalls').
  simpl. rewrite shutdown_calls_app, Hcalls, Hcalls', Hlist', Hlist. done.
Qed.

(** C9. If a subscriber of the shutdown event throws, so that publishing
    the event fails with [e], then [shutdown] throws [e]; all it has done
    is to set the shutting-down flag and to call the subscribers: the
    deadline timer is not set and no provider is shut down; the flag is
    left set, and the booted flag and the list of booted providers are as
    before. From then on the flag stays set whatever is called, so every
    later [shutdown] returns at once, changing nothing and calling
    nothing; and when the application was booted, no later call ever
    shuts a provider down or changes the list of booted providers. *)
Theorem shutdown_event_failure_wedges_shutdown (s : Application) (e : Thrown) :
  _shuttingDown s = false →
  (Emitter.emit "app:shutdown" (bus s)).2 = inl e →
  (App.shutdown s).2 = inl e ∧
  (App.shutdown s).1.2 =
    (ListenerCalled "app:shutdown" <$>
       (Emitter.emit "app:shutdown" (bus s)).1.2) ∧
  (TimerSet SHUTDOWN_TIMEOUT ∉ (App.shutdown s).1.2) ∧
  shutdown_calls (App.shutdown s).1.2 = [] ∧
  App.isShuttingDown (App.shutdown s).1.1 = true ∧
  App.isBooted (App.shutdown s).1.1 = App.isBooted s ∧
  _bootedProviders (App.shutdown s).1.1 = _bootedProviders s ∧
  (∀ calls,
     let later := (perform_all calls (App.shutdown s).1.1).1 in
     _shuttingDown later = true ∧
     App.shutdown later = (later, [], inr ())) ∧
  (∀ calls,
     _booted s = true →
     shutdown_calls (perform_all calls (App.shutdown s).1.1).2 = [] ∧
     _bootedProviders (perform_all calls (App.shutdown s).1.1).1 =
       _bootedProviders s).
Proof.
  intros Hflag Hemit. rewrite (shutdown_unfold s Hflag), Hemit. cbn [fst snd].
  fold (stopping_calls s).
  assert (Forall quiet (stopping_calls s)) as Hquiet
    by (apply Forall_fmap, Forall_forall; by intros).
  split; [done|]. split; [done|]. split; [|split].
  - by intros (fn & ? & _)%list_elem_of_fmap.
  - by destruct (quiet_silent _ Hquiet) as (_ & _ & _ & -> & _).
  - split; [done|]. split; [done|]. split; [done|]. split.
    + intros calls. cbv zeta.
      assert (_shuttingDown (perform_all calls (stopping s)).1 = true)
        as Hlater by (by apply perform_all_keeps_flag).
      split; [done|]. by apply shutdown_idle.
    + intros calls Hb.
      by destruct (perform_all_wedged calls (stopping s)) as (_ & -> & ->).
Qed.

Lemma shutdown_event_failure_wedges_shutdown_witness :
  (App.shutdown vetoed).2 = inl (Raised "veto") ∧
  shutdown_calls
    (perform_all [CallShutdown; CallShutdown] (App.shutdown vetoed).1.1).2 = [] ∧
  _bootedProviders
    (perform_all [CallShutdown; CallShutdown] (App.shutdown vetoed).1.1).1 =
    _bootedProviders vetoed.
Proof.
  destruct (shutdown_event_failure_wedges_shutdown vetoed (Raised "veto"))
    as (Hthrown & _ & _ & _ & _ & _ & _ & _ & Hlater).
  - vm_compute. reflexivity.
  - vm_compute. reflexivity.
  - split; [exact Hthrown|].
    apply (Hlater [CallShutdown; CallShutdown]). vm_compute. reflexivity.
Defined.

(** ** The event bus *)

Lemma listenerCount_subscribers st event :
  Emitter.listenerCount event st = length (subscribers st event).
Proof.
  unfold Emitter.listenerCount, subscribers.
  by destruct (JsMap.get (Emitter._listeners st) event).
Qed.

Lemma first_rejection_none called :
  Forall settles called → first_rejection called = inr ().
Proof.
  unfold first_rejection. induction 1 as [|fn l Hfn _ IH]; [done|].
  simpl. assert (Emitter.settle fn = Fulfilled) as ->; [|exact IH].
  unfold Emitter.settle. by rewrite Hfn.
Qed.

Lemma first_rejection_first before fn after reason :
  Forall settles before → fails fn reason →
  first_rejection (before ++ fn :: after) = inl (Raised reason).
Proof.
  unfold first_rejection. intros Hbefore Hfn.
  induction Hbefore as [|g l Hg _ IH]; simpl.
  - assert (Emitter.settle fn = Rejected reason) as ->; [|done].
    unfold Emitter.settle. by destruct Hfn as [-> | ->].
  - assert (Emitter.settle g = Fulfilled) as ->; [|exact IH].
    unfold Emitter.settle. by rewrite Hg.
Qed.

Lemma filter_all {A} (P : A → Prop) `{!∀ x, Decision (P x)} (l : list A) :
  (∀ x, x ∈ l → P x) → filter P l = l.
Proof.
  induction l as [|x l IH]; intros Hall; [done|].
  rewrite filter_cons_True by (apply Hall; left).
  f_equal. apply IH. intros y Hy. apply Hall. by right.
Qed.

(** The loop over the snapshot clears the marker of every listener of the
    snapshot, and takes out of the live set those that carried it. *)
Lemma dropOnce_spec listeners : ∀ (once : gset Listener) (set : list Listener),
  Emitter.dropOnce listeners once set =
  (once ∖ list_to_set listeners,
   filter (λ fn, ¬ (fn ∈ once ∧ fn ∈ listeners)) set).
Proof.
  unfold Emitter.dropOnce.
  induction listeners as [|fn l IH]; intros once set.
  - simpl. f_equal; [set_solver|].
    symmetry. apply filter_all. intros x _ [_ Hx]. by apply elem_of_nil in Hx.
  - simpl. destruct (decide (fn ∈ once)) as [Hfn|Hfn]; rewrite IH; f_equal.
    + set_solver.
    + unfold JsSet.delete. rewrite list_filter_filter.
      apply list_filter_iff. intros x. rewrite elem_of_cons. set_solver.
    + set_solver.
    + apply list_filter_iff. intros x. rewrite elem_of_cons. set_solver.
Qed.

Lemma filter_ext_elem {A} (P Q : A → Prop)
    `{!∀ x, Decision (P x)} `{!∀ x, Decision (Q x)} (l : list A) :
  (∀ x, x ∈ l → P x ↔ Q x) → filter P l = filter Q l.
Proof.
  induction l as [|x l IH]; intros Hext; [done|].
  rewrite !filter_cons.
  destruct (decide (P x)) as [HP|HP], (decide (Q x)) as [HQ|HQ].
  - f_equal. apply IH. intros y Hy. apply Hext. by right.
  - destruct HQ. apply Hext; [left|done].
  - destruct HP. apply Hext; [left|done].
  - apply IH. intros y Hy. apply Hext. by right.
Qed.

(** [emit] in one equation. *)
Lemma emit_explicit st event :
  Emitter.emit event st =
  match subscribers st event with
  | [] => (st, [], inr ())
  | _ :: _ =>
      ({| Emitter._listeners :=
            if decide (length (survivors st event) = 0%nat)
            then JsMap.remove (Emitter._listeners st) event
            else JsMap.set (Emitter._listeners st) event (survivors st event);
          Emitter._once :=
            Emitter._once st ∖ list_to_set (subscribers st event) |},
       subscribers st event,
       first_rejection (subscribers st event))
  end.
Proof.
  unfold Emitter.emit, survivors, subscribers.
  destruct (JsMap.get (Emitter._listeners st) event) as [set|]; [|done].
  simpl. destruct set as [|fn set]; [done|].
  rewrite decide_False by done. rewrite dropOnce_spec.
  assert (filter (λ x, ¬ (x ∈ Emitter._once st ∧ x ∈ fn :: set)) (fn :: set)
          = filter (λ x, x ∉ Emitter._once st) (fn :: set)) as ->; [|done].
  apply filter_ext_elem. intros x Hx. split; [|by intros ? [? _]].
  intros Hnot Hin. by apply Hnot.
Qed.

Lemma emit_called st event :
  (Emitter.emit event st).1.2 = subscribers st event.
Proof. rewrite emit_explicit. by destruct (subscribers st event). Qed.

Lemma emit_result st event :
  (Emitter.emit event st).2 = first_rejection (subscribers st event).
Proof. rewrite emit_explicit. by destruct (subscribers st event). Qed.

Lemma emit_once st event :
  Emitter._once (Emitter.emit event st).1.1 =
  Emitter._once st ∖ list_to_set (subscribers st event).
Proof.
  rewrite emit_explicit. destruct (subscribers st event); [|done].
  simpl. set_solver.
Qed.

Lemma emit_subscribers st event :
  subscribers (Emitter.emit event st).1.1 event = survivors st event.
Proof.
  rewrite emit_explicit. unfold survivors.
  destruct (subscribers st event) as [|fn l] eqn:Hsub; [exact Hsub|].
  unfold subscribers at 1. simpl. case_decide as Hlen.
  - rewrite JsMap_get_remove, decide_True by done. simpl.
    symmetry. by apply length_zero_iff_nil.
  - by rewrite JsMap_get_set_eq.
Qed.

Lemma emit_subscribers_other st event event' :
  event ≠ event' →
  subscribers (Emitter.emit event st).1.1 event' = subscribers st event'.
Proof.
  intros Hne. rewrite emit_explicit.
  destruct (subscribers st event) as [|fn l]; [done|].
  unfold subscribers at 1. simpl. case_decide.
  - by rewrite JsMap_get_remove, decide_False.
  - by rewrite JsMap_get_set_ne.
Qed.

Lemma on_subscribers st event fn :
  subscribers (Emitter.on event fn st) event =
  JsSet.add fn (subscribers st event).
Proof. unfold subscribers, Emitter.on. simpl. by rewrite JsMap_get_set_eq. Qed.

Lemma on_subscribers_other st event event' fn :
  event ≠ event' →
  subscribers (Emitter.on event fn st) event' = subscribers st event'.
Proof.
  intros Hne. unfold subscribers, Emitter.on. simpl.
  by rewrite JsMap_get_set_ne.
Qed.

Lemma on_once st event fn :
  Emitter._once (Emitter.on event fn st) = Emitter._once st.
Proof. done. Qed.

Lemma off_once st event fn :
  Emitter._once (Emitter.off event fn st) = Emitter._once st.
Proof.
  unfold Emitter.off. by destruct (JsMap.get (Emitter._listeners st) event).
Qed.

Lemma off_subscribers st event fn :
  subscribers (Emitter.off event fn st) event =
  JsSet.delete fn (subscribers st event).
Proof.
  unfold subscribers, Emitter.off.
  destruct (JsMap.get (Emitter._listeners st) event) as [set|] eqn:Hget.
  - simpl. case_decide as Hlen.
    + rewrite JsMap_get_remove, decide_True by done. simpl.
      symmetry. by apply length_zero_iff_nil.
    + by rewrite JsMap_get_set_eq.
  - by rewrite Hget.
Qed.

Lemma once_once st event fn :
  Emitter._once (Emitter.once event fn st) = Emitter._once st ∪ {[fn]}.
Proof. done. Qed.

Lemma once_subscribers st event fn :
  subscribers (Emitter.once event fn st) event =
  JsSet.add fn (subscribers st event).
Proof. unfold Emitter.once. by rewrite on_subscribers. Qed.

Lemma once_subscribers_other st event event' fn :
  event ≠ event' →
  subscribers (Emitter.once event fn st) event' = subscribers st event'.
Proof. intros Hne. unfold Emitter.once. by rewrite on_subscribers_other. Qed.

Lemma elem_of_JsSet_add (fn x : Listener) (s : list Listener) :
  x ∈ JsSet.add fn s ↔ x = fn ∨ x ∈ s.
Proof.
  unfold JsSet.add. case_decide as Hin.
  - split; [by right|]. by intros [->|?].
  - rewrite elem_of_app, list_elem_of_singleton. tauto.
Qed.

(** A listener with the marker is called by the next emit of an event it
    is subscribed to, and leaves both the live set of that event and the
    marker set before any listener is called: the state the listeners run
    in is the one [emit] returns. *)
Lemma emit_marked st event fn :
  fn ∈ Emitter._once st → fn ∈ subscribers st event →
  fn ∈ (Emitter.emit event st).1.2 ∧
  (fn ∉ subscribers (Emitter.emit event st).1.1 event) ∧
  fn ∉ Emitter._once (Emitter.emit event st).1.1.
Proof.
  intros Honce Hsub. rewrite emit_called, emit_subscribers, emit_once.
  split; [done|]. split.
  - unfold survivors. by intros [? _]%list_elem_of_filter.
  - set_solver.
Qed.

(** A listener without the marker is called by every emit of an event it
    is subscribed to and stays as it is. *)
Lemma emit_unmarked st event fn :
  fn ∉ Emitter._once st → fn ∈ subscribers st event →
  fn ∈ (Emitter.emit event st).1.2 ∧
  fn ∈ subscribers (Emitter.emit event st).1.1 event ∧
  fn ∉ Emitter._once (Emitter.emit event st).1.1.
Proof.
  intros Honce Hsub. rewrite emit_called, emit_subscribers, emit_once.
  split; [done|]. split.
  - unfold survivors. by apply list_elem_of_filter.
  - set_solver.
Qed.

(** C6. [emit] on an event without subscribers changes nothing, calls
    nothing and returns without error. Otherwise it calls every listener
    of the snapshot, whatever the others do, in the order of the [Set],
    which is the order of registration ([on] puts a new listener last and
    leaves a present one where it is); if all of them settle it returns
    without error, and if some fail (by throwing or by a rejected promise)
    it throws the reason of the first one that fails in that order. *)
Theorem emit_settles_all (st : Emitter.State) (event : string) :
  (Emitter.listenerCount event st = 0%nat →
   Emitter.emit event st = (st, [], inr ())) ∧
  (Emitter.emit event st).1.2 = subscribers st event ∧
  (Forall settles (subscribers st event) →
   (Emitter.emit event st).2 = inr ()) ∧
  (∀ before fn after reason,
     subscribers st event = before ++ fn :: after →
     Forall settles before → fails fn reason →
     (Emitter.emit event st).2 = inl (Raised reason)) ∧
  (∀ fn,
     subscribers (Emitter.on event fn st) event =
     if decide (fn ∈ subscribers st event) then subscribers st event
     else subscribers st event ++ [fn]).
Proof.
  split; [|split; [|split; [|split]]].
  - rewrite listenerCount_subscribers, emit_explicit.
    by destruct (subscribers st event).
  - apply emit_called.
  - intros Hall. rewrite emit_result. by apply first_rejection_none.
  - intros before fn after reason Hsplit Hbefore Hfn.
    rewrite emit_result, Hsplit. by apply first_rejection_first.
  - intros fn. by rewrite on_subscribers.
Qed.

Lemma emit_settles_all_witness :
  (Emitter.emit "saved" two_listeners).1.2 = [L1; L2] ∧
  (Emitter.emit "saved" two_listeners).2 = inl (Raised "e1").
Proof.
  destruct (emit_settles_all two_listeners "saved")
    as (_ & Hcalled & _ & Hfirst & _).
  split; [exact Hcalled|].
  apply (Hfirst [] L1 [L2] "e1"); [reflexivity|constructor|by left].
Defined.

Lemma emits_unmarked n st event fn :
  fn ∉ Emitter._once st → fn ∈ subscribers st event →
  (fn ∉ Emitter._once (emits n event st)) ∧
  fn ∈ subscribers (emits n event st) event.
Proof.
  intros Honce Hsub. induction n as [|n [IH1 IH2]]; [done|].
  simpl. destruct (emit_unmarked _ event fn IH1 IH2) as (_ & ? & ?). done.
Qed.

(** C10. The single-fire marker belongs to the listener function, not to
    the pair of an event and a listener. It survives [off] followed by
    [on]: a function registered with [once], removed with [off] and
    registered again with [on] is called by the next emit and taken out of
    the live set by it, as a single-fire listener is. And when a function
    with the marker is subscribed to two events, the first emit of one of
    them calls it, consumes the marker and removes it from the set of that
    event only; for the other event it is from then on an ordinary
    listener: every later emit of that event calls it and leaves it
    subscribed. *)
Theorem once_marker_follows_the_function :
  (∀ st event event' fn,
     fn ∈ Emitter._once st →
     fn ∈ Emitter._once (Emitter.on event' fn (Emitter.off event fn st))) ∧
  (∀ st event fn,
     let st1 :=
       Emitter.on event fn (Emitter.off event fn (Emitter.once event fn st)) in
     fn ∈ (Emitter.emit event st1).1.2 ∧
     (fn ∉ subscribers (Emitter.emit event st1).1.1 event) ∧
     fn ∉ (Emitter.emit event (Emitter.emit event st1).1.1).1.2) ∧
  (∀ st event other fn,
     event ≠ other →
     fn ∈ Emitter._once st →
     fn ∈ subscribers st event →
     fn ∈ subscribers st other →
     let st1 := (Emitter.emit event st).1.1 in
     fn ∈ (Emitter.emit event st).1.2 ∧
     (fn ∉ Emitter._once st1) ∧
     (fn ∉ subscribers st1 event) ∧
     fn ∈ subscribers st1 other ∧
     ∀ n, fn ∈ (Emitter.emit other (emits n other st1)).1.2 ∧
          fn ∈ subscribers (Emitter.emit other (emits n other st1)).1.1 other).
Proof.
  split; [|split].
  - intros st event event' fn Hfn. by rewrite on_once, off_once.
  - intros st event fn st1.
    assert (fn ∈ Emitter._once st1) as Honce.
    { unfold st1. rewrite on_once, off_once, once_once. set_solver. }
    assert (fn ∈ subscribers st1 event) as Hsub.
    { unfold st1. rewrite on_subscribers. apply elem_of_JsSet_add. by left. }
    destruct (emit_marked st1 event fn Honce Hsub) as (Hcalled & Hgone & _).
    split; [done|]. split; [done|]. by rewrite emit_called.
  - intros st event other fn Hne Honce Hsub Hother st1.
    destruct (emit_marked st event fn Honce Hsub) as (Hcalled & Hgone & Hmark).
    assert (fn ∈ subscribers st1 other) as Hstays.
    { unfold st1. by rewrite emit_subscribers_other. }
    split; [done|]. split; [done|]. split; [done|]. split; [done|].
    intros n.
    destruct (emits_unmarked n st1 other fn Hmark Hstays) as [Hn1 Hn2].
    destruct (emit_unmarked _ other fn Hn1 Hn2) as (? & ? & _). done.
Qed.

Lemma once_marker_follows_the_function_witness :
  greeter ∈ (Emitter.emit "opened" twice_once).1.2 ∧
  (greeter ∉ subscribers (Emitter.emit "opened" twice_once).1.1 "opened") ∧
  greeter ∈
    (Emitter.emit "closed"
       (emits 2 "closed" (Emitter.emit "opened" twice_once).1.1)).1.2.
Proof.
  destruct (proj2 (proj2 once_marker_follows_the_function)
              twice_once "opened" "closed" greeter)
    as (Hcalled & _ & Hgone & _ & Hlater).
  - discriminate.
  - vm_compute. set_solver.
  - vm_compute. left.
  - vm_compute. left.
  - split; [exact Hcalled|]. split; [exact Hgone|]. apply (Hlater 2%nat).
Defined.

(** C7. The code breaks the claim when the function is registered with
    [once] for two events: the listener below is registered once for
    "opened" and once for "closed"; the emit of "closed" calls it and
    consumes its marker, and from then on every emit of "opened" calls
    it: the first one after the registration, and the second one too. *)
Theorem once_listener_called_again :
  let st0 :=
    Emitter.once "closed" greeter
      (Emitter.once "opened" greeter Emitter.initial) in
  let st1 := (Emitter.emit "closed" st0).1.1 in
  let st2 := (Emitter.emit "opened" st1).1.1 in
  (Emitter.emit "closed" st0).1.2 = [greeter] ∧
  (Emitter.emit "opened" st1).1.2 = [greeter] ∧
  (Emitter.emit "opened" st2).1.2 = [greeter] ∧
  subscribers st2 "opened" = [greeter].
Proof. vm_compute. repeat split; reflexivity. Qed.

(** ** The container *)

Section container_facts.

Import Container.

Implicit Types (st : State) (key : Key).








End container_facts.




Lemma shutdown_consistent s :
  booted_list_consistent s → booted_list_consistent (App.shutdown s).1.1.
Proof.
  intros Hinv.
  destruct (_shuttingDown s) eqn:Hflag; [by rewrite (shutdown_idle s Hflag)|].
  rewrite (shutdown_unfold s Hflag).
  destruct (Emitter.emit "app:shutdown" (bus s)).2 as [e|[]]; [exact Hinv|].
  by intros _.
Qed.

(** The invariant of the list of booted providers holds after any
    sequence of calls on a created application. *)
Lemma perform_all_consistent calls : ∀ s,
  booted_list_consistent s →
  booted_list_consistent (perform_all calls s).1.
Proof.
  induction calls as [|c calls IH]; intros s Hinv; [done|].
  simpl. apply IH. destruct c as [p|cb| | |change]; simpl.
  - rewrite use_run. by destruct (_booted s).
  - rewrite onBooted_run. by destruct (_booted s).
  - by apply start_consistent.
  - by apply shutdown_consistent.
  - exact Hinv.
Qed.

(** ** No method reaches [Unreachable] *)

Lemma resolve_defined key st : (Container.resolve key st).2 ≠ inl Unreachable.
Proof.
  unfold Container.resolve.
  destruct (JsMap.get (Container.factories st) key) as [entry|]; [|done].
  destruct (Container.isSingleton entry).
  - destruct (JsMap.has (Container.instances st) key) eqn:Hhas; simpl.
    + apply JsMap_has_true in Hhas as [v Hv]. by rewrite Hv.
    + unfold Container.execute. destruct (Container.run _ _); simpl; [|done].
      by rewrite JsMap_get_set_eq.
  - unfold Container.execute. by destruct (Container.run _ _).
Qed.

Lemma first_rejection_defined called : first_rejection called ≠ inl Unreachable.
Proof.
  unfold first_rejection.
  by destruct (find _ (Emitter.settle <$> called)) as [[|reason]|].
Qed.

Lemma runCallbacks_defined l s : (App.runCallbacks l s).2 ≠ inl Unreachable.
Proof.
  induction l as [|cb l IH]; simpl; [done|].
  unfold mbind at 1, App.M_bind at 1.
  unfold mbind at 1, App.M_bind at 1, App.tell at 1.
  destruct (answer cb); simpl; try done.
  by destruct (App.runCallbacks l s) as [[s2 t2] r2].
Qed.

Lemma start_defined s : (App.start s).2 ≠ inl Unreachable.
Proof.
  destruct (_booted s) eqn:Hb; [by rewrite (start_booted s Hb)|].
  rewrite (start_unfold s Hb).
  pose proof (first_rejection_defined (subscribers (bus s) "app:starting")) as He.
  rewrite <- emit_result in He.
  destruct (Emitter.emit "app:starting" (bus s)).2 as [e|[]]; [exact He|].
  pose proof (topologicalSort_defined (_providers s)) as Hs.
  destruct (Sort.topologicalSort (_providers s)) as [e|sorted];
    [simpl; intros [= ->]; by destruct Hs|].
  cbn [snd].
  destruct (first_failure registers sorted)
    as [Hreg|(pre & p & post & Hsplit & Hpre & [reason Hp]%not_registers)].
  2:{ by rewrite (phases_register_throws _ _ _ _ _ _ Hsplit Hpre Hp). }
  destruct (first_failure boots sorted)
    as [Hboot|(pre & p & post & Hsplit & Hpre & [reason Hp]%not_boots)].
  2:{ by rewrite (phases_boot_throws _ _ _ _ _ _ Hreg Hsplit Hpre Hp). }
  rewrite (phases_boots _ _ Hreg Hboot). cbn [snd]. rewrite afterBoot_run.
  match goal with |- context [App.runCallbacks ?l ?x] =>
    pose proof (runCallbacks_defined l x) as Hcb;
    destruct (App.runCallbacks l x).2 as [e|[]]; [exact Hcb|]
  end.
  cbn [snd]. rewrite emit_result. apply first_rejection_defined.
Qed.

Lemma shutdown_defined s : (App.shutdown s).2 ≠ inl Unreachable.
Proof.
  destruct (_shuttingDown s) eqn:Hflag; [by rewrite (shutdown_idle s Hflag)|].
  rewrite (shutdown_unfold s Hflag).
  pose proof (first_rejection_defined (subscribers (bus s) "app:shutdown")) as He.
  rewrite <- emit_result in He.
  destruct (Emitter.emit "app:shutdown" (bus s)).2 as [e|[]]; [exact He|].
  cbn [snd]. rewrite emit_result. apply first_rejection_defined.
Qed.

(** * Further properties *)

(** ** The errors of the sort *)

Lemma names_cons p ps : names (p :: ps) = name p :: names ps.
Proof. done. Qed.

Lemma names_app ps qs : names (ps ++ qs) = names ps ++ names qs.
Proof. apply fmap_app. Qed.

Lemma same_name_same_provider ps p q :
  unique_names ps → p ∈ ps → q ∈ ps → name p = name q → p = q.
Proof.
  unfold unique_names. induction ps as [|r l IH]; intros Hnd Hp Hq Hpq.
  { by apply elem_of_nil in Hp. }
  rewrite names_cons in Hnd. apply NoDup_cons in Hnd as [Hr Hl].
  apply elem_of_cons in Hp as [->|Hp], Hq as [->|Hq]; [done| | |by apply IH].
  - destruct Hr. rewrite Hpq. by apply list_elem_of_fmap_2.
  - destruct Hr. rewrite <- Hpq. by apply list_elem_of_fmap_2.
Qed.

Lemma indexByName_repeated pre : ∀ p post (m : Sort.ByName),
  NoDup (names pre) →
  (∀ n, n ∈ names pre → JsMap.get m n = None) →
  name p ∈ names pre ∨ is_Some (JsMap.get m (name p)) →
  Sort.indexByName (pre ++ p :: post) m = inl (DuplicateProviderName (name p)).
Proof.
  induction pre as [|q pre IH]; intros p post m Hnd Hfree Hp; simpl.
  - destruct Hp as [Hp|Hp]; [by apply elem_of_nil in Hp|].
    apply JsMap_has_true in Hp. by rewrite Hp.
  - rewrite names_cons in Hnd, Hfree, Hp.
    apply NoDup_cons in Hnd as [Hq Hnd].
    rewrite (proj2 (JsMap_has_false m (name q))) by (apply Hfree; left).
    apply IH; [done|..].
    + intros n Hn. rewrite JsMap_get_set_ne; [apply Hfree; by right|].
      intros Heq. by subst.
    + destruct Hp as [[Hp|Hp]%elem_of_cons|Hp].
      * right. rewrite Hp, JsMap_get_set_eq. eauto.
      * by left.
      * right. rewrite JsMap_get_set. case_decide; eauto.
Qed.

Lemma sort_repeated_name pre p post :
  unique_names pre → name p ∈ names pre →
  Sort.topologicalSort (pre ++ p :: post) =
    inl (DuplicateProviderName (name p)).
Proof.
  intros Hnd Hp. unfold Sort.topologicalSort, Sort.sweep.
  rewrite (indexByName_repeated pre p post JsMap.empty); [done..| |by left].
  intros n _. apply JsMap_get_empty.
Qed.

Lemma start_refuses s e :
  Sort.topologicalSort (_providers s) = inl e →
  (_booted s = false → (Emitter.emit "app:starting" (bus s)).2 = inr () →
   (App.start s).2 = inl e ∧ _booted (App.start s).1.1 = false ∧
   _bootedProviders (App.start s).1.1 = _bootedProviders s) ∧
  register_calls (App.start s).1.2 = [] ∧
  boot_calls (App.start s).1.2 = [].
Proof.
  intros Hsort. split.
  - intros Hb Hstart. by rewrite (start_sort_throws s e).
  - assert (Forall quiet (App.start s).1.2) as Hq.
    { apply start_unsorted. right; right. eauto. }
    by apply quiet_silent in Hq as (? & ? & _).
Qed.

(** X1. A provider whose name repeats the name of a provider added before
    it is what the sort reports, whatever the dependencies are: the error
    carries the name of the first such provider. [start], when it gets to
    the sort, throws that error, leaves the application un-booted, and
    calls neither [register] nor [boot]. *)
Theorem repeated_name_is_reported (s : Application)
    (pre : list ServiceProvider) (p : ServiceProvider)
    (post : list ServiceProvider) :
  _providers s = pre ++ p :: post →
  unique_names pre →
  name p ∈ names pre →
  Sort.topologicalSort (_providers s) =
    inl (DuplicateProviderName (name p)) ∧
  (_booted s = false →
   (Emitter.emit "app:starting" (bus s)).2 = inr () →
   (App.start s).2 = inl (DuplicateProviderName (name p)) ∧
   _booted (App.start s).1.1 = false ∧
   _bootedProviders (App.start s).1.1 = _bootedProviders s) ∧
  register_calls (App.start s).1.2 = [] ∧
  boot_calls (App.start s).1.2 = [].
Proof.
  intros Hps Hnd Hp.
  assert (Sort.topologicalSort (_providers s) =
          inl (DuplicateProviderName (name p))) as Hsort.
  { rewrite Hps. by apply sort_repeated_name. }
  split; [done|]. by apply start_refuses.
Qed.

Lemma repeated_name_is_reported_witness :
  Sort.topologicalSort
    [provider "config" []; provider "cache" ["config"];
     provider "config" ["cache"]; provider "cache" []] =
    inl (DuplicateProviderName "config").
Proof.
  apply (repeated_name_is_reported
           (with_providers
              [provider "config" []; provider "cache" ["config"];
               provider "config" ["cache"]; provider "cache" []])
           [provider "config" []; provider "cache" ["config"]]
           (provider "config" ["cache"]) [provider "cache" []]).
  - reflexivity.
  - unfold unique_names. simpl. repeat constructor; set_solver.
  - simpl. set_solver.
Defined.

Lemma edges_app ps qs : edges (ps ++ qs) = edges ps ++ edges qs.
Proof. unfold edges. apply bind_app. Qed.

Lemma sweep_unknown_dependency ps pre p post known d rest :
  ps = pre ++ p :: post →
  unique_names ps →
  (∀ q x, q ∈ pre → x ∈ dependencies q → x ∈ names ps) →
  dependencies p = known ++ d :: rest →
  (∀ x, x ∈ known → x ∈ names ps) →
  d ∉ names ps →
  Sort.sweep ps = inl (UnknownDependency (name p) d).
Proof.
  intros Hps Hunique Hpre Hdeps Hknown Hd.
  unfold Sort.sweep. pose proof (indexByName_empty ps) as Hindex.
  destruct (Sort.indexByName ps JsMap.empty) as [e|byName]; simpl.
  { by destruct Hindex as [? _]. }
  destruct Hindex as [_ HbyName].
  assert (∀ n, JsMap.has byName n = true ↔ n ∈ names ps) as Hhas.
  { intros n. rewrite JsMap_has_true. unfold names.
    rewrite list_elem_of_fmap. split.
    - intros [q Hq]. apply HbyName in Hq as [? <-]. eauto.
    - intros (q & -> & Hq). exists q. by apply HbyName. }
  destruct (initTables_spec ps Hunique) as (Hord & Hi0 & Hd0).
  rewrite linkProviders_edges.
  assert (edges ps =
          (edges pre ++ ((λ x, (name p, x)) <$> known)) ++
          (name p, d) :: (((λ x, (name p, x)) <$> rest) ++ edges post))
    as Hedges.
  { rewrite Hps, edges_app, edges_cons, Hdeps, fmap_app, fmap_cons.
    by rewrite <- !app_assoc. }
  rewrite Hedges, linkEdges_app.
  pose proof (linkEdges_spec byName (names ps)
                (edges pre ++ ((λ x, (name p, x)) <$> known)) Hhas) as Hlink.
  specialize (Hlink (λ e He, edges_source ps e
                       ltac:(rewrite Hedges; apply elem_of_app; by left))
                [] (Sort.initTables ps)).
  simpl in Hlink.
  destruct (linkEdges byName (edges pre ++ _) (Sort.initTables ps))
    as [e|[inDegree dependents]]; simpl.
  { destruct Hlink as ([n x] & He & Hx & _).
    - split; [done|]. split.
      + intros n Hn. by rewrite Hi0, decide_True.
      + intros n Hn. by rewrite Hd0, decide_True.
    - destruct Hx. simpl. apply elem_of_app in He as [He|He].
      + apply elem_of_edges in He as (q & Hq & _ & Hx). by apply (Hpre q).
      + apply list_elem_of_fmap in He as (y & [= _ ->] & Hy). by apply Hknown. }
  rewrite (proj2 (JsMap_has_false byName d)); [done|].
  apply JsMap_has_false. destruct (JsMap.has byName d) eqn:Hhd; [|done].
  by apply Hhas in Hhd.
Qed.

(** X2. With pairwise distinct names, the first declared dependency, in
    the order of the providers and of their [dependencies] arrays, that
    names no provider is what the sort reports, together with the provider
    that declares it; a dependency on a provider added later is known.
    [start], when it gets to the sort, throws that error, leaves the
    application un-booted, and calls neither [register] nor [boot]. *)
Theorem unknown_dependency_is_reported (s : Application)
    (pre : list ServiceProvider) (p : ServiceProvider)
    (post : list ServiceProvider) (known : list string) (d : string)
    (rest : list string) :
  _providers s = pre ++ p :: post →
  unique_names (_providers s) →
  (∀ q x, q ∈ pre → x ∈ dependencies q → x ∈ names (_providers s)) →
  dependencies p = known ++ d :: rest →
  (∀ x, x ∈ known → x ∈ names (_providers s)) →
  d ∉ names (_providers s) →
  Sort.topologicalSort (_providers s) =
    inl (UnknownDependency (name p) d) ∧
  (_booted s = false →
   (Emitter.emit "app:starting" (bus s)).2 = inr () →
   (App.start s).2 = inl (UnknownDependency (name p) d) ∧
   _booted (App.start s).1.1 = false ∧
   _bootedProviders (App.start s).1.1 = _bootedProviders s) ∧
  register_calls (App.start s).1.2 = [] ∧
  boot_calls (App.start s).1.2 = [].
Proof.
  intros Hps Hunique Hpre Hdeps Hknown Hd.
  assert (Sort.topologicalSort (_providers s) =
          inl (UnknownDependency (name p) d)) as Hsort.
  { unfold Sort.topologicalSort.
    by rewrite (sweep_unknown_dependency _ pre p post known d rest). }
  split; [done|]. by apply start_refuses.
Qed.

Lemma unknown_dependency_is_reported_witness :
  Sort.topologicalSort
    [provider "cache" ["config"; "redis"; "metrics"]; provider "config" []] =
    inl (UnknownDependency "cache" "redis").
Proof.
  apply (unknown_dependency_is_reported
           (with_providers
              [provider "cache" ["config"; "redis"; "metrics"];
               provider "config" []])
           [] (provider "cache" ["config"; "redis"; "metrics"])
           [provider "config" []] ["config"] "redis" ["metrics"]).
  - reflexivity.
  - unfold unique_names. simpl. repeat constructor; set_solver.
  - intros q x Hq. by apply elem_of_nil in Hq.
  - reflexivity.
  - simpl. set_solver.
  - simpl. set_solver.
Defined.

(** ** A circular-dependency error is raised only for a cycle *)

(** In a finite set of names each of which has a successor in the set, a
    walk comes back to a name it has visited. *)
Lemma walk_closes {A} `{EqDecision A} (R : relation A) (l : list A) :
  (∀ x, x ∈ l → ∃ y, R x y ∧ y ∈ l) →
  ∀ k visited x,
    (length l ≤ k + length visited)%nat →
    NoDup visited → (∀ v, v ∈ visited → v ∈ l) → x ∈ l →
    (∀ v, v ∈ visited → tc R v x) →
    ∃ m, m ∈ l ∧ tc R m m.
Proof.
  intros Hnext k. induction k as [|k IH]; intros visited x Hlen Hnd Hsub Hx Hreach.
  - destruct (decide (x ∈ visited)) as [Hv|Hv]; [by eauto|].
    assert (x :: visited ⊆+ l) as Hle.
    { apply NoDup_submseteq; [by constructor|].
      intros v [->|Hin]%elem_of_cons; [done|by apply Hsub]. }
    apply submseteq_length in Hle. simpl in *. lia.
  - destruct (decide (x ∈ visited)) as [Hv|Hv]; [by eauto|].
    destruct (Hnext x Hx) as (y & Hxy & Hy).
    apply (IH (x :: visited) y); [simpl; lia|by constructor| |done|].
    + intros v [->|Hin]%elem_of_cons; [done|by apply Hsub].
    + intros v [->|Hin]%elem_of_cons; [by apply tc_once|].
      eapply tc_r; [by apply Hreach|done].
Qed.

Lemma blocked_cycle {A} `{EqDecision A} (R : relation A) (l : list A) x :
  (∀ x, x ∈ l → ∃ y, R x y ∧ y ∈ l) → x ∈ l → ∃ m, m ∈ l ∧ tc R m m.
Proof.
  intros Hnext Hx. apply (walk_closes R l Hnext (length l) [] x);
    [simpl; lia|constructor|by intros ? ?%elem_of_nil|done|].
  by intros ? ?%elem_of_nil.
Qed.

Lemma circular_error_has_cycle ps remaining :
  Sort.topologicalSort ps = inl (CircularDependency remaining) →
  unique_names ps ∧ dependencies_known ps ∧
  ∃ n, n ∈ remaining ∧ tc (depends_on ps) n n.
Proof.
  unfold Sort.topologicalSort. pose proof (sweep_cases ps) as Hsweep.
  destruct (Sort.sweep ps) as [e|sorted]; simpl.
  { intros [= ->].
    by destruct Hsweep as [(_ & ? & ? & _)|(_ & _ & ? & ? & ? & _)]. }
  destruct Hsweep as (Hunique & Hknown & inDegree & Hinv).
  case_decide as Hlen; [|done]. intros [= <-].
  split; [done|]. split; [done|].
  assert (∀ n, n ∈ name <$> filter (λ p, Sort.includes sorted p = false) ps ↔
               n ∈ names ps ∧ n ∉ names sorted) as Hrem.
  { intros n. by apply (remaining_names ps sorted inDegree). }
  assert (∃ n, n ∈ names ps ∧ n ∉ names sorted) as (n0 & Hn0 & Hun0).
  { destruct (decide (Forall (λ n, n ∈ names sorted) (names ps))) as [Hall|Hex].
    - rewrite Forall_forall in Hall.
      pose proof (sorted_Permutation _ _ _ Hinv Hunique Hall) as Hperm.
      apply Permutation_length in Hperm. lia.
    - apply not_Forall_Exists in Hex; [|apply _].
      apply Exists_exists in Hex as (n & Hn & Hun). eauto. }
  apply (blocked_cycle (depends_on ps) _ n0).
  - intros x [Hx Hux]%Hrem.
    destruct (unsorted_blocked _ _ _ Hinv x Hx Hux) as (d & Hd & Hdun).
    exists d. split; [done|]. apply Hrem. split; [|done].
    by apply (Hknown _ _ Hd).
  - by apply Hrem.
Qed.

(** X3. What the sort returns tells the three defects of a provider set
    apart, and tells them exactly: it returns an order exactly when the
    names are pairwise distinct, every dependency names a provider and no
    provider reaches itself along dependencies; a duplicate-name error
    means that a name is repeated; an unknown-dependency error names a
    provider of a set with distinct names and a dependency it declares
    that names no provider; and a circular-dependency error is raised only
    when names are distinct, dependencies are known and there is a cycle,
    a provider of which is among the names of the error. *)
Theorem sort_outcome (ps : list ServiceProvider) :
  ((∃ sorted, Sort.topologicalSort ps = inr sorted) ↔
   unique_names ps ∧ dependencies_known ps ∧ acyclic ps) ∧
  (∀ n, Sort.topologicalSort ps = inl (DuplicateProviderName n) →
        ¬ unique_names ps ∧ n ∈ names ps) ∧
  (∀ n d, Sort.topologicalSort ps = inl (UnknownDependency n d) →
          unique_names ps ∧ depends_on ps n d ∧ d ∉ names ps) ∧
  (∀ remaining,
     Sort.topologicalSort ps = inl (CircularDependency remaining) →
     unique_names ps ∧ dependencies_known ps ∧
     ∃ n, n ∈ remaining ∧ tc (depends_on ps) n n) ∧
  (∀ e, Sort.topologicalSort ps = inl e →
        (∃ n, e = DuplicateProviderName n) ∨
        (∃ n d, e = UnknownDependency n d) ∨
        (∃ remaining, e = CircularDependency remaining)).
Proof.
  split; [|split; [|split; [|split]]].
  - split.
    + intros [sorted Hs]. by apply topologicalSort_sound in Hs as (? & ? & ? & _).
    + intros (? & ? & ?). by apply topologicalSort_complete.
  - intros n. unfold Sort.topologicalSort. pose proof (sweep_cases ps) as Hsweep.
    destruct (Sort.sweep ps) as [e|sorted]; simpl; [|by case_decide].
    intros [= ->].
    destruct Hsweep as [(? & ? & [= <-] & ?)|(_ & _ & ? & ? & ? & _)]; done.
  - intros n d. unfold Sort.topologicalSort.
    pose proof (sweep_cases ps) as Hsweep.
    destruct (Sort.sweep ps) as [e|sorted]; simpl; [|by case_decide].
    intros [= ->].
    destruct Hsweep as [(_ & ? & ? & _)|(? & _ & ? & ? & [= <- <-] & ? & ?)];
      done.
  - apply circular_error_has_cycle.
  - intros e. unfold Sort.topologicalSort.
    pose proof (sweep_cases ps) as Hsweep.
    destruct (Sort.sweep ps) as [e'|sorted]; simpl.
    + intros [= <-].
      destruct Hsweep as [(_ & ? & -> & _)|(_ & _ & ? & ? & -> & _)]; eauto.
    + case_decide; [|done]. intros [= <-]. eauto.
Qed.

Lemma sort_outcome_witness :
  ∃ n, n ∈ ["chicken"; "egg"] ∧ tc (depends_on [chicken; egg]) n n.
Proof.
  destruct (sort_outcome [chicken; egg]) as (_ & _ & _ & Hcycle & _).
  apply (Hcycle ["chicken"; "egg"]). reflexivity.
Defined.

(** ** Providers without dependencies come first *)

Lemma relax_extends ds : ∀ queue (i : Sort.InDegree) queue' i',
  Sort.relax ds queue i = inr (queue', i') → ∃ pushed, queue' = queue ++ pushed.
Proof.
  induction ds as [|x ds IH]; intros queue i queue' i'; simpl.
  { intros [= <- <-]. exists []. by rewrite app_nil_r. }
  destruct (JsMap.get i x) as [z|]; simpl; [|done].
  intros Hrelax. apply IH in Hrelax as [pushed ->].
  case_decide; [|by eauto]. exists (x :: pushed). by rewrite <- app_assoc.
Qed.

(** The loop is a queue: what is in the queue is sorted in the order of
    the queue, before anything that is pushed later. *)
Lemma drain_queue_first fuel (byName : Sort.ByName) (dependents : Sort.Dependents) :
  ∀ queue sorted (i : Sort.InDegree) result,
  Sort.drain fuel byName dependents queue sorted i = inr result →
  ∃ queued tail,
    Forall2 (λ n p, JsMap.get byName n = Some p) queue queued ∧
    result = sorted ++ queued ++ tail.
Proof.
  induction fuel as [|fuel IH]; intros queue sorted i result.
  - destruct queue; simpl; [|done]. intros [= <-].
    exists [], []. split; [constructor|by rewrite app_nil_r].
  - destruct queue as [|current queue]; simpl.
    { intros [= <-]. exists [], []. split; [constructor|by rewrite app_nil_r]. }
    destruct (JsMap.get byName current) as [p|] eqn:Hp; simpl; [|done].
    destruct (JsMap.get dependents current) as [ds|]; simpl; [|done].
    destruct (Sort.relax ds queue i) as [e|[queue' i']] eqn:Hrelax; simpl; [done|].
    apply relax_extends in Hrelax as [pushed ->].
    intros (queued & tail & Hq & ->)%IH.
    apply Forall2_app_inv_l in Hq as (qa & qb & Hqa & Hqb & ->).
    exists (p :: qa), (qb ++ tail). split; [by constructor|].
    by rewrite <- !app_assoc.
Qed.

Lemma indegree_independent ps p :
  unique_names ps → p ∈ ps →
  indegree (edges ps) (name p) = 0%nat ↔ independent p.
Proof.
  intros Hunique Hp. unfold indegree, independent.
  rewrite length_zero_iff_nil. split.
  - intros Hnone. destruct (dependencies p) as [|d ds] eqn:Hdeps; [done|].
    assert ((name p, d) ∈ filter (λ e, e.1 = name p) (edges ps)) as Hin.
    { apply list_elem_of_filter. split; [done|]. apply elem_of_edges.
      exists p. rewrite Hdeps. split; [done|]. split; [done|left]. }
    rewrite Hnone in Hin. by apply elem_of_nil in Hin.
  - intros Hdeps. destruct (filter _ (edges ps)) as [|[n d] l] eqn:Hf; [done|].
    assert ((n, d) ∈ filter (λ e, e.1 = name p) (edges ps))
      as [Hn Hin]%list_elem_of_filter by (rewrite Hf; left).
    simpl in Hn. subst n. apply elem_of_edges in Hin as (q & Hq & Hname & Hd).
    assert (q = p) as -> by by apply (same_name_same_provider ps).
    rewrite Hdeps in Hd. by apply elem_of_nil in Hd.
Qed.

Lemma lookup_by_name ps (byName : Sort.ByName) :
  unique_names ps →
  (∀ n p, JsMap.get byName n = Some p ↔ p ∈ ps ∧ name p = n) →
  ∀ l queued,
    (∀ p, p ∈ l → p ∈ ps) →
    Forall2 (λ n p, JsMap.get byName n = Some p) (names l) queued →
    queued = l.
Proof.
  intros Hunique HbyName l. induction l as [|p l IH]; intros queued Hl Hq.
  { by apply Forall2_nil_inv_l in Hq. }
  rewrite names_cons in Hq.
  apply Forall2_cons_inv_l in Hq as (q & queued' & Hp & Hq & ->).
  apply HbyName in Hp as [Hqin Hname]. f_equal.
  - apply (same_name_same_provider ps); [done..| |done]. apply Hl. left.
  - apply IH; [|done]. intros r Hr. apply Hl. by right.
Qed.

Lemma sorted_starts_with_independent ps sorted :
  Sort.sweep ps = inr sorted →
  ∃ rest, sorted = filter independent ps ++ rest.
Proof.
  unfold Sort.sweep. pose proof (indexByName_empty ps) as Hindex.
  destruct (Sort.indexByName ps JsMap.empty) as [e|byName]; simpl; [done|].
  destruct Hindex as [Hunique HbyName].
  assert (∀ n, JsMap.has byName n = true ↔ n ∈ names ps) as Hhas.
  { intros n. rewrite JsMap_has_true. unfold names.
    rewrite list_elem_of_fmap. split.
    - intros [q Hq]. apply HbyName in Hq as [? <-]. eauto.
    - intros (q & -> & Hq). exists q. by apply HbyName. }
  destruct (initTables_spec ps Hunique) as (Hord & Hi0 & Hd0).
  rewrite linkProviders_edges.
  pose proof (linkEdges_spec byName (names ps) (edges ps) Hhas
                (edges_source ps) [] (Sort.initTables ps)) as Hlink.
  simpl in Hlink.
  destruct (linkEdges byName (edges ps) (Sort.initTables ps))
    as [e|[inDegree dependents]]; simpl; [done|].
  destruct Hlink as [(Hord' & Hi & _) _]; simpl in *.
  { split; [done|]. split.
    - intros n Hn. by rewrite Hi0, decide_True.
    - intros n Hn. by rewrite Hd0, decide_True. }
  intros (queued & tail & Hq & ->)%drain_queue_first. simpl.
  exists tail. f_equal.
  apply (lookup_by_name ps byName Hunique HbyName).
  { by intros p [_ Hp]%list_elem_of_filter. }
  replace (names (filter independent ps)) with (Sort.initialQueue inDegree);
    [done|].
  rewrite initialQueue_order, Hord'. unfold names.
  assert (∀ l : list ServiceProvider, (∀ p, p ∈ l → p ∈ ps) →
            filter (λ n, JsMap.get inDegree n = Some 0) (name <$> l) =
            name <$> filter independent l) as Hfilter; [|by apply Hfilter].
  induction l as [|p l IH]; intros Hl; [done|].
  rewrite fmap_cons, !filter_cons, IH by (intros r Hr; apply Hl; by right).
  assert (p ∈ ps) as Hp by (apply Hl; left).
  rewrite Hi by by apply list_elem_of_fmap_2.
  pose proof (indegree_independent ps p Hunique Hp) as Hind.
  destruct (decide (independent p)) as [Hyes|Hno].
  - rewrite decide_True; [done|]. f_equal. apply Hind in Hyes. lia.
  - rewrite decide_False; [done|]. intros [= Hz]. apply Hno, Hind. lia.
Qed.

(** X4. The providers that declare no dependency are first in the order
    the sort returns, in the order in which they were added; every provider
    after them declares a dependency. So the providers of a set without any
    dependency are booted in the order in which they were added. *)
Theorem independent_providers_come_first
    (ps sorted : list ServiceProvider) :
  Sort.topologicalSort ps = inr sorted →
  (∃ rest,
     sorted = filter independent ps ++ rest ∧
     Forall (λ p, ¬ independent p) rest) ∧
  (Forall independent ps → sorted = ps).
Proof.
  intros Hsort.
  destruct (topologicalSort_sound ps sorted Hsort)
    as (Hunique & _ & _ & Hperm & _).
  assert (∃ rest, sorted = filter independent ps ++ rest) as [rest Hrest].
  { unfold Sort.topologicalSort in Hsort.
    destruct (Sort.sweep ps) as [e|sorted'] eqn:Hsweep; simpl in Hsort; [done|].
    case_decide; [done|]. injection Hsort as ->.
    by apply sorted_starts_with_independent. }
  assert (NoDup sorted) as Hnd.
  { rewrite Hperm. by apply (NoDup_fmap_1 name). }
  split.
  - exists rest. split; [done|]. apply Forall_forall. intros p Hp Hind.
    rewrite Hrest in Hnd. apply NoDup_app in Hnd as (_ & Hdisjoint & _).
    apply (Hdisjoint p); [|done]. apply list_elem_of_filter. split; [done|].
    rewrite <- Hperm, Hrest. apply elem_of_app. by right.
  - intros Hall. rewrite filter_all in Hrest
      by (by apply Forall_forall).
    apply Permutation_length in Hperm. rewrite Hrest, length_app in Hperm.
    destruct rest; [by rewrite Hrest, app_nil_r|simpl in Hperm; lia].
Qed.

Lemma independent_providers_come_first_witness :
  ∃ rest,
    [ConfigProvider; CacheProvider; EncryptionProvider; LoggerProvider;
     I18nProvider; StorageProvider] =
      filter independent
        [CacheProvider; EncryptionProvider; ConfigProvider; LoggerProvider;
         I18nProvider; StorageProvider] ++ rest ∧
    Forall (λ p, ¬ independent p) rest.
Proof.
  apply (independent_providers_come_first
           [CacheProvider; EncryptionProvider; ConfigProvider; LoggerProvider;
            I18nProvider; StorageProvider]
           [ConfigProvider; CacheProvider; EncryptionProvider; LoggerProvider;
            I18nProvider; StorageProvider]).
  reflexivity.
Defined.

(** ** Adding providers *)

Lemma set_providers_same s : App.set_providers (_providers s) s = s.
Proof. by destruct s. Qed.

Lemma loadProviders_run providers : ∀ s,
  _booted s = false →
  App.loadProviders providers s =
  (App.set_providers (_providers s ++ providers) s, [], inr ()).
Proof.
  induction providers as [|p rest IH]; intros s Hb; simpl.
  { by rewrite app_nil_r, set_providers_same. }
  unfold mbind, App.M_bind. rewrite use_run, Hb.
  rewrite IH by done. simpl. by rewrite <- app_assoc.
Qed.

(** X5. On an application that is not booted, [loadProviders] appends its
    providers to the list, in their order, behind those added before; it
    checks nothing else (a repeated name or an unknown dependency is found
    by [start] only) and calls nothing. On a booted application it throws
    for the first provider and adds none; with no provider to add it
    returns even then. *)
Theorem loadProviders_appends_in_order
    (s : Application) (providers : list ServiceProvider) :
  (_booted s = false →
   App.loadProviders providers s =
     (App.set_providers (_providers s ++ providers) s, [], inr ())) ∧
  (_booted s = true →
   ∀ p rest, providers = p :: rest →
     App.loadProviders providers s =
       (s, [], inl (ProviderAfterStart (name p)))) ∧
  App.loadProviders [] s = (s, [], inr ()).
Proof.
  split; [apply loadProviders_run|]. split; [|done].
  intros Hb p rest ->. simpl. unfold mbind, App.M_bind.
  by rewrite use_run, Hb.
Qed.

Lemma loadProviders_appends_in_order_witness :
  App.loadProviders [provider "cache" ["config"]; provider "config" []]
    (with_providers [provider "logger" []]) =
  (with_providers
     [provider "logger" []; provider "cache" ["config"]; provider "config" []],
   [], inr ()).
Proof.
  apply (proj1 (loadProviders_appends_in_order
                  (with_providers [provider "logger" []])
                  [provider "cache" ["config"]; provider "config" []])).
  reflexivity.
Defined.

(** ** A [register] that throws *)

Section more_trace_facts.

Implicit Types (tr : list Event).

Lemma callback_calls_app tr1 tr2 :
  callback_calls (tr1 ++ tr2) = callback_calls tr1 ++ callback_calls tr2.
Proof. apply omap_app. Qed.

Lemma handlers_installed_app tr1 tr2 :
  handlers_installed (tr1 ++ tr2) =
  handlers_installed tr1 ++ handlers_installed tr2.
Proof. apply omap_app. Qed.

Lemma handlers_removed_app tr1 tr2 :
  handlers_removed (tr1 ++ tr2) = handlers_removed tr1 ++ handlers_removed tr2.
Proof. apply omap_app. Qed.

Lemma listener_calls_app tr1 tr2 :
  listener_calls (tr1 ++ tr2) = listener_calls tr1 ++ listener_calls tr2.
Proof. apply omap_app. Qed.

Lemma listened_only event (called : list Listener) :
  callback_calls (ListenerCalled event <$> called) = [] ∧
  handlers_installed (ListenerCalled event <$> called) = [] ∧
  handlers_removed (ListenerCalled event <$> called) = [] ∧
  listener_calls (ListenerCalled event <$> called) = (λ fn, (event, fn)) <$> called.
Proof.
  induction called as [|fn l (? & ? & ? & IH)]; [done|].
  repeat split; try done. rewrite !fmap_cons. simpl.
  fold (listener_calls (ListenerCalled event <$> l)). by rewrite IH.
Qed.

Lemma listened_quiet event (called : list Listener) :
  Forall quiet (ListenerCalled event <$> called).
Proof. apply Forall_fmap, Forall_forall. by intros. Qed.

Lemma registered_only (l : list ServiceProvider) :
  callback_calls (RegisterCalled <$> l) = [] ∧
  handlers_installed (RegisterCalled <$> l) = [] ∧
  handlers_removed (RegisterCalled <$> l) = [] ∧
  listener_calls (RegisterCalled <$> l) = [].
Proof. by induction l as [|p l (? & ? & ? & ?)]. Qed.

Lemma boot_trace_only (l : list ServiceProvider) :
  callback_calls (boot_trace l) = [] ∧
  handlers_installed (boot_trace l) = [] ∧
  handlers_removed (boot_trace l) = [] ∧
  listener_calls (boot_trace l) = [].
Proof. by induction l as [|p l (? & ? & ? & ?)]. Qed.

Lemma called_back_only (l : list Callback) :
  callback_calls (CallbackCalled <$> l) = l ∧
  handlers_installed (CallbackCalled <$> l) = [] ∧
  handlers_removed (CallbackCalled <$> l) = [] ∧
  listener_calls (CallbackCalled <$> l) = [] ∧
  Forall quiet (CallbackCalled <$> l).
Proof.
  induction l as [|cb l (? & ? & ? & ? & ?)]; [done|]. simpl.
  repeat split; try done; [by f_equal|by constructor].
Qed.

End more_trace_facts.

(** X6. When the [register] of a provider throws during [start], the
    providers before it in the sorted order have been registered and those
    after it are not; no provider is booted and none is shut down: what was
    registered is not undone. [start] throws what [register] threw, and the
    application is left un-booted, its lists and its signal handlers as
    they were. *)
Theorem register_failure_stops_start (s : Application)
    (sorted pre : list ServiceProvider) (p : ServiceProvider)
    (post : list ServiceProvider) (reason : string) :
  _booted s = false →
  (Emitter.emit "app:starting" (bus s)).2 = inr () →
  Sort.topologicalSort (_providers s) = inr sorted →
  sorted = pre ++ p :: post →
  Forall registers pre →
  register p = Throws reason →
  (App.start s).2 = inl (Raised reason) ∧
  register_calls (App.start s).1.2 = pre ++ [p] ∧
  boot_calls (App.start s).1.2 = [] ∧
  shutdown_calls (App.start s).1.2 = [] ∧
  handlers_installed (App.start s).1.2 = [] ∧
  App.isBooted (App.start s).1.1 = false ∧
  _bootedProviders (App.start s).1.1 = _bootedProviders s ∧
  _signalHandlers (App.start s).1.1 = _signalHandlers s.
Proof.
  intros Hb Hstart Hsort Hsplit Hpre Hp.
  rewrite (start_unfold s Hb), Hstart, Hsort.
  rewrite (phases_register_throws sorted pre p post reason _ Hsplit Hpre Hp).
  simpl. pose proof (starting_calls_quiet s) as Hq.
  apply quiet_silent in Hq as (Hq1 & Hq2 & _ & Hq3 & _).
  destruct (registered_silent (pre ++ [p])) as (Hr1 & Hr2 & _ & Hr3 & _).
  destruct (registered_only (pre ++ [p])) as (_ & Hr4 & _).
  destruct (listened_only "app:starting"
              (Emitter.emit "app:starting" (bus s)).1.2) as (_ & Hl & _).
  rewrite register_calls_app, boot_calls_app, shutdown_calls_app,
    handlers_installed_app.
  fold (starting_calls s) in Hl.
  rewrite Hq1, Hq2, Hq3, Hr1, Hr2, Hr3, Hr4, Hl. done.
Qed.

Lemma register_failure_stops_start_witness :
  (App.start (with_providers
                [provider "auth" ["database"]; unbindable;
                 provider "config" []])).2 = inl (Raised "no driver") ∧
  register_calls
    (App.start (with_providers
                  [provider "auth" ["database"]; unbindable;
                   provider "config" []])).1.2 =
    [provider "config" []; unbindable].
Proof.
  destruct (register_failure_stops_start
              (with_providers
                 [provider "auth" ["database"]; unbindable;
                  provider "config" []])
              [provider "config" []; unbindable; provider "auth" ["database"]]
              [provider "config" []] unbindable
              [provider "auth" ["database"]] "no driver")
    as (H1 & H2 & _); try reflexivity.
  - by repeat constructor.
  - split; [exact H1|exact H2].
Defined.

(** ** The callbacks of [onBooted] *)

Lemma runCallbacks_ok l s :
  Forall completes l →
  App.runCallbacks l s = (s, CallbackCalled <$> l, inr ()).
Proof.
  induction 1 as [|cb l Hcb _ IH]; [done|]. simpl.
  unfold mbind, App.M_bind, App.tell. simpl.
  unfold completes in Hcb. rewrite Hcb. simpl. by rewrite IH.
Qed.

Lemma runCallbacks_throws pre cb post reason s :
  Forall completes pre → gives_up cb reason →
  App.runCallbacks (pre ++ cb :: post) s =
  (s, CallbackCalled <$> (pre ++ [cb]), inl (Raised reason)).
Proof.
  intros Hpre Hcb. induction Hpre as [|c l Hc _ IH]; simpl.
  - unfold mbind, App.M_bind, App.tell. simpl.
    by destruct Hcb as [->| ->].
  - unfold mbind, App.M_bind, App.tell. simpl.
    unfold completes in Hc. rewrite Hc. simpl.
    unfold mbind, App.M_bind in IH. by rewrite IH.
Qed.

Lemma start_boots_all s sorted :
  _booted s = false →
  (Emitter.emit "app:starting" (bus s)).2 = inr () →
  Sort.topologicalSort (_providers s) = inr sorted →
  Forall registers sorted → Forall boots sorted →
  let called := App.runCallbacks (_bootedCallbacks s) (all_booted sorted s) in
  let booted := Emitter.emit "app:booted" (bus (started s)) in
  let before :=
    starting_calls s ++ (RegisterCalled <$> sorted) ++ boot_trace sorted in
  App.start s =
  match called.2 with
  | inl e => (all_booted sorted s, before ++ called.1.2, inl e)
  | inr _ =>
      (App.set_bus booted.1.1
         (App.set_signalHandlers (S (_signalHandlers s)) (all_booted sorted s)),
       before ++ called.1.2 ++ [ProcessOn "SIGINT"; ProcessOn "SIGTERM"] ++
         (ListenerCalled "app:booted" <$> booted.1.2),
       booted.2)
  end.
Proof.
  intros Hb Hstart Hsort Hreg Hboot. cbv zeta.
  rewrite (start_unfold s Hb), Hstart, Hsort.
  rewrite (phases_boots sorted (started s) Hreg Hboot). cbv zeta.
  rewrite afterBoot_run. cbv zeta. simpl.
  fold (all_booted sorted s).
  destruct (App.runCallbacks (_bootedCallbacks s) (all_booted sorted s)).2;
    simpl; by rewrite <- ?app_assoc.
Qed.

(** X7. When a callback of [onBooted] fails during [start], by throwing or
    by a rejected promise, the callbacks after it are not called and
    [start] throws its reason; by then every provider has booted and the
    application is marked booted, but no signal handler is installed and
    the booted event is not published. A later [start] returns at once and
    does nothing, so the handlers stay uninstalled. *)
Theorem callback_failure_leaves_application_booted (s : Application)
    (sorted : list ServiceProvider) (pre : list Callback) (cb : Callback)
    (post : list Callback) (reason : string) :
  _booted s = false →
  (Emitter.emit "app:starting" (bus s)).2 = inr () →
  Sort.topologicalSort (_providers s) = inr sorted →
  Forall registers sorted → Forall boots sorted →
  _bootedCallbacks s = pre ++ cb :: post →
  Forall completes pre →
  gives_up cb reason →
  (App.start s).2 = inl (Raised reason) ∧
  boot_completions (App.start s).1.2 = sorted ∧
  callback_calls (App.start s).1.2 = pre ++ [cb] ∧
  shutdown_calls (App.start s).1.2 = [] ∧
  handlers_installed (App.start s).1.2 = [] ∧
  (∀ fn, ListenerCalled "app:booted" fn ∉ (App.start s).1.2) ∧
  App.isBooted (App.start s).1.1 = true ∧
  _bootedProviders (App.start s).1.1 = _bootedProviders s ++ sorted ∧
  _signalHandlers (App.start s).1.1 = _signalHandlers s ∧
  App.start (App.start s).1.1 = ((App.start s).1.1, [], inr ()).
Proof.
  intros Hb Hstart Hsort Hreg Hboot Hcbs Hpre Hcb.
  rewrite (start_boots_all s sorted Hb Hstart Hsort Hreg Hboot). cbv zeta.
  rewrite Hcbs, (runCallbacks_throws pre cb post reason _ Hpre Hcb). simpl.
  pose proof (starting_calls_quiet s) as Hq.
  apply quiet_silent in Hq as (_ & _ & Hq1 & Hq2 & _).
  destruct (registered_silent sorted) as (_ & _ & Hr1 & Hr2 & _).
  destruct (boot_trace_silent sorted) as (_ & _ & Hb1 & Hb2 & _).
  destruct (called_back_only (pre ++ [cb])) as (Hc1 & Hc2 & _ & _ & Hc3).
  apply quiet_silent in Hc3 as (_ & _ & Hc3 & Hc4 & _).
  destruct (registered_only sorted) as (Hr3 & Hr4 & _).
  destruct (boot_trace_only sorted) as (Hb3 & Hb4 & _).
  destruct (listened_only "app:starting"
              (Emitter.emit "app:starting" (bus s)).1.2) as (Hl1 & Hl2 & _).
  fold (starting_calls s) in Hl1, Hl2.
  rewrite !boot_completions_app, !callback_calls_app, !shutdown_calls_app,
    !handlers_installed_app.
  rewrite Hq1, Hq2, Hr1, Hr2, Hb1, Hb2, Hc1, Hc2, Hc3, Hc4, Hr3, Hr4, Hb3, Hb4,
    Hl1, Hl2.
  rewrite !app_nil_r. simpl.
  repeat split; try done.
  intros fn. rewrite !elem_of_app. intros [[Hin|[Hin|Hin]]|Hin].
  - unfold starting_calls in Hin.
    by apply list_elem_of_fmap in Hin as (? & [=] & _).
  - by apply list_elem_of_fmap in Hin as (? & [=] & _).
  - unfold boot_trace in Hin. apply list_elem_of_bind in Hin as (? & Hin & _).
    by repeat (apply elem_of_cons in Hin as [[=]|Hin]); apply elem_of_nil in Hin.
  - by apply list_elem_of_fmap in Hin as (? & [=] & _).
Qed.

Lemma callback_failure_leaves_application_booted_witness :
  (App.start (with_callbacks [upset; calm] (with_providers three_tier))).2 =
    inl (Raised "no route") ∧
  callback_calls
    (App.start (with_callbacks [upset; calm] (with_providers three_tier))).1.2 =
    [upset] ∧
  handlers_installed
    (App.start (with_callbacks [upset; calm] (with_providers three_tier))).1.2 =
    [] ∧
  App.isBooted
    (App.start (with_callbacks [upset; calm] (with_providers three_tier))).1.1 =
    true.
Proof.
  assert (Forall registers
            [provider "config" []; provider "database" ["config"];
             provider "auth" ["database"]]) as Hreg by (by repeat constructor).
  assert (Forall boots
            [provider "config" []; provider "database" ["config"];
             provider "auth" ["database"]]) as Hboot by (by repeat constructor).
  destruct (callback_failure_leaves_application_booted
              (with_callbacks [upset; calm] (with_providers three_tier))
              [provider "config" []; provider "database" ["config"];
               provider "auth" ["database"]]
              [] upset [calm] "no route"
              eq_refl eq_refl eq_refl Hreg Hboot eq_refl
              (Forall_nil_2 _) (or_intror eq_refl))
    as (H1 & _ & H2 & _ & H3 & _ & H4 & _).
  exact (conj H1 (conj H2 (conj H3 H4))).
Defined.

(** X8. A [start] in which nothing fails goes through its phases in this
    order: the listeners of the starting event; [register] on every
    provider, in sorted order; [boot] on every provider, in sorted order,
    each completed before the next; the callbacks of [onBooted], in the
    order in which they were given; the installation of one handler for
    SIGINT and for SIGTERM; the listeners of the booted event. What [start]
    returns or throws is what publishing the booted event does: when a
    listener of that event fails, [start] throws although the application
    is booted and its handlers are installed. The providers and the
    callbacks of the application are as before, and a second [start]
    returns at once and does nothing. *)
Theorem start_runs_its_phases_in_order (s : Application)
    (sorted : list ServiceProvider) :
  _booted s = false →
  (Emitter.emit "app:starting" (bus s)).2 = inr () →
  Sort.topologicalSort (_providers s) = inr sorted →
  Forall registers sorted → Forall boots sorted →
  Forall completes (_bootedCallbacks s) →
  let booted := Emitter.emit "app:booted" (bus (started s)) in
  (App.start s).1.2 =
    (ListenerCalled "app:starting" <$>
       (Emitter.emit "app:starting" (bus s)).1.2) ++
    (RegisterCalled <$> sorted) ++
    boot_trace sorted ++
    (CallbackCalled <$> _bootedCallbacks s) ++
    [ProcessOn "SIGINT"; ProcessOn "SIGTERM"] ++
    (ListenerCalled "app:booted" <$> booted.1.2) ∧
  (App.start s).2 = booted.2 ∧
  App.isBooted (App.start s).1.1 = true ∧
  _bootedProviders (App.start s).1.1 = _bootedProviders s ++ sorted ∧
  _signalHandlers (App.start s).1.1 = S (_signalHandlers s) ∧
  _providers (App.start s).1.1 = _providers s ∧
  _bootedCallbacks (App.start s).1.1 = _bootedCallbacks s ∧
  App.start (App.start s).1.1 = ((App.start s).1.1, [], inr ()).
Proof.
  intros Hb Hstart Hsort Hreg Hboot Hcbs.
  rewrite (start_boots_all s sorted Hb Hstart Hsort Hreg Hboot). cbv zeta.
  rewrite (runCallbacks_ok _ _ Hcbs). simpl.
  unfold starting_calls. by rewrite <- !app_assoc.
Qed.

Lemma start_runs_its_phases_in_order_witness :
  (App.start (with_callbacks [calm] (with_providers three_tier))).1.2 =
    (RegisterCalled <$>
       [provider "config" []; provider "database" ["config"];
        provider "auth" ["database"]]) ++
    boot_trace
      [provider "config" []; provider "database" ["config"];
       provider "auth" ["database"]] ++
    [CallbackCalled calm; ProcessOn "SIGINT"; ProcessOn "SIGTERM"].
Proof.
  assert (Forall registers
            [provider "config" []; provider "database" ["config"];
             provider "auth" ["database"]]) as Hreg by (by repeat constructor).
  assert (Forall boots
            [provider "config" []; provider "database" ["config"];
             provider "auth" ["database"]]) as Hboot by (by repeat constructor).
  assert (Forall completes [calm]) as Hcalm by (by repeat constructor).
  destruct (start_runs_its_phases_in_order
              (with_callbacks [calm] (with_providers three_tier))
              [provider "config" []; provider "database" ["config"];
               provider "auth" ["database"]]
              eq_refl eq_refl eq_refl Hreg Hboot Hcalm)
    as (H1 & _).
  exact H1.
Defined.

(** X24. When a listener of the starting event fails, [start] throws its
    reason before it looks at the providers: nothing is sorted, registered
    or booted, so that a defect of the provider set is not reported, and
    apart from the subscriptions of the bus the application is exactly as
    it was. Unlike a [shutdown] stopped by its event, such a [start] leaves
    no flag set, and can be called again. *)
Theorem failing_starting_listener_stops_start
    (s : Application) (e : Thrown) :
  _booted s = false →
  (Emitter.emit "app:starting" (bus s)).2 = inl e →
  (App.start s).2 = inl e ∧
  (App.start s).1.2 =
    (ListenerCalled "app:starting" <$>
       (Emitter.emit "app:starting" (bus s)).1.2) ∧
  register_calls (App.start s).1.2 = [] ∧
  boot_calls (App.start s).1.2 = [] ∧
  App.set_bus (bus s) (App.start s).1.1 = s.
Proof.
  intros Hb Hfail. rewrite (start_unfold s Hb), Hfail. simpl.
  pose proof (starting_calls_quiet s) as Hq.
  apply quiet_silent in Hq as (Hq1 & Hq2 & _).
  split; [done|]. split; [done|]. split; [done|]. split; [done|].
  by destruct s.
Qed.

Lemma failing_starting_listener_stops_start_witness :
  (App.start
     (App.set_bus (Emitter.on "app:starting" veto Emitter.initial)
        (with_providers [chicken; egg]))).2 = inl (Raised "veto").
Proof.
  apply (failing_starting_listener_stops_start
           (App.set_bus (Emitter.on "app:starting" veto Emitter.initial)
              (with_providers [chicken; egg]))
           (Raised "veto") eq_refl eq_refl).
Defined.

(** ** What [start] and [shutdown] leave of the application *)

(** [start] writes the booted list, the booted flag, the number of signal
    handlers and the bus, and nothing else; it sets the flag or leaves it,
    and installs a handler only when it sets the flag. *)
Lemma start_state_cases s :
  same_setup s (App.start s).1.1 ∧
  _shuttingDown (App.start s).1.1 = _shuttingDown s ∧
  ((_booted (App.start s).1.1 = _booted s ∧
    _signalHandlers (App.start s).1.1 = _signalHandlers s) ∨
   (_booted s = false ∧ _booted (App.start s).1.1 = true ∧
    (_signalHandlers (App.start s).1.1 = _signalHandlers s ∨
     _signalHandlers (App.start s).1.1 = S (_signalHandlers s)))).
Proof.
  destruct (_booted s) eqn:Hb.
  { rewrite (start_booted s Hb). simpl. repeat split; by eauto. }
  rewrite (start_unfold s Hb).
  destruct (Emitter.emit "app:starting" (bus s)).2 as [e|[]] eqn:Hstart.
  { simpl. repeat split; by eauto. }
  destruct (Sort.topologicalSort (_providers s)) as [e|sorted] eqn:Hsort.
  { simpl. repeat split; by eauto. }
  destruct (first_failure registers sorted)
    as [Hreg|(pre & p & post & Hsplit & Hpre & Hp)].
  2:{ apply not_registers in Hp as [reason Hp].
      rewrite (phases_register_throws sorted pre p post reason _ Hsplit Hpre Hp).
      simpl. repeat split; by eauto. }
  destruct (first_failure boots sorted)
    as [Hboot|(pre & p & post & Hsplit & Hpre & Hp)].
  2:{ apply not_boots in Hp as [reason Hp].
      rewrite (phases_boot_throws sorted pre p post reason _ Hreg Hsplit Hpre Hp).
      simpl. repeat split; by eauto. }
  pose proof (start_boots_all s sorted Hb Hstart Hsort Hreg Hboot) as Hrun.
  cbv zeta in Hrun. rewrite (start_unfold s Hb), Hstart, Hsort in Hrun.
  rewrite Hrun.
  destruct (App.runCallbacks (_bootedCallbacks s) (all_booted sorted s)).2;
    simpl; repeat split; by eauto.
Qed.

Lemma shutdown_state_cases s :
  same_setup s (App.shutdown s).1.1 ∧
  ((_booted (App.shutdown s).1.1 = _booted s ∧
    _signalHandlers (App.shutdown s).1.1 = _signalHandlers s) ∨
   (_booted (App.shutdown s).1.1 = false ∧
    _signalHandlers (App.shutdown s).1.1 = 0%nat)).
Proof.
  destruct (_shuttingDown s) eqn:Hsd.
  { rewrite (shutdown_idle s Hsd). simpl. split; [done|]. by left. }
  rewrite (shutdown_unfold s Hsd).
  destruct (Emitter.emit "app:shutdown" (bus s)).2 as [e|[]]; cbv zeta; simpl.
  - split; [done|]. by left.
  - split; [done|]. by right.
Qed.

Lemma use_fields p s :
  _booted (App.use p s).1.1 = _booted s ∧
  _signalHandlers (App.use p s).1.1 = _signalHandlers s.
Proof. rewrite use_run. by destruct (_booted s) eqn:Hb; simpl; rewrite ?Hb. Qed.

Lemma onBooted_fields cb s :
  _booted (App.onBooted cb s).1.1 = _booted s ∧
  _signalHandlers (App.onBooted cb s).1.1 = _signalHandlers s.
Proof.
  rewrite onBooted_run. by destruct (_booted s) eqn:Hb; simpl; rewrite ?Hb.
Qed.

Lemma perform_handlers c s :
  handlers_consistent s → handlers_consistent (perform c s).1.1.
Proof.
  unfold handlers_consistent. intros [Hle Hzero]. destruct c as [p|cb| | |change]; simpl.
  - destruct (use_fields p s) as [-> ->]. done.
  - destruct (onBooted_fields cb s) as [-> ->]. done.
  - destruct (start_state_cases s) as (_ & _ & [[Hb Hh]|(Hb & Hb' & [Hh|Hh])]).
    + by rewrite Hb, Hh.
    + rewrite Hb', Hh. split; [done|]. done.
    + rewrite Hb', Hh, (Hzero Hb). split; [lia|done].
  - destruct (shutdown_state_cases s) as (_ & [[Hb Hh]|[Hb Hh]]).
    + by rewrite Hb, Hh.
    + rewrite Hb, Hh. split; [lia|done].
  - done.
Qed.

(** X10. Signal handlers do not pile up under calls made one at a time.
    After any sequence of calls of [use], [onBooted], [start] and
    [shutdown] and of subscriptions on the bus, each of which has settled
    (returned or thrown) before the next one is made, and whatever their
    outcomes, a newly created application holds at most one handler (for
    SIGINT and for SIGTERM), and none while it is not booted. Calls that
    overlap are not among these: a [start] made while another [start] is
    still awaiting finds [_booted] unset as well, so that both can get
    to install a handler. *)
Theorem signal_handlers_do_not_pile_up (calls : list Call) :
  (_signalHandlers (perform_all calls App.created).1 ≤ 1)%nat ∧
  (App.isBooted (perform_all calls App.created).1 = false →
   _signalHandlers (perform_all calls App.created).1 = 0%nat).
Proof.
  assert (∀ s, handlers_consistent s →
               handlers_consistent (perform_all calls s).1) as Hall.
  { induction calls as [|c calls IH]; intros s Hs; [done|].
    simpl. by apply IH, perform_handlers. }
  apply (Hall App.created). split; [simpl; lia|done].
Qed.

Lemma perform_setup c s :
  _providers s `prefix_of` _providers (perform c s).1.1 ∧
  _bootedCallbacks s `prefix_of` _bootedCallbacks (perform c s).1.1.
Proof.
  destruct c as [p|cb| | |change]; simpl.
  - rewrite use_run. destruct (_booted s); simpl; [done|].
    split; [by apply prefix_app_r|done].
  - rewrite onBooted_run. destruct (_booted s); simpl; [done|].
    split; [done|by apply prefix_app_r].
  - destruct (start_state_cases s) as ([-> ->] & _). done.
  - destruct (shutdown_state_cases s) as ([-> ->] & _). done.
  - done.
Qed.

(** X9. A callback given to [onBooted] while the application is booted is
    called at once and is not kept; the call is not awaited, so only a
    synchronous throw leaves [onBooted], and a rejected promise is not
    reported. A callback given before that is put last in the list, and
    the list only grows: no call removes a callback from it (or a provider
    from the list of providers), so after a shutdown the next [start]
    calls it again. *)
Theorem onBooted_runs_now_or_is_kept (s : Application) (cb : Callback) :
  (_booted s = true →
   (App.onBooted cb s).1.1 = s ∧
   (App.onBooted cb s).1.2 = [CallbackCalled cb] ∧
   (App.onBooted cb s).2 =
     match answer cb with
     | ThrowsNow reason => inl (Raised reason)
     | _ => inr ()
     end) ∧
  (_booted s = false →
   App.onBooted cb s =
     (App.set_bootedCallbacks (_bootedCallbacks s ++ [cb]) s, [], inr ())) ∧
  (∀ calls,
     _providers s `prefix_of` _providers (perform_all calls s).1 ∧
     _bootedCallbacks s `prefix_of` _bootedCallbacks (perform_all calls s).1).
Proof.
  split; [|split].
  - intros Hb. by rewrite onBooted_run, Hb.
  - intros Hb. by rewrite onBooted_run, Hb.
  - intros calls. revert s. induction calls as [|c calls IH]; intros s; [done|].
    simpl. destruct (perform_setup c s) as [Hp Hc].
    destruct (IH (perform c s).1.1) as [Hp' Hc'].
    split; by etrans.
Qed.

Lemma onBooted_runs_now_or_is_kept_witness :
  (App.onBooted upset (App.start (with_providers three_tier)).1.1).2 = inr () ∧
  App.onBooted upset (with_providers three_tier) =
    (App.set_bootedCallbacks [upset] (with_providers three_tier), [], inr ()).
Proof.
  destruct (onBooted_runs_now_or_is_kept
              (App.start (with_providers three_tier)).1.1 upset)
    as [Hnow _].
  destruct (onBooted_runs_now_or_is_kept (with_providers three_tier) upset)
    as (_ & Hlater & _).
  exact (conj (proj2 (proj2 (Hnow eq_refl))) (Hlater eq_refl)).
Defined.

(** ** The whole of [shutdown] *)

Lemma removal_trace_only n :
  handlers_removed (removal_trace n) =
    concat (replicate n ["SIGINT"; "SIGTERM"]) ∧
  shutdown_calls (removal_trace n) = [].
Proof.
  unfold removal_trace. induction n as [|n [IH1 IH2]]; [done|].
  simpl. by rewrite IH1, IH2.
Qed.

(** X11. A [shutdown] that is not a repeated call and whose shutdown event
    is published without error does this, in this order: it calls the
    listeners of the shutdown event, sets the deadline timer of 30 seconds,
    shuts the booted providers down in reverse order (reporting the errors
    on the console), clears the timer, removes every signal handler from
    SIGINT and SIGTERM, and calls the listeners of the terminated event.
    The timer is cleared exactly once, after the last provider, even when
    shutdowns throw. What it returns or throws is what publishing the
    terminated event does. *)
Theorem shutdown_runs_its_steps_in_order (s : Application) :
  _shuttingDown s = false →
  (Emitter.emit "app:shutdown" (bus s)).2 = inr () →
  let terminated := Emitter.emit "app:terminated" (bus (stopped s)) in
  (App.shutdown s).1.2 =
    (ListenerCalled "app:shutdown" <$>
       (Emitter.emit "app:shutdown" (bus s)).1.2) ++
    [TimerSet 30000] ++
    shutdown_trace (reverse (_bootedProviders s)) ++
    [TimerCleared] ++
    concat (replicate (_signalHandlers s)
              [ProcessOff "SIGINT"; ProcessOff "SIGTERM"]) ++
    (ListenerCalled "app:terminated" <$> terminated.1.2) ∧
  (App.shutdown s).2 = terminated.2 ∧
  _signalHandlers (App.shutdown s).1.1 = 0%nat.
Proof.
  intros Hsd Hstop. rewrite (shutdown_unfold s Hsd), Hstop. done.
Qed.

Lemma shutdown_runs_its_steps_in_order_witness :
  (App.shutdown (App.start (with_providers leaky_tier)).1.1).1.2 =
    [TimerSet 30000;
     ShutdownCalled (provider "auth" ["database"]);
     ShutdownCalled leaky_database;
     ConsoleError "database" (Raised "pool still busy");
     ShutdownCalled (provider "config" []);
     TimerCleared; ProcessOff "SIGINT"; ProcessOff "SIGTERM"].
Proof.
  apply (shutdown_runs_its_steps_in_order
           (App.start (with_providers leaky_tier)).1.1 eq_refl eq_refl).
Defined.

(** X12. A [shutdown] that gets past its shutdown event resets every field
    that [start] wrote, whatever [start] did: the application is not
    booted, not shutting down, has no booted provider and no signal
    handler, and its providers and callbacks are those it had. For an
    application that was in that state before [start], everything except
    the subscriptions of the bus is as it was before [start], so that it
    can be started again. *)
Theorem shutdown_undoes_start (s : Application) :
  _booted s = false →
  _shuttingDown s = false →
  _bootedProviders s = [] →
  _signalHandlers s = 0%nat →
  (Emitter.emit "app:shutdown" (bus (App.start s).1.1)).2 = inr () →
  App.set_bus (bus s) (App.shutdown (App.start s).1.1).1.1 = s.
Proof.
  intros Hb Hsd Hbp Hh.
  destruct (start_state_cases s) as ([Hp Hc] & Hsd' & _).
  rewrite Hsd in Hsd'. revert Hp Hc Hsd'.
  generalize (App.start s).1.1. intros s1 Hp Hc Hsd' Hstop.
  rewrite (shutdown_unfold _ Hsd'), Hstop.
  destruct s, s1; simpl in *. by subst.
Qed.

Lemma shutdown_undoes_start_witness :
  App.set_bus Emitter.initial
    (App.shutdown (App.start (with_providers leaky_tier)).1.1).1.1 =
  with_providers leaky_tier.
Proof.
  apply (shutdown_undoes_start (with_providers leaky_tier)
           eq_refl eq_refl eq_refl eq_refl eq_refl).
Defined.

(** ** The sets of the bus *)

Lemma subscribers_cases st event :
  (JsMap.get (Emitter._listeners st) event = None ∧ subscribers st event = []) ∨
  (JsMap.get (Emitter._listeners st) event = Some (subscribers st event)).
Proof.
  unfold subscribers. destruct (JsMap.get _ event); [by right|by left].
Qed.

Lemma tidy_subscribers st event : tidy st → NoDup (subscribers st event).
Proof.
  intros Ht. destruct (subscribers_cases st event) as [[_ ->]|Hs].
  - constructor.
  - by apply (Ht _ _ Hs).
Qed.

Lemma tidy_count st event :
  tidy st →
  Emitter.listenerCount event st = 0%nat ↔
  JsMap.get (Emitter._listeners st) event = None.
Proof.
  intros Ht. unfold Emitter.listenerCount.
  destruct (JsMap.get _ event) as [set|] eqn:Hs; [|done].
  split; [|done]. intros Hlen%length_zero_iff_nil.
  by destruct (Ht _ _ Hs).
Qed.

Lemma NoDup_JsSet_add (fn : Listener) (l : list Listener) :
  NoDup l → NoDup (JsSet.add fn l).
Proof.
  intros Hl. unfold JsSet.add. case_decide; [done|].
  apply NoDup_app. split; [done|]. split; [|apply NoDup_singleton].
  intros x Hx ->%list_elem_of_singleton. done.
Qed.

Lemma JsSet_add_nonempty (fn : Listener) (l : list Listener) :
  JsSet.add fn l ≠ [].
Proof.
  unfold JsSet.add. case_decide as Hin.
  - intros ->. by apply elem_of_nil in Hin.
  - by destruct l.
Qed.

Lemma tidy_initial : tidy Emitter.initial.
Proof.
  intros event set. unfold Emitter.initial. simpl. by rewrite JsMap_get_empty.
Qed.

Lemma tidy_on event fn st : tidy st → tidy (Emitter.on event fn st).
Proof.
  intros Ht event' set. unfold Emitter.on. simpl. rewrite JsMap_get_set.
  case_decide as Heq; [|apply Ht]. intros [= <-].
  split; [apply JsSet_add_nonempty|]. apply NoDup_JsSet_add.
  destruct (JsMap.get _ event) as [l|] eqn:Hl; simpl; [|constructor].
  by apply (Ht _ _ Hl).
Qed.

Lemma tidy_once event fn st : tidy st → tidy (Emitter.once event fn st).
Proof. intros Ht. unfold Emitter.once. by apply tidy_on. Qed.

Lemma tidy_replace (m : JsMap.t string (list Listener)) event set' :
  (∀ e set, JsMap.get m e = Some set → set ≠ [] ∧ NoDup set) →
  NoDup set' →
  ∀ e set,
    JsMap.get (if decide (length set' = 0%nat)
               then JsMap.remove m event
               else JsMap.set m event set') e = Some set →
    set ≠ [] ∧ NoDup set.
Proof.
  intros Ht Hnd e set. case_decide as Hlen.
  - rewrite JsMap_get_remove. case_decide; [done|apply Ht].
  - rewrite JsMap_get_set. case_decide; [|apply Ht]. intros [= <-].
    split; [|done]. intros ->. done.
Qed.

Lemma tidy_off event fn st : tidy st → tidy (Emitter.off event fn st).
Proof.
  intros Ht. unfold Emitter.off.
  destruct (JsMap.get _ event) as [l|] eqn:Hl; [|done].
  intros e set. simpl. apply tidy_replace; [done|].
  apply NoDup_filter. by apply (Ht _ _ Hl).
Qed.

Lemma tidy_removeAllListeners event st :
  tidy st → tidy (Emitter.removeAllListeners event st).
Proof.
  intros Ht e set. destruct event as [[|a event]|]; simpl.
  - by rewrite JsMap_get_empty.
  - rewrite JsMap_get_remove. case_decide; [done|apply Ht].
  - by rewrite JsMap_get_empty.
Qed.

Lemma tidy_emit event st : tidy st → tidy (Emitter.emit event st).1.1.
Proof.
  intros Ht. rewrite emit_explicit.
  destruct (subscribers st event) eqn:Hs; [done|]. rewrite <- Hs.
  intros e set. simpl. apply tidy_replace; [done|].
  apply NoDup_filter. by apply tidy_subscribers.
Qed.

Lemma tidy_perform c st : tidy st → tidy (bus_perform c st).
Proof.
  destruct c; simpl; intros Ht.
  - by apply tidy_on.
  - by apply tidy_once.
  - by apply tidy_off.
  - by apply tidy_removeAllListeners.
  - by apply tidy_emit.
  - apply tidy_initial.
Qed.

Lemma tidy_perform_all calls : ∀ st, tidy st → tidy (bus_perform_all calls st).
Proof.
  unfold bus_perform_all.
  induction calls as [|c calls IH]; intros st Ht; [done|].
  simpl. by apply IH, tidy_perform.
Qed.

(** X13. Whatever is called on the bus, in whatever order, an emit calls
    each listener at most once: a listener subscribed twice to an event is
    subscribed once. And the bus keeps no empty set: an event has an entry
    in the map exactly when it has a listener, so that [listenerCount] is 0
    exactly for the events without an entry. *)
Theorem emit_calls_each_listener_once (calls : list BusCall) (event : string) :
  NoDup (Emitter.emit event (bus_perform_all calls Emitter.initial)).1.2 ∧
  (Emitter.listenerCount event (bus_perform_all calls Emitter.initial) = 0%nat ↔
   JsMap.get (Emitter._listeners (bus_perform_all calls Emitter.initial)) event
     = None).
Proof.
  pose proof (tidy_perform_all calls _ tidy_initial) as Ht. split.
  - rewrite emit_called. by apply tidy_subscribers.
  - by apply tidy_count.
Qed.

(** ** [off] *)

Lemma off_subscribers_other st event event' fn :
  event ≠ event' →
  subscribers (Emitter.off event fn st) event' = subscribers st event'.
Proof.
  intros Hne. unfold subscribers, Emitter.off.
  destruct (JsMap.get (Emitter._listeners st) event); [|done]. simpl.
  case_decide.
  - by rewrite JsMap_get_remove, decide_False.
  - by rewrite JsMap_get_set_ne.
Qed.

Lemma JsSet_delete_absent (fn : Listener) (l : list Listener) :
  fn ∉ l → JsSet.delete fn l = l.
Proof.
  intros Hfn. unfold JsSet.delete. apply filter_all.
  intros x Hx ->. done.
Qed.

Lemma JsSet_delete_add (fn : Listener) (l : list Listener) :
  fn ∉ l → JsSet.delete fn (JsSet.add fn l) = l.
Proof.
  intros Hfn. unfold JsSet.add. rewrite decide_False by done.
  unfold JsSet.delete. rewrite filter_app, filter_cons_False, filter_nil
    by (by intros ?).
  rewrite app_nil_r. by apply JsSet_delete_absent.
Qed.

Lemma JsSet_delete_length (fn : Listener) (l : list Listener) :
  NoDup l → fn ∈ l → S (length (JsSet.delete fn l)) = length l.
Proof.
  unfold JsSet.delete. induction 1 as [|x l Hx Hl IH]; intros Hfn.
  { by apply elem_of_nil in Hfn. }
  apply elem_of_cons in Hfn as [->|Hfn].
  - rewrite filter_cons_False by (by intros ?). simpl. f_equal.
    fold (JsSet.delete x l). by rewrite JsSet_delete_absent.
  - rewrite filter_cons_True by (intros ->; done). simpl. by rewrite IH.
Qed.

(** X14. [off] takes the listener out of the set of its event and touches
    nothing else: the other listeners of the event keep their order, the
    other events and the single-fire markers are as they were, and the
    count of the event goes down by one when the listener was subscribed
    and stays when it was not. So [off] undoes the [on] of a listener that
    was not subscribed before. *)
Theorem off_removes_one_listener
    (st : Emitter.State) (event : string) (fn : Listener) :
  tidy st →
  subscribers (Emitter.off event fn st) event =
    filter (λ other, other ≠ fn) (subscribers st event) ∧
  (∀ event', event ≠ event' →
     subscribers (Emitter.off event fn st) event' = subscribers st event') ∧
  Emitter._once (Emitter.off event fn st) = Emitter._once st ∧
  (fn ∈ subscribers st event →
   S (Emitter.listenerCount event (Emitter.off event fn st)) =
     Emitter.listenerCount event st) ∧
  (fn ∉ subscribers st event →
   Emitter.listenerCount event (Emitter.off event fn st) =
     Emitter.listenerCount event st ∧
   ∀ event',
     subscribers (Emitter.off event fn (Emitter.on event fn st)) event' =
       subscribers st event').
Proof.
  intros Ht. split; [apply off_subscribers|].
  split; [intros event'; apply off_subscribers_other|].
  split; [apply off_once|]. rewrite !listenerCount_subscribers, off_subscribers.
  split.
  - apply JsSet_delete_length. by apply tidy_subscribers.
  - intros Hfn. split; [by rewrite JsSet_delete_absent|].
    intros event'. destruct (decide (event = event')) as [<-|Hne].
    + rewrite off_subscribers, on_subscribers. by apply JsSet_delete_add.
    + by rewrite off_subscribers_other, on_subscribers_other.
Qed.

Lemma off_removes_one_listener_witness :
  subscribers (Emitter.off "saved" L1 two_listeners) "saved" =
    filter (λ other, other ≠ L1) (subscribers two_listeners "saved").
Proof.
  apply (off_removes_one_listener two_listeners "saved" L1).
  apply (tidy_perform_all [CallOn "saved" L1; CallOn "saved" L2]
           Emitter.initial tidy_initial).
Defined.

(** ** [removeAllListeners] and [reset] *)

Lemma removeAllListeners_event st a event event' :
  subscribers (Emitter.removeAllListeners (Some (String a event)) st) event' =
  if decide (String a event = event') then [] else subscribers st event'.
Proof.
  unfold subscribers. simpl. rewrite JsMap_get_remove. by case_decide.
Qed.

(** X15. [removeAllListeners] with the name of an event removes the
    listeners of that event and of no other; without an argument, and also
    with the empty string as the name, it removes the listeners of every
    event. In all three cases it leaves the single-fire markers, so that a
    function marked by [once] and subscribed again with [on] is called by
    the next emit and removed by it. [reset] drops the markers as well:
    after it, the same function subscribed with [on] stays subscribed. *)
Theorem removeAllListeners_keeps_the_markers
    (st : Emitter.State) (event : string) (fn : Listener) :
  (∀ a rest event',
     subscribers (Emitter.removeAllListeners (Some (String a rest)) st) event' =
     if decide (String a rest = event') then [] else subscribers st event') ∧
  (∀ event',
     subscribers (Emitter.removeAllListeners None st) event' = [] ∧
     subscribers (Emitter.removeAllListeners (Some EmptyString) st) event' = []) ∧
  (∀ cleared,
     Emitter._once (Emitter.removeAllListeners cleared st) = Emitter._once st) ∧
  (∀ cleared,
     fn ∈ Emitter._once st →
     let st1 := Emitter.on event fn (Emitter.removeAllListeners cleared st) in
     fn ∈ (Emitter.emit event st1).1.2 ∧
     fn ∉ subscribers (Emitter.emit event st1).1.1 event) ∧
  (let st1 := Emitter.on event fn (Emitter.reset st) in
   (Emitter.emit event st1).1.2 = [fn] ∧
   subscribers (Emitter.emit event st1).1.1 event = [fn]).
Proof.
  split; [intros a rest event'; apply removeAllListeners_event|].
  split; [by intros event'|].
  assert (∀ cleared,
            Emitter._once (Emitter.removeAllListeners cleared st) =
            Emitter._once st) as Hmarkers by (by intros [[|? ?]|]).
  split; [done|]. split.
  - intros cleared Hfn st1.
    destruct (emit_marked st1 event fn) as (Hcalled & Hgone & _).
    + unfold st1. by rewrite on_once, Hmarkers.
    + unfold st1. rewrite on_subscribers. apply elem_of_JsSet_add. by left.
    + done.
  - intros st1.
    assert (subscribers st1 event = [fn]) as Hs.
    { unfold st1. by rewrite on_subscribers. }
    assert (fn ∉ Emitter._once st1) as Hfn.
    { unfold st1. rewrite on_once. unfold Emitter.reset. set_solver. }
    split; [by rewrite emit_called|].
    rewrite emit_subscribers. unfold survivors. rewrite Hs.
    by rewrite filter_cons_True, filter_nil.
Qed.

Lemma removeAllListeners_keeps_the_markers_witness :
  greeter ∈
    (Emitter.emit "opened"
       (Emitter.on "opened" greeter
          (Emitter.removeAllListeners None twice_once))).1.2 ∧
  greeter ∉
    subscribers
      (Emitter.emit "opened"
         (Emitter.on "opened" greeter
            (Emitter.removeAllListeners None twice_once))).1.1 "opened".
Proof.
  destruct (removeAllListeners_keeps_the_markers twice_once "opened" greeter)
    as (_ & _ & _ & Hkept & _).
  apply (Hkept None). unfold twice_once. rewrite once_once. set_solver.
Defined.

(** ** Emitting again *)

Lemma JsMap_set_same {K} `{Countable K} {V} (m : JsMap.t K V) k v :
  JsMap.get m k = Some v → JsMap.set m k v = m.
Proof.
  intros Hk. destruct m as [order store]. unfold JsMap.set, JsMap.has,
    JsMap.get in *. simpl in *. rewrite Hk. f_equal. by apply insert_id.
Qed.

Lemma survivors_subscribers st event fn :
  fn ∈ survivors st event → fn ∈ subscribers st event.
Proof. unfold survivors. by intros [_ ?]%list_elem_of_filter. Qed.

Lemma emit_nonempty st event :
  subscribers st event ≠ [] →
  Emitter.emit event st =
  ({| Emitter._listeners :=
        if decide (length (survivors st event) = 0%nat)
        then JsMap.remove (Emitter._listeners st) event
        else JsMap.set (Emitter._listeners st) event (survivors st event);
      Emitter._once :=
        Emitter._once st ∖ list_to_set (subscribers st event) |},
   subscribers st event,
   first_rejection (subscribers st event)).
Proof.
  intros Hsome. rewrite emit_explicit.
  by destruct (subscribers st event).
Qed.

(** X16. After an emit of an event, a further emit of that event calls the
    listeners the first one left subscribed, in the same order, ends as
    they end, and leaves the bus exactly as it finds it: the only change an
    emit makes is the removal of the single-fire listeners, which is made
    once. *)
Theorem emit_again_changes_nothing (st : Emitter.State) (event : string) :
  let st1 := (Emitter.emit event st).1.1 in
  Emitter.emit event st1 =
    (st1, survivors st event, first_rejection (survivors st event)) ∧
  survivors st event =
    filter (λ fn, fn ∉ Emitter._once st) (Emitter.emit event st).1.2.
Proof.
  intros st1. split; [|by rewrite emit_called].
  assert (subscribers st1 event = survivors st event) as Hs
    by apply emit_subscribers.
  assert (Emitter._once st1 =
          Emitter._once st ∖ list_to_set (subscribers st event)) as Ho
    by apply emit_once.
  destruct (decide (survivors st event = [])) as [Hnone|Hsome].
  { rewrite emit_explicit, Hs, Hnone. done. }
  rewrite (emit_nonempty st1 event) by (by rewrite Hs).
  assert (survivors st1 event = survivors st event) as Hsame.
  { unfold survivors at 1. rewrite Hs. apply filter_all.
    intros x Hx. rewrite Ho. apply survivors_subscribers in Hx as Hx'.
    unfold survivors in Hx. apply list_elem_of_filter in Hx as [Hx _].
    set_solver. }
  rewrite Hsame, Hs, decide_False
    by (by intros ?%length_zero_iff_nil).
  f_equal. f_equal. destruct st1 as [listeners once] eqn:Hst1. simpl in *.
  f_equal.
  - apply JsMap_set_same. unfold subscribers in Hs. simpl in Hs.
    destruct (JsMap.get listeners event) as [set|]; simpl in Hs; [by subst|].
    by rewrite <- Hs in Hsome.
  - apply leibniz_equiv. intros x. rewrite Ho.
    rewrite !elem_of_difference, !elem_of_list_to_set.
    split; [tauto|]. intros [Hx Hn]. repeat split; try done.
    intros Hin. by apply Hn, survivors_subscribers.
Qed.

(** ** A single-fire listener fires once *)

Lemma unsubscribed_stays (c : BusCall) st event fn :
  ¬ subscribes event fn c →
  fn ∉ subscribers st event → fn ∉ subscribers (bus_perform c st) event.
Proof.
  destruct c as [e f|e f|e f|cleared|e|]; simpl; intros Hno Hfn.
  - destruct (decide (e = event)) as [->|Hne].
    + rewrite on_subscribers.
      intros [->|Hin]%elem_of_JsSet_add; [by apply Hno|done].
    + by rewrite on_subscribers_other.
  - destruct (decide (e = event)) as [->|Hne].
    + rewrite once_subscribers.
      intros [->|Hin]%elem_of_JsSet_add; [by apply Hno|done].
    + by rewrite once_subscribers_other.
  - destruct (decide (e = event)) as [->|Hne].
    + rewrite off_subscribers. unfold JsSet.delete.
      by intros [_ ?]%list_elem_of_filter.
    + by rewrite off_subscribers_other.
  - destruct cleared as [[|a rest]|]; try (by intros ?%elem_of_nil).
    rewrite removeAllListeners_event. case_decide; [|done].
    by intros ?%elem_of_nil.
  - destruct (decide (e = event)) as [->|Hne].
    + rewrite emit_subscribers. by intros ?%survivors_subscribers.
    + by rewrite emit_subscribers_other.
  - by intros ?%elem_of_nil.
Qed.

Lemma unsubscribed_stays_all calls : ∀ st event fn,
  Forall (λ c, ¬ subscribes event fn c) calls →
  fn ∉ subscribers st event →
  fn ∉ subscribers (bus_perform_all calls st) event.
Proof.
  unfold bus_perform_all.
  induction calls as [|c calls IH]; intros st event fn Hcalls Hfn; [done|].
  apply Forall_cons in Hcalls as [Hc Hcalls]. simpl.
  apply IH; [done|]. by apply unsubscribed_stays.
Qed.

(** X17. A listener that is subscribed to an event and has its single-fire
    marker when the event is emitted is called by that emit and by no later
    emit of the event, whatever is called on the bus in between (emits,
    removals, a reset, subscriptions of other listeners, subscriptions of
    this listener to other events), as long as no call subscribes this
    listener to this event again. In particular this holds for the emit
    that follows [once] directly. *)
Theorem marked_listener_fires_once
    (st : Emitter.State) (event : string) (fn : Listener) :
  (fn ∈ Emitter._once st → fn ∈ subscribers st event →
   fn ∈ (Emitter.emit event st).1.2 ∧
   ∀ calls, Forall (λ c, ¬ subscribes event fn c) calls →
     fn ∉ (Emitter.emit event
             (bus_perform_all calls (Emitter.emit event st).1.1)).1.2) ∧
  (fn ∈ (Emitter.emit event (Emitter.once event fn st)).1.2 ∧
   ∀ calls, Forall (λ c, ¬ subscribes event fn c) calls →
     fn ∉ (Emitter.emit event
             (bus_perform_all calls
                (Emitter.emit event (Emitter.once event fn st)).1.1)).1.2).
Proof.
  assert (∀ st', fn ∈ Emitter._once st' → fn ∈ subscribers st' event →
            fn ∈ (Emitter.emit event st').1.2 ∧
            ∀ calls, Forall (λ c, ¬ subscribes event fn c) calls →
              fn ∉ (Emitter.emit event
                      (bus_perform_all calls (Emitter.emit event st').1.1)).1.2)
    as Hgeneral.
  { intros st' Hmark Hsub.
    destruct (emit_marked st' event fn Hmark Hsub) as (Hcalled & Hgone & _).
    split; [done|]. intros calls Hcalls. rewrite emit_called.
    by apply unsubscribed_stays_all. }
  split; [apply Hgeneral|]. apply Hgeneral.
  - rewrite once_once. set_solver.
  - rewrite once_subscribers. apply elem_of_JsSet_add. by left.
Qed.

Lemma marked_listener_fires_once_witness :
  greeter ∈ (Emitter.emit "opened" twice_once).1.2 ∧
  greeter ∉
    (Emitter.emit "opened"
       (bus_perform_all
          [CallOn "opened" L1; CallOnce "closed" greeter;
           CallOff "opened" greeter; CallEmit "closed"; CallEmit "opened"]
          (Emitter.emit "opened" twice_once).1.1)).1.2.
Proof.
  destruct (marked_listener_fires_once twice_once "opened" greeter)
    as [Hfires _].
  destruct Hfires as [Hnow Hlater].
  - unfold twice_once. rewrite once_once. set_solver.
  - vm_compute. left.
  - split; [exact Hnow|]. apply Hlater.
    repeat constructor; simpl.
    + by intros [_ [=]].
    + by intros [[=] _].
    + by intros [].
    + by intros [].
    + by intros [].
Defined.

(** ** The container with injection *)

Section injection_facts.

Import Injection.

Variable program : nat → FunctionObject.

Implicit Types (st : State) (key : Key) (v : Ref).

(** ** Running *)

Lemma R_bind_some {A B} (m : R A) (f : A → R B) st st1 a :
  m st = Some (st1, inr a) → (m ≫= f) st = f a st1.
Proof. unfold mbind, R_bind. by intros ->. Qed.

Lemma R_bind_throws {A B} (m : R A) (f : A → R B) st st1 e :
  m st = Some (st1, inl e) → (m ≫= f) st = Some (st1, inl e).
Proof. unfold mbind, R_bind. by intros ->. Qed.

Lemma R_bind_none {A B} (m : R A) (f : A → R B) st :
  m st = None → (m ≫= f) st = None.
Proof. unfold mbind, R_bind. by intros ->. Qed.

Lemma R_bind_inv {A B} (m : R A) (f : A → R B) st st' b :
  (m ≫= f) st = Some (st', inr b) →
  ∃ st1 a, m st = Some (st1, inr a) ∧ f a st1 = Some (st', inr b).
Proof.
  unfold mbind, R_bind. destruct (m st) as [[st1 [e|a]]|]; [done| |done].
  eauto.
Qed.

Lemma mapM_cons {A B} (f : A → R B) x l st :
  mapM f (x :: l) st =
  match f x st with
  | None => None
  | Some (st1, inl e) => Some (st1, inl e)
  | Some (st1, inr y) =>
      match mapM f l st1 with
      | None => None
      | Some (st2, inl e) => Some (st2, inl e)
      | Some (st2, inr ys) => Some (st2, inr (y :: ys))
      end
  end.
Proof.
  simpl. unfold mbind, R_bind. by destruct (f x st) as [[st1 [e|y]]|].
Qed.

Lemma mapM_app {A B} (f : A → R B) l1 l2 st :
  mapM f (l1 ++ l2) st =
  match mapM f l1 st with
  | None => None
  | Some (st1, inl e) => Some (st1, inl e)
  | Some (st1, inr ys) =>
      match mapM f l2 st1 with
      | None => None
      | Some (st2, inl e) => Some (st2, inl e)
      | Some (st2, inr zs) => Some (st2, inr (ys ++ zs))
      end
  end.
Proof.
  revert st. induction l1 as [|x l1 IH]; intros st.
  { simpl. unfold mret, R_ret. by destruct (mapM f l2 st) as [[? [?|?]]|]. }
  rewrite <- app_comm_cons, !mapM_cons.
  destruct (f x st) as [[st1 [e|y]]|]; try done. rewrite IH.
  destruct (mapM f l1 st1) as [[st2 [e|ys]]|]; try done.
  by destruct (mapM f l2 st2) as [[st3 [e|zs]]|].
Qed.

(** ** A deeper recursion does what a shallower one does *)

Lemma within_bind {A B} (m m' : R A) (f f' : A → R B) :
  within m m' → (∀ a, within (f a) (f' a)) → within (m ≫= f) (m' ≫= f').
Proof.
  intros Hm Hf st r. unfold mbind, R_bind.
  destruct (m st) as [[st1 [e|a]]|] eqn:Hmst; [| |done].
  - by rewrite (Hm _ _ Hmst).
  - rewrite (Hm _ _ Hmst). apply Hf.
Qed.

Lemma within_refl {A} (m : R A) : within m m.
Proof. by intros st r. Qed.

Lemma within_mapM {A B} (f g : A → R B) l :
  (∀ x, within (f x) (g x)) → within (mapM f l) (mapM g l).
Proof.
  intros Hfg. induction l as [|x l IH]; [apply within_refl|]. simpl.
  apply within_bind; [apply Hfg|]. intros y.
  apply within_bind; [apply IH|]. intros ys. apply within_refl.
Qed.

Lemma within_produce (r1 r2 : Key → R Ref) recipe :
  (∀ key, within (r1 key) (r2 key)) →
  within (produce program r1 recipe) (produce program r2 recipe).
Proof.
  intros Hr. destruct recipe as [fn|Cls paramTypes]; simpl.
  - apply within_refl.
  - apply within_bind; [|intros; apply within_refl].
    apply within_mapM. intros dep. apply Hr.
Qed.

Lemma within_resolveWith (r1 r2 : Key → R Ref) key :
  (∀ key, within (r1 key) (r2 key)) →
  within (resolveWith program r1 key) (resolveWith program r2 key).
Proof.
  intros Hr st r. unfold resolveWith.
  destruct (JsMap.get (factories st) key) as [entry|]; [|done].
  pose proof (within_produce r1 r2 (factory entry) Hr st) as Hp.
  destruct (isSingleton entry); [|apply Hp].
  destruct (negb _); [|done].
  destruct (produce program r1 (factory entry) st) as [[st1 [e|v]]|] eqn:H1;
    [| |done]; by rewrite (Hp _ eq_refl).
Qed.

Lemma within_makeWith (r1 r2 : Key → R Ref) (m1 m2 : nat → R Ref) ctor :
  (∀ key, within (r1 key) (r2 key)) →
  (∀ c, within (m1 c) (m2 c)) →
  within (makeWith program r1 m1 ctor) (makeWith program r2 m2 ctor).
Proof.
  intros Hr Hm. unfold makeWith.
  apply within_bind; [|intros; apply within_refl].
  apply within_mapM. intros dep st r. destruct (has _ st); [apply Hr|apply Hm].
Qed.

Lemma resolve_deeper depth : ∀ key,
  within (resolve program depth key) (resolve program (S depth) key).
Proof.
  induction depth as [|depth IH]; intros key; [done|].
  change (within (resolveWith program (resolve program depth) key)
            (resolveWith program (resolve program (S depth)) key)).
  by apply within_resolveWith.
Qed.

Lemma resolve_monotone depth depth' key :
  (depth ≤ depth')%nat →
  within (resolve program depth key) (resolve program depth' key).
Proof.
  induction 1 as [|depth' _ IH]; [apply within_refl|].
  intros st r Hr. by apply resolve_deeper, IH.
Qed.

Lemma make_deeper depth : ∀ ctor,
  within (make program depth ctor) (make program (S depth) ctor).
Proof.
  induction depth as [|depth IH]; intros ctor; [done|].
  change (within
            (makeWith program (resolve program depth) (make program depth) ctor)
            (makeWith program (resolve program (S depth))
               (make program (S depth)) ctor)).
  apply within_makeWith; [apply resolve_deeper|done].
Qed.

Lemma make_monotone depth depth' ctor :
  (depth ≤ depth')%nat →
  within (make program depth ctor) (make program depth' ctor).
Proof.
  induction 1 as [|depth' _ IH]; [apply within_refl|].
  intros st r Hr. by apply make_deeper, IH.
Qed.

(** ** What resolving and making leave in place *)

Lemma extended_refl st : extended st st.
Proof. by split. Qed.

Lemma extended_trans st1 st2 st3 :
  extended st1 st2 → extended st2 st3 → extended st1 st3.
Proof.
  intros [F1 I1 C1 H1] [F2 I2 C2 H2]. split.
  - by rewrite F2.
  - intros key v Hv. by apply I2, I1.
  - by etrans.
  - by etrans.
Qed.

Lemma orderly_bind {A B} (m : R A) (f : A → R B) :
  orderly m → (∀ a, orderly (f a)) → orderly (m ≫= f).
Proof.
  intros Hm Hf st st' r. unfold mbind, R_bind.
  destruct (m st) as [[st1 [e|a]]|] eqn:Hmst; [| |done].
  - intros [= <- <-]. destruct (Hm _ _ _ Hmst) as [? Hdef].
    split; [done|]. intros [= ->]. by apply Hdef.
  - intros Hfa. destruct (Hm _ _ _ Hmst) as [? _].
    destruct (Hf a _ _ _ Hfa) as [? ?].
    split; [by eapply extended_trans|done].
Qed.

Lemma orderly_ret {A} (a : A) : orderly (mret a : R A).
Proof. intros st st' r [= <- <-]. split; [apply extended_refl|done]. Qed.

Lemma orderly_mapM {A B} (f : A → R B) l :
  (∀ x, orderly (f x)) → orderly (mapM f l).
Proof.
  intros Hf. induction l as [|x l IH]; [apply orderly_ret|]. simpl.
  apply orderly_bind; [apply Hf|]. intros y.
  apply orderly_bind; [apply IH|]. intros ys. apply orderly_ret.
Qed.

Lemma orderly_execute fn : orderly (execute program fn).
Proof.
  intros st st' r [= <- <-]. split; [|by destruct (call _ _)].
  split; simpl; try done. by apply prefix_app_r.
Qed.

Lemma orderly_new Cls args : orderly (new program Cls args).
Proof.
  intros st st' r. unfold new.
  destruct (construct (program Cls) args); intros [= <- <-].
  - split; [|done]. split; simpl; try done. by apply prefix_app_r.
  - split; [apply extended_refl|done].
Qed.

Lemma orderly_produce (r : Key → R Ref) recipe :
  (∀ key, orderly (r key)) → orderly (produce program r recipe).
Proof.
  intros Hr. destruct recipe as [fn|Cls paramTypes]; simpl.
  - apply orderly_execute.
  - apply orderly_bind; [|intros; apply orderly_new].
    apply orderly_mapM. intros dep. apply Hr.
Qed.

Lemma orderly_resolveWith (r : Key → R Ref) key :
  (∀ key, orderly (r key)) → orderly (resolveWith program r key).
Proof.
  intros Hr st st' res. unfold resolveWith.
  destruct (JsMap.get (factories st) key) as [entry|];
    [|intros [= <- <-]; split; [apply extended_refl|done]].
  pose proof (orderly_produce r (factory entry) Hr st) as Hp.
  destruct (isSingleton entry); [|apply Hp].
  destruct (JsMap.has (instances st) key) eqn:Hhas; simpl.
  { intros [= <- <-]. split; [apply extended_refl|].
    apply JsMap_has_true in Hhas as [v ->]. done. }
  apply JsMap_has_false in Hhas.
  destruct (produce program r (factory entry) st) as [[st1 [e|v]]|] eqn:H1;
    [| |done].
  - intros [= <- <-]. by apply (Hp _ _ eq_refl).
  - intros [= <- <-]. pose proof (Hp _ _ eq_refl) as [[F1 I1 C1 H1'] _].
    split; [|by rewrite JsMap_get_set_eq].
    split; simpl; try done. intros key' v' Hv'.
    destruct (decide (key = key')) as [<-|Hne]; [congruence|].
    rewrite JsMap_get_set_ne by done. by apply I1.
Qed.

Lemma orderly_resolve depth : ∀ key, orderly (resolve program depth key).
Proof.
  induction depth as [|depth IH]; intros key; [done|].
  by apply orderly_resolveWith.
Qed.

Lemma orderly_make depth : ∀ ctor, orderly (make program depth ctor).
Proof.
  induction depth as [|depth IH]; intros ctor; [done|]. simpl. unfold makeWith.
  apply orderly_bind; [|intros; apply orderly_new].
  apply orderly_mapM. intros dep st st' r.
  destruct (has _ st); [apply orderly_resolve|apply IH].
Qed.

(** The dependencies that [make] collects. *)
Lemma orderly_dependencies depth paramTypes :
  orderly (mapM (λ dep st,
                   if has (Class dep) st
                   then resolve program depth (Class dep) st
                   else make program depth dep st) paramTypes).
Proof.
  apply orderly_mapM. intros dep st st' r.
  destruct (has _ st); [apply orderly_resolve|apply orderly_make].
Qed.

(** ** Cached singletons *)

Lemma cached_extended st st' key v :
  extended st st' → cached st key v → cached st' key v.
Proof.
  intros [F I _ _] [He Hv]. split; [by rewrite F|by apply I].
Qed.

Lemma cached_has st key v : cached st key v → has key st = true.
Proof.
  intros [(entry & He & _) _]. unfold has. apply JsMap_has_true. eauto.
Qed.

Lemma resolve_from_cache depth st key v :
  cached st key v → resolve program (S depth) key st = Some (st, inr v).
Proof.
  intros [(entry & He & Hs) Hv]. simpl. unfold resolveWith.
  rewrite He, Hs.
  assert (JsMap.has (instances st) key = true) as ->
    by (apply JsMap_has_true; eauto).
  simpl. by rewrite Hv.
Qed.

Lemma resolve_all_cached depth st paramTypes args :
  Forall2 (λ dep v, cached st (Class dep) v) paramTypes args →
  mapM (λ dep, resolve program (S depth) (Class dep)) paramTypes st =
  Some (st, inr args).
Proof.
  induction 1 as [|dep v l vs Hc _ IH]; [done|].
  by rewrite mapM_cons, (resolve_from_cache _ _ _ _ Hc), IH.
Qed.

Lemma collect_all_cached depth st paramTypes args :
  Forall2 (λ dep v, cached st (Class dep) v) paramTypes args →
  mapM (λ dep st,
          if has (Class dep) st
          then resolve program (S depth) (Class dep) st
          else make program (S depth) dep st) paramTypes st =
  Some (st, inr args).
Proof.
  induction 1 as [|dep v l vs Hc _ IH]; [done|].
  by rewrite mapM_cons, (cached_has _ _ _ Hc), (resolve_from_cache _ _ _ _ Hc), IH.
Qed.

Lemma cached_built Cls args st key v :
  cached st key v → cached (built Cls args st) key v.
Proof. by intros [? ?]. Qed.

Lemma cached_kept key' v' st key v :
  JsMap.get (instances st) key' = None →
  cached st key v → cached (kept key' v' st) key v.
Proof.
  intros Hnone [He Hv]. split; [done|]. simpl.
  rewrite JsMap_get_set_ne; [done|]. intros ->. congruence.
Qed.

Lemma new_returns Cls args st :
  construct (program Cls) args = Returns →
  new program Cls args st =
  Some (built Cls args st, inr (Obj (length (heap st)))).
Proof. unfold new. by intros ->. Qed.

Lemma resolve_S depth key :
  resolve program (S depth) key =
  resolveWith program (resolve program depth) key.
Proof. done. Qed.

Lemma make_S depth ctor :
  make program (S depth) ctor =
  makeWith program (resolve program depth) (make program depth) ctor.
Proof. done. Qed.

Lemma resolve_injecting depth st key Cls paramTypes single args :
  JsMap.get (factories st) key =
    Some {| factory := Injected Cls paramTypes; isSingleton := single |} →
  (single = true → JsMap.get (instances st) key = None) →
  Forall2 (λ dep v, cached st (Class dep) v) paramTypes args →
  construct (program Cls) args = Returns →
  resolve program (S (S depth)) key st =
  Some (if single
        then kept key (Obj (length (heap st))) (built Cls args st)
        else built Cls args st,
        inr (Obj (length (heap st)))).
Proof.
  intros He Hnone Hargs Hnew.
  assert (produce program (resolve program (S depth))
            (Injected Cls paramTypes) st =
          Some (built Cls args st, inr (Obj (length (heap st))))) as Hproduce.
  { unfold produce, mbind, R_bind.
    by rewrite (resolve_all_cached _ _ _ _ Hargs), (new_returns _ _ _ Hnew). }
  rewrite resolve_S. unfold resolveWith. rewrite He.
  cbn [isSingleton factory]. destruct single; [|done].
  rewrite (proj2 (JsMap_has_false _ _) (Hnone eq_refl)).
  cbn [negb]. rewrite Hproduce. unfold kept. cbn [instances].
  by rewrite JsMap_get_set_eq.
Qed.

(** ** The cache changes under bound keys only *)

Lemma sparing_bind {A B} (m : R A) (f : A → R B) :
  orderly m → sparing m → (∀ a, sparing (f a)) → sparing (m ≫= f).
Proof.
  intros Ho Hm Hf st st' r. unfold mbind, R_bind.
  destruct (m st) as [[st1 [e|a]]|] eqn:Hmst; [| |done].
  - intros [= <- <-]. by apply (Hm _ _ _ Hmst).
  - intros Hfa key Hkey. rewrite (Hf a _ _ _ Hfa key).
    + by apply (Hm _ _ _ Hmst).
    + destruct (Ho _ _ _ Hmst) as [[F _ _ _] _]. unfold has in *.
      by rewrite F.
Qed.

Lemma sparing_ret {A} (a : A) : sparing (mret a : R A).
Proof. by intros st st' r [= <- <-]. Qed.

Lemma sparing_mapM {A B} (f : A → R B) l :
  (∀ x, orderly (f x)) → (∀ x, sparing (f x)) → sparing (mapM f l).
Proof.
  intros Ho Hf. induction l as [|x l IH]; [apply sparing_ret|]. simpl.
  apply sparing_bind; [apply Ho|apply Hf|]. intros y.
  apply sparing_bind; [by apply orderly_mapM|apply IH|].
  intros ys. apply sparing_ret.
Qed.

Lemma sparing_execute fn : sparing (execute program fn).
Proof. by intros st st' r [= <- <-]. Qed.

Lemma sparing_new Cls args : sparing (new program Cls args).
Proof.
  intros st st' r. unfold new.
  by destruct (construct (program Cls) args); intros [= <- <-].
Qed.

Lemma sparing_produce (r : Key → R Ref) recipe :
  (∀ key, orderly (r key)) → (∀ key, sparing (r key)) →
  sparing (produce program r recipe).
Proof.
  intros Ho Hr. destruct recipe as [fn|Cls paramTypes]; simpl.
  - apply sparing_execute.
  - apply sparing_bind; [| |intros; apply sparing_new].
    + apply orderly_mapM. intros dep. apply Ho.
    + apply sparing_mapM; intros dep; [apply Ho|apply Hr].
Qed.

Lemma sparing_resolveWith (r : Key → R Ref) key :
  (∀ key, orderly (r key)) → (∀ key, sparing (r key)) →
  sparing (resolveWith program r key).
Proof.
  intros Ho Hr st st' res. unfold resolveWith.
  destruct (JsMap.get (factories st) key) as [entry|] eqn:He;
    [|by intros [= <- <-]].
  pose proof (sparing_produce r (factory entry) Ho Hr st) as Hp.
  destruct (isSingleton entry); [|apply Hp].
  destruct (JsMap.has (instances st) key); simpl; [by intros [= <- <-]|].
  destruct (produce program r (factory entry) st) as [[st1 [e|v]]|] eqn:H1;
    [| |done].
  - intros [= <- <-]. by apply (Hp _ _ eq_refl).
  - intros [= <- <-] key' Hkey'. simpl.
    rewrite JsMap_get_set_ne; [by apply (Hp _ _ eq_refl)|].
    intros <-. apply JsMap_has_false in Hkey'. congruence.
Qed.

Lemma sparing_resolve depth : ∀ key, sparing (resolve program depth key).
Proof.
  induction depth as [|depth IH]; intros key; [done|].
  apply sparing_resolveWith; [apply orderly_resolve|done].
Qed.

Lemma sparing_collect depth : ∀ paramTypes,
  (∀ ctor, sparing (make program depth ctor)) →
  sparing (collect program depth paramTypes).
Proof.
  intros paramTypes IH. apply sparing_mapM.
  - intros dep st st' r.
    destruct (has _ st); [apply orderly_resolve|apply orderly_make].
  - intros dep st st' r.
    destruct (has _ st); [apply sparing_resolve|apply IH].
Qed.

Lemma sparing_make depth : ∀ ctor, sparing (make program depth ctor).
Proof.
  induction depth as [|depth IH]; intros ctor; [done|].
  rewrite make_S. unfold makeWith.
  apply sparing_bind; [apply orderly_dependencies| |intros; apply sparing_new].
  by apply sparing_collect.
Qed.

End injection_facts.

Section injection_properties.

Import Injection.

Lemma built_heap_length Cls args st :
  length (heap (built Cls args st)) = S (length (heap st)).
Proof. simpl. rewrite length_app. simpl. lia. Qed.

(** X18. A binding made from a class resolves the parameter types of the
    constructor in the container and builds the class with [new] from what
    it gets. When all of them are cached singletons, the instance gets
    exactly the cached instances, in the order of the parameters, and
    nothing is called. A transient binding builds a new object at each
    [resolve], from the same cached instances; a singleton binding builds
    one at the first [resolve], caches it, and returns that object from
    then on without building. *)
Theorem resolve_injects_the_cached_singletons
    (program : nat → FunctionObject) (st : State) (key : Key) (Cls : nat)
    (paramTypes : list nat) (args : list Ref) (depth : nat) :
  Forall2 (λ dep v, cached st (Class dep) v) paramTypes args →
  JsMap.get (instances st) key = None →
  construct (program Cls) args = Returns →
  (JsMap.get (factories st) key =
     Some {| factory := Injected Cls paramTypes; isSingleton := false |} →
   resolve program (S (S depth)) key st =
     Some (built Cls args st, inr (Obj (length (heap st)))) ∧
   resolve program (S (S depth)) key (built Cls args st) =
     Some (built Cls args (built Cls args st),
           inr (Obj (S (length (heap st)))))) ∧
  (JsMap.get (factories st) key =
     Some {| factory := Injected Cls paramTypes; isSingleton := true |} →
   let first := kept key (Obj (length (heap st))) (built Cls args st) in
   resolve program (S (S depth)) key st =
     Some (first, inr (Obj (length (heap st)))) ∧
   resolve program (S (S depth)) key first =
     Some (first, inr (Obj (length (heap st))))).
Proof.
  intros Hargs Hnone Hnew. split.
  - intros He. split.
    + by apply (resolve_injecting program depth st key Cls paramTypes false args).
    + rewrite <- (built_heap_length Cls args st).
      by apply (resolve_injecting program depth _ key Cls paramTypes false args).
  - intros He first. split.
    + by apply (resolve_injecting program depth st key Cls paramTypes true args).
    + apply resolve_from_cache. split; [by eauto|].
      unfold first, kept. simpl. by rewrite JsMap_get_set_eq.
Qed.

Lemma resolve_injects_the_cached_singletons_witness :
  resolve services 2 (Class UserService)
    (register services (ByConstructor UserService None) two_singletons) =
  Some (built UserService [Obj 0; Obj 1]
          (register services (ByConstructor UserService None) two_singletons),
        inr (Obj 2)).
Proof.
  destruct (resolve_injects_the_cached_singletons services
              (register services (ByConstructor UserService None)
                 two_singletons)
              (Class UserService) UserService [Database; Logger]
              [Obj 0; Obj 1] 0) as [Htransient _].
  - repeat constructor.
    + eexists. split; [reflexivity|done].
    + eexists. split; [reflexivity|done].
  - reflexivity.
  - reflexivity.
  - apply Htransient. reflexivity.
Defined.

Lemma resolve_unbound (program : nat → FunctionObject) depth st key :
  JsMap.get (factories st) key = None →
  resolve program (S depth) key st =
  Some (st, inl (ServiceNotRegistered key)).
Proof. intros Hnone. rewrite resolve_S. unfold resolveWith. by rewrite Hnone. Qed.

(** What [make] returns is the object that its last step builds. *)
Lemma make_builds_anew (program : nat → FunctionObject) depth Cls st st' v :
  make program depth Cls st = Some (st', inr v) →
  ∃ earlier args,
    heap st' = earlier ++ [(Cls, args)] ∧
    heap st `prefix_of` earlier ∧
    v = Obj (length earlier).
Proof.
  intros Hr. destruct depth as [|depth]; [done|].
  rewrite make_S in Hr. unfold makeWith in Hr.
  apply R_bind_inv in Hr as (st1 & deps & Hdeps & Hnew).
  apply orderly_dependencies in Hdeps as [[_ _ _ Hheap] _].
  unfold new in Hnew. destruct (construct (program Cls) deps); [|done].
  injection Hnew as <- <-. by exists (heap st1), deps.
Qed.

(** X19. A dependency that is not bound. [resolve] through a binding made
    from a class resolves the parameter types of the constructor in their
    order. When the earlier ones resolve to values and the next one has no
    binding, it throws the not-registered error for that one, and it ends
    in the very state in which resolving the earlier ones has ended: what
    they have built or cached is kept, the later parameter types are not
    resolved and the class is not built. [make] of such a class collects
    the arguments of the earlier parameter types, builds the dependency
    that has no binding itself, with [make], whatever that one takes in
    turn, collects the arguments of the later ones and then builds the
    class from all of them. What [make] has built for the dependency is a
    new object of its class that is neither bound nor cached: the bindings
    are as before, the cache holds under its key what it held before, and
    a [resolve] of it throws as before. *)
Theorem unbound_dependency_fails_resolve_but_not_make
    (program : nat → FunctionObject) (st : State) (Cls : nat)
    (pre : list nat) (dep : nat) (post : list nat) (depth : nat) :
  has (Class dep) st = false →
  (∀ key single st1 args,
     JsMap.get (factories st) key =
       Some {| factory := Injected Cls (pre ++ dep :: post);
               isSingleton := single |} →
     (single = true → JsMap.get (instances st) key = None) →
     mapM (λ d, resolve program (S depth) (Class d)) pre st =
       Some (st1, inr args) →
     resolve program (S (S depth)) key st =
       Some (st1, inl (ServiceNotRegistered (Class dep)))) ∧
  (∀ st1 args1 st2 v st3 args2,
     paramtypes (program Cls) = Some (pre ++ dep :: post) →
     collect program (S depth) pre st = Some (st1, inr args1) →
     make program (S depth) dep st1 = Some (st2, inr v) →
     collect program (S depth) post st2 = Some (st3, inr args2) →
     construct (program Cls) (args1 ++ v :: args2) = Returns →
     let final := built Cls (args1 ++ v :: args2) st3 in
     make program (S (S depth)) Cls st =
       Some (final, inr (Obj (length (heap st3)))) ∧
     (∃ earlier args,
        heap st2 = earlier ++ [(dep, args)] ∧
        heap st1 `prefix_of` earlier ∧
        v = Obj (length earlier)) ∧
     factories final = factories st ∧
     JsMap.get (instances final) (Class dep) =
       JsMap.get (instances st) (Class dep) ∧
     resolve program (S depth) (Class dep) final =
       Some (final, inl (ServiceNotRegistered (Class dep)))).
Proof.
  intros Hdep. split.
  - intros key single st1 args He Hnone Hpre.
    assert (produce program (resolve program (S depth))
              (Injected Cls (pre ++ dep :: post)) st =
            Some (st1, inl (ServiceNotRegistered (Class dep)))) as Hproduce.
    { unfold produce, mbind, R_bind. rewrite mapM_app, Hpre, mapM_cons.
      rewrite (resolve_unbound program depth st1 (Class dep)); [done|].
      destruct (orderly_mapM _ pre
                  (λ d, orderly_resolve program (S depth) (Class d))
                  _ _ _ Hpre) as [[F _ _ _] _].
      rewrite F. by apply JsMap_has_false. }
    rewrite resolve_S. unfold resolveWith. rewrite He.
    cbn [isSingleton factory]. destruct single; [|done].
    rewrite (proj2 (JsMap_has_false _ _) (Hnone eq_refl)).
    cbn [negb]. by rewrite Hproduce.
  - intros st1 args1 st2 v st3 args2 Hparams Hpre Hmake Hpost Hnew final.
    assert (has (Class dep) st1 = false) as Hdep1.
    { destruct (orderly_dependencies program (S depth) pre _ _ _ Hpre)
        as [[F _ _ _] _].
      unfold has in *. by rewrite F. }
    assert (make program (S (S depth)) Cls st =
            Some (final, inr (Obj (length (heap st3))))) as Hfinal.
    { rewrite make_S. unfold makeWith. rewrite Hparams.
      change (default [] (Some (pre ++ dep :: post)))
        with (pre ++ dep :: post).
      unfold mbind, R_bind. unfold collect in Hpre, Hpost.
      rewrite mapM_app, Hpre, mapM_cons, Hdep1, Hmake, Hpost.
      by rewrite (new_returns _ _ _ _ Hnew). }
    destruct (orderly_make program _ _ _ _ _ Hfinal) as [[F _ _ _] _].
    split; [done|]. split; [by eapply make_builds_anew|].
    split; [done|]. split.
    + by apply (sparing_make program _ _ _ _ _ Hfinal).
    + apply resolve_unbound. rewrite F. by apply JsMap_has_false.
Qed.

Lemma unbound_dependency_fails_resolve_but_not_make_witness :
  resolve layered 2 (Class UserService) without_database =
    Some (built Logger [] without_database,
          inl (ServiceNotRegistered (Class Database))) ∧
  make layered 3 UserService without_database =
    Some (built UserService [Obj 0; Obj 2; Obj 3]
            (built Logger []
               (built Database [Obj 1]
                  (built Driver []
                     (built Logger [] without_database)))),
          inr (Obj 4)).
Proof.
  split.
  - destruct (unbound_dependency_fails_resolve_but_not_make layered
                without_database UserService [Logger] Database [Logger] 0)
      as [Hresolve _]; [reflexivity|].
    apply (Hresolve (Class UserService) false _ [Obj 0]).
    + reflexivity.
    + done.
    + reflexivity.
  - destruct (unbound_dependency_fails_resolve_but_not_make layered
                without_database UserService [Logger] Database [Logger] 1)
      as [_ Hmake]; [reflexivity|].
    apply (Hmake (built Logger [] without_database) [Obj 0]
             (built Database [Obj 1]
                (built Driver [] (built Logger [] without_database)))
             (Obj 2)
             (built Logger []
                (built Database [Obj 1]
                   (built Driver [] (built Logger [] without_database))))
             [Obj 3]); reflexivity.
Defined.

(** X20. [resolve] and [make] only add to the container. However they
    end, by returning or by throwing, the bindings are the ones they found
    (so [make] binds nothing), every cached instance is still cached, and
    the objects built before are still there. What [make] returns is an
    object it has built itself, of the class it was given, which did not
    exist before the call: it is never an instance from the cache. Neither
    of them ends in a lookup that the source takes to succeed and that
    fails. *)
Theorem resolve_and_make_only_add
    (program : nat → FunctionObject) (depth : nat) (st st' : State) :
  (∀ key r,
     resolve program depth key st = Some (st', r) →
     extended st st' ∧ r ≠ inl Unreachable) ∧
  (∀ Cls r,
     make program depth Cls st = Some (st', r) →
     extended st st' ∧ r ≠ inl Unreachable ∧
     ∀ v, r = inr v →
       ∃ earlier args,
         heap st' = earlier ++ [(Cls, args)] ∧
         heap st `prefix_of` earlier ∧
         v = Obj (length earlier)).
Proof.
  split.
  - intros key r Hr. by apply (orderly_resolve program depth key).
  - intros Cls r Hr.
    destruct (orderly_make program depth Cls _ _ _ Hr) as [Hext Hdef].
    split; [done|]. split; [done|]. intros v ->.
    by apply (make_builds_anew program depth Cls st).
Qed.

Lemma resolve_and_make_only_add_witness :
  extended two_singletons
    (built UserService [Obj 0; Obj 1] two_singletons) ∧
  (inr (Obj 2) : Thrown + Ref) ≠ inl Unreachable.
Proof.
  destruct (resolve_and_make_only_add services 2 two_singletons
              (built UserService [Obj 0; Obj 1] two_singletons))
    as [_ Hmake].
  destruct (Hmake UserService (inr (Obj 2)) eq_refl) as (Hext & Hdef & _).
  exact (conj Hext Hdef).
Defined.

(** ** A class that needs itself *)

Lemma mapM_returns_inv {A B} (f : A → R B) l1 x l2 st st' ys :
  mapM f (l1 ++ x :: l2) st = Some (st', inr ys) →
  ∃ st1 ys1 st2 y,
    mapM f l1 st = Some (st1, inr ys1) ∧ f x st1 = Some (st2, inr y).
Proof.
  rewrite mapM_app.
  destruct (mapM f l1 st) as [[st1 [e|ys1]]|] eqn:Hl1; [done| |done].
  rewrite mapM_cons.
  destruct (f x st1) as [[st2 [e|y]]|] eqn:Hx; [done| |done].
  intros _. by exists st1, ys1, st2, y.
Qed.

(** X21. The container does not look for cycles among classes. [make] of
    a class that has no binding and takes an instance of itself never
    returns an object, however deep it may recurse: it recurses without
    end, unless a parameter before the class itself throws. The same holds
    for [resolve] of such a class through a transient binding made from
    it. *)
Theorem self_dependent_class_is_never_built
    (program : nat → FunctionObject) (Cls : nat)
    (pre post : list nat) :
  (paramtypes (program Cls) = Some (pre ++ Cls :: post) →
   ∀ depth st st' v,
     has (Class Cls) st = false →
     make program depth Cls st ≠ Some (st', inr v)) ∧
  (∀ depth st st' v,
     JsMap.get (factories st) (Class Cls) =
       Some {| factory := Injected Cls (pre ++ Cls :: post);
               isSingleton := false |} →
     resolve program depth (Class Cls) st ≠ Some (st', inr v)).
Proof.
  split.
  - intros Hparams depth. induction depth as [|depth IH]; [done|].
    intros st st' v Hunbound Hmake.
    rewrite make_S in Hmake. unfold makeWith in Hmake. rewrite Hparams in Hmake.
    change (default [] (Some (pre ++ Cls :: post)))
      with (pre ++ Cls :: post) in Hmake.
    apply R_bind_inv in Hmake as (st1 & deps & Hdeps & _).
    apply mapM_returns_inv in Hdeps as (st2 & ys & st3 & y & Hpre & Hself).
    apply orderly_dependencies in Hpre as [[Hf _ _ _] _].
    assert (has (Class Cls) st2 = false) as Hunbound2.
    { unfold has in *. by rewrite Hf. }
    rewrite Hunbound2 in Hself. by apply (IH st2 st3 y).
  - intros depth. induction depth as [|depth IH]; [done|].
    intros st st' v He Hresolve.
    rewrite resolve_S in Hresolve. unfold resolveWith in Hresolve.
    rewrite He in Hresolve. cbn [isSingleton factory] in Hresolve.
    unfold produce in Hresolve.
    apply R_bind_inv in Hresolve as (st1 & deps & Hdeps & _).
    apply mapM_returns_inv in Hdeps as (st2 & ys & st3 & y & Hpre & Hself).
    assert (extended st st2) as [Hf _ _ _].
    { eapply (orderly_mapM (λ dep, resolve program depth (Class dep)));
        [|exact Hpre]. intros dep. apply orderly_resolve. }
    apply (IH st2 st3 y); [|done]. by rewrite Hf.
Qed.

Lemma self_dependent_class_is_never_built_witness :
  make narcissus 1000 0 initial ≠ Some (built 0%nat [Obj 0] initial, inr (Obj 1)).
Proof.
  destruct (self_dependent_class_is_never_built narcissus 0 [] []) as [Hmake _].
  apply Hmake; reflexivity.
Defined.

(** ** [make] on a finite tree of classes *)

Lemma resolve_plain (program : nat → FunctionObject) depth st key :
  plain_bindings st → has key st = true →
  ∃ st' r,
    resolve program (S depth) key st = Some (st', r) ∧
    (∀ e, r = inl e → ∃ reason, e = Raised reason).
Proof.
  intros Hplain Hbound. rewrite resolve_S. unfold resolveWith.
  apply JsMap_has_true in Hbound as [entry He]. rewrite He.
  destruct (Hplain _ _ He) as [fn Hfn]. rewrite Hfn. unfold produce, execute.
  assert (∀ e, (match call (program fn) (calls fn st) with
                | Container.Made v => inr (Ext v)
                | Container.Failed reason => inl (Raised reason)
                end : Thrown + Ref) = inl e → ∃ reason, e = Raised reason)
    as Hcall.
  { intros e. destruct (call _ _); [done|]. intros [= <-]. eauto. }
  destruct (isSingleton entry);
    [|eexists _, _; split; [done|exact Hcall]].
  destruct (JsMap.has (instances st) key) eqn:Hhas; simpl.
  - apply JsMap_has_true in Hhas as [v ->]. simpl.
    eexists _, _. split; [done|]. by intros e.
  - destruct (call (program fn) (calls fn st)) as [v|reason].
    + rewrite JsMap_get_set_eq. simpl.
      eexists _, _. split; [done|]. by intros e.
    + eexists _, _. split; [done|]. intros e [= <-]. eauto.
Qed.

Lemma plain_bindings_extended st st' :
  extended st st' → plain_bindings st → plain_bindings st'.
Proof. intros [Hf _ _ _] Hplain key entry. rewrite Hf. apply Hplain. Qed.

Lemma mapM_returns {A B} (f : A → R B) (P : State → Prop)
    (E : Thrown → Prop) l :
  (∀ x st, x ∈ l → P st →
     ∃ st' r, f x st = Some (st', r) ∧ P st' ∧ ∀ e, r = inl e → E e) →
  ∀ st, P st →
    ∃ st' r, mapM f l st = Some (st', r) ∧ P st' ∧ ∀ e, r = inl e → E e.
Proof.
  induction l as [|x l IH]; intros Hf st HP.
  { exists st, (inr []). by split. }
  rewrite mapM_cons.
  destruct (Hf x st (list_elem_of_here _ _) HP)
    as (st1 & [e|y] & -> & HP1 & HE1).
  { eexists _, _. split; [done|]. split; [done|].
    intros e' [= <-]. by apply HE1. }
  destruct (IH (λ x' st' Hx', Hf x' st' (list_elem_of_further _ _ _ Hx'))
              st1 HP1) as (st2 & [e|ys] & -> & HP2 & HE2).
  - eexists _, _. split; [done|]. by split.
  - eexists _, _. split; [done|]. by split.
Qed.

(** X22. [make] builds every class whose tree of constructor parameters
    is finite, in a container in which only factory functions are bound:
    with [rank] a bound on the height of the tree below each class, a
    recursion deeper than the rank of the class comes to an end, in a
    state that extends the one before; it ends with an object, or with what
    a constructor or a factory function threw. *)
Theorem make_ends_on_a_finite_tree
    (program : nat → FunctionObject) (rank : nat → nat) :
  (∀ Cls dep,
     dep ∈ default [] (paramtypes (program Cls)) → (rank dep < rank Cls)%nat) →
  ∀ depth Cls st,
    plain_bindings st →
    (rank Cls < depth)%nat →
    ∃ st' r,
      make program depth Cls st = Some (st', r) ∧
      extended st st' ∧
      ((∃ address, r = inr (Obj address)) ∨ (∃ reason, r = inl (Raised reason))).
Proof.
  intros Hrank depth.
  assert (∀ Cls st, plain_bindings st → (rank Cls < depth)%nat →
            ∃ st' r, make program depth Cls st = Some (st', r) ∧
                     plain_bindings st' ∧
                     ∀ e, r = inl e → ∃ reason, e = Raised reason) as Hends.
  { induction depth as [|depth IH]; intros Cls st Hplain Hlt; [lia|].
    rewrite make_S. unfold makeWith, mbind, R_bind.
    assert (∀ dep st0,
              dep ∈ default [] (paramtypes (program Cls)) →
              plain_bindings st0 →
              ∃ st' r,
                (if has (Class dep) st0
                 then resolve program depth (Class dep) st0
                 else make program depth dep st0) = Some (st', r) ∧
                plain_bindings st' ∧
                ∀ e, r = inl e → ∃ reason, e = Raised reason) as Hdeps.
    { intros dep st0 Hdep Hplain0. specialize (Hrank Cls dep Hdep).
      destruct (has (Class dep) st0) eqn:Hbound.
      + destruct depth as [|depth']; [lia|].
        destruct (resolve_plain program depth' st0 (Class dep) Hplain0 Hbound)
          as (st' & r & Hr & He).
        exists st', r. split; [done|]. split; [|done].
        apply orderly_resolve in Hr as [Hext _].
        by apply (plain_bindings_extended st0).
      + apply IH; [done|lia]. }
    destruct (mapM_returns _ plain_bindings (λ e, ∃ reason, e = Raised reason)
                (default [] (paramtypes (program Cls))) Hdeps st Hplain)
      as (st1 & [e|deps] & -> & Hplain1 & He).
    - eexists _, _. split; [done|]. split; [done|].
      intros e' [= <-]. by apply He.
    - unfold new. destruct (construct (program Cls) deps) as [|reason].
      + eexists _, _. split; [done|]. split; [done|]. done.
      + eexists _, _. split; [done|]. split; [done|]. intros e [= <-]. eauto. }
  intros Cls st Hplain Hlt.
  destruct (Hends Cls st Hplain Hlt) as (st' & r & Hmake & _ & He).
  exists st', r. split; [done|].
  destruct (orderly_make program depth Cls _ _ _ Hmake) as [Hext _].
  split; [done|]. destruct r as [e|v].
  - right. destruct (He e eq_refl) as [reason ->]. eauto.
  - left. destruct (make_builds_anew program depth Cls st st' v Hmake)
      as (earlier & args & _ & _ & ->). eauto.
Qed.

Lemma services_rank (Cls dep : nat) :
  dep ∈ default [] (paramtypes (services Cls)) →
  ((if decide (dep = UserService) then 1 else 0) <
   (if decide (Cls = UserService) then 1 else 0))%nat.
Proof.
  unfold services. case_decide as HCls; simpl.
  - intros Hdep. rewrite decide_False; [lia|].
    intros ->. by repeat (apply elem_of_cons in Hdep as [|Hdep]);
      try apply elem_of_nil in Hdep.
  - by intros ?%elem_of_nil.
Qed.

Lemma make_ends_on_a_finite_tree_witness :
  ∃ st' r,
    make services 2 UserService initial = Some (st', r) ∧
    extended initial st' ∧
    ((∃ address, r = inr (Obj address)) ∨ (∃ reason, r = inl (Raised reason))).
Proof.
  apply (make_ends_on_a_finite_tree services
           (λ fn, if decide (fn = UserService) then 1 else 0)%nat
           services_rank 2 UserService initial).
  - intros key entry. unfold initial. simpl. by rewrite JsMap_get_empty.
  - simpl. lia.
Defined.

Lemma inject_marked (program : nat → FunctionObject) Cls :
  injectable (inject Cls program Cls) = true.
Proof. unfold inject. by rewrite decide_True. Qed.

Lemma inject_paramtypes (program : nat → FunctionObject) Cls fn :
  paramtypes (inject Cls program fn) = paramtypes (program fn).
Proof. unfold inject. by case_decide. Qed.

Lemma inject_construct (program : nat → FunctionObject) Cls fn :
  construct (inject Cls program fn) = construct (program fn).
Proof. unfold inject. by case_decide. Qed.

(** X23. Whether a class is built with [new] or called as a function
    depends on how it is bound. Bound by its constructor alone, it is built
    with [new], decorated or not. Given as the second argument (here under a
    name), it is built with [new] only when it bears the marker of
    [inject]; without the marker it is taken to be a factory function and
    called plainly at [resolve], and nothing is built. *)
Theorem marker_decides_between_new_and_call
    (program : nat → FunctionObject) (Cls : nat) (name : string)
    (st : State) (depth : nat) :
  paramtypes (program Cls) = None →
  construct (program Cls) [] = Returns →
  resolve program (S (S depth)) (Class Cls)
    (register program (ByConstructor Cls None) st) =
    Some (built Cls [] (register program (ByConstructor Cls None) st),
          inr (Obj (length (heap st)))) ∧
  (injectable (program Cls) = false →
   resolve program (S (S depth)) (Named name)
     (register program (ByName name Cls) st) =
     execute program Cls (register program (ByName name Cls) st)) ∧
  resolve (inject Cls program) (S (S depth)) (Named name)
    (register (inject Cls program) (ByName name Cls) st) =
    Some (built Cls [] (register (inject Cls program) (ByName name Cls) st),
          inr (Obj (length (heap st)))).
Proof.
  intros Hparams Hnew. split; [|split].
  - rewrite (resolve_injecting program depth _ (Class Cls) Cls [] false []);
      [done| |done|constructor|done].
    unfold register, bind, classToFactory. cbn [factories].
    by rewrite JsMap_get_set_eq, Hparams.
  - intros Hplain. rewrite resolve_S.
    unfold resolveWith, register, bind, toFactory.
    cbn [factories]. by rewrite JsMap_get_set_eq, Hplain.
  - rewrite (resolve_injecting (inject Cls program) depth _ (Named name) Cls []
               false []); [done| |done|constructor|].
    + unfold register, bind, toFactory, classToFactory. cbn [factories].
      rewrite JsMap_get_set_eq, inject_marked, inject_paramtypes, Hparams.
      done.
    + by rewrite inject_construct.
Qed.

Lemma marker_decides_between_new_and_call_witness :
  resolve (λ _, a_class false None) 2 (Named "logger")
    (register (λ _, a_class false None) (ByName "logger" Logger) initial) =
  execute (λ _, a_class false None) Logger
    (register (λ _, a_class false None) (ByName "logger" Logger) initial).
Proof.
  destruct (marker_decides_between_new_and_call (λ _, a_class false None)
              Logger "logger" initial 0 eq_refl eq_refl) as (_ & Hcall & _).
  by apply Hcall.
Defined.

End injection_properties.
